(** * bloaty: the analytical engine of [bloaty.cc]

    A shallow embedding of the program model ([Program], [RangeMap],
    [NameStripper]), the virtual-table scanner ([ParseVTables]), the
    dominator calculator ([DominatorCalculator]), the weight propagation
    ([CalculateWeights]) and the reachability pass ([GC]) of [bloaty.cc],
    followed by the properties established about them.

    Conventions.
    - [uintptr_t] and [size_t] are 64-bit and [uint32_t] is 32-bit; they are
      integers in [Z] and every addition that can wrap is written with
      [wrap64] or [wrap32].
    - [objects_] is a node-stable [std::unordered_map<std::string, Object>]:
      an [Object*] is the key (the name) of the record it points to, a
      nullable [Object*] is an [option ptr], reading through a pointer is a
      lookup in the store and writing through it is [alter] at its key.
    - A [std::set<Object*>] is a [gset ptr]; the source iterates it in
      address order, which the program does not control, and the model
      iterates [elements].  A [std::set<uint32_t>] is iterated in ascending
      order and is a strictly ascending list.
    - Recursive procedures whose termination is not structural take a
      [fuel] argument that bounds the recursion depth.
    - Diagnostic tracing under the global [verbose] / [name_path] switches
      only writes to stderr and is left out. *)

From Stdlib Require Import ZArith Lia Ascii String.
From stdpp Require Import base option list gmap sets strings numbers.

Local Open Scope Z_scope.

(** ** Machine integers *)

Definition wrap64 (z : Z) : Z := z mod 2 ^ 64.
Definition wrap32 (z : Z) : Z := z mod 2 ^ 32.

(** ** Outcomes of procedures that may stop the process *)

(** [Exit c] is [exit(c)]; [Fault] is undefined behaviour in the source (a
    null or dangling pointer dereferenced, a vector indexed out of range);
    [OutOfFuel] is the recursion bound of the model being reached. *)
Inductive res (A : Type) : Type :=
| Ok (a : A)
| Exit (code : Z)
| Fault
| OutOfFuel.
Arguments Ok {A} a.
Arguments Exit {A} code.
Arguments Fault {A}.
Arguments OutOfFuel {A}.

#[global] Instance res_ret : MRet res := fun A a => Ok a.
#[global] Instance res_bind : MBind res := fun A B f m =>
  match m with
  | Ok a => f a
  | Exit c => Exit c
  | Fault => Fault
  | OutOfFuel => OutOfFuel
  end.

(** [for (x : xs) st = body(x, st)] with early exit on a non-[Ok] outcome. *)
Fixpoint foldM {A S : Type} (body : A -> S -> res S) (xs : list A) (st : S)
  : res S :=
  match xs with
  | [] => Ok st
  | x :: xs' => st' ← body x st; foldM body xs' st'
  end.

Definition of_option {A : Type} (o : option A) : res A :=
  match o with
  | Some a => Ok a
  | None => Fault
  end.

Abbreviation ptr := string.

(** ** NameStripper *)

Module NameStripper.

(** [std::string::find_first_of(c)]: index of the first [c], [None] for
    [npos]. *)
Fixpoint find_first_of (c : ascii) (s : string) : option nat :=
  match s with
  | EmptyString => None
  | String a s' =>
      if Ascii.eqb a c then Some O else S <$> find_first_of c s'
  end.

(** [StripName] returns its flag together with what [stripped()] then
    yields. *)
Definition StripName (name : string) : bool * string :=
  match find_first_of "("%char name with
  | None => (false, name)
  | Some paren => (true, String.substring 0 paren name)
  end.

End NameStripper.

(** ** RangeMap *)

Module RangeMap.
Section RangeMap.
Context {T : Type}.

(** [std::map<uintptr_t, std::pair<T, size_t>>]: entries in strictly
    ascending key order. *)
Definition t : Type := list (Z * (T * Z)).

Definition empty : t := [].

(** [mappings_[k] = e]: insert, or overwrite the entry at [k]. *)
Fixpoint assign (k : Z) (e : T * Z) (m : t) : t :=
  match m with
  | [] => [(k, e)]
  | (k', e') :: m' =>
      if k <? k' then (k, e) :: m
      else if k =? k' then (k, e) :: m'
      else (k', e') :: assign k e m'
  end.

Definition Add (addr size : Z) (val : T) (m : t) : t :=
  assign addr (val, size) m.

(** [it = upper_bound(addr)] followed by [--it]: the entry with the
    greatest key [<= addr]; [None] when [it == begin()]. *)
Fixpoint before_upper_bound (addr : Z) (m : t) : option (Z * (T * Z)) :=
  match m with
  | [] => None
  | (k, e) :: m' =>
      if addr <? k then None
      else match before_upper_bound addr m' with
           | Some hit => Some hit
           | None => Some (k, e)
           end
  end.

Definition TryGet (addr : Z) (m : t) : option T :=
  match before_upper_bound addr m with
  | None => None
  | Some (first, (val, size)) =>
      if wrap64 (first + size) <? addr then None else Some val
  end.

(** [Get] prints "No fileoff for: ..." and exits on a miss. *)
Definition Get (addr : Z) (m : t) : res T :=
  match TryGet addr m with
  | Some v => Ok v
  | None => Exit 1
  end.

End RangeMap.
Arguments t : clear implicits.
End RangeMap.

(** ** Objects, files and the program *)

Module Obj.

(** Modelled from the spec: the [Object] record of [bloaty.h] (section 3,
    Symbol): numeric id, mangled name, pretty name, address, size,
    data flag, optional owning file, outgoing references, weight and
    maximal weight. *)
Record t : Type := mk {
  id : Z;
  name : string;
  pretty_name : string;
  vmaddr : Z;
  size : Z;
  data : bool;
  file : option string;
  refs : gset ptr;
  weight : Z;
  max_weight : Z
}.

(** Modelled from the spec: the constructor [Object(name)] of [bloaty.h];
    a fresh record carries its name, the sentinel id, no file and no
    references. *)
Definition new (n : string) : t := mk 0 n n 0 0 false None ∅ 0 0.

Definition set_id (x : Z) (o : t) : t :=
  mk x (name o) (pretty_name o) (vmaddr o) (size o) (data o) (file o)
     (refs o) (weight o) (max_weight o).
Definition set_name (x : string) (o : t) : t :=
  mk (id o) x (pretty_name o) (vmaddr o) (size o) (data o) (file o)
     (refs o) (weight o) (max_weight o).
Definition set_pretty_name (x : string) (o : t) : t :=
  mk (id o) (name o) x (vmaddr o) (size o) (data o) (file o)
     (refs o) (weight o) (max_weight o).
Definition set_vmaddr (x : Z) (o : t) : t :=
  mk (id o) (name o) (pretty_name o) x (size o) (data o) (file o)
     (refs o) (weight o) (max_weight o).
(** Modelled from the spec: [Object::SetSize] of [bloaty.h] stores the
    size. *)
Definition SetSize (x : Z) (o : t) : t :=
  mk (id o) (name o) (pretty_name o) (vmaddr o) x (data o) (file o)
     (refs o) (weight o) (max_weight o).
Definition set_data (x : bool) (o : t) : t :=
  mk (id o) (name o) (pretty_name o) (vmaddr o) (size o) x (file o)
     (refs o) (weight o) (max_weight o).
Definition set_file (x : option string) (o : t) : t :=
  mk (id o) (name o) (pretty_name o) (vmaddr o) (size o) (data o) x
     (refs o) (weight o) (max_weight o).
Definition set_refs (x : gset ptr) (o : t) : t :=
  mk (id o) (name o) (pretty_name o) (vmaddr o) (size o) (data o) (file o)
     x (weight o) (max_weight o).
Definition set_weight (x : Z) (o : t) : t :=
  mk (id o) (name o) (pretty_name o) (vmaddr o) (size o) (data o) (file o)
     (refs o) x (max_weight o).
Definition set_max_weight (x : Z) (o : t) : t :=
  mk (id o) (name o) (pretty_name o) (vmaddr o) (size o) (data o) (file o)
     (refs o) (weight o) x.

End Obj.

Module File.

(** Modelled from the spec: the [File] record of [bloaty.h] (section 3,
    File): file name, outgoing file references, source line weight. *)
Record t : Type := mk {
  name : string;
  refs : gset string;
  source_line_weight : Z
}.

Definition new (n : string) : t := mk n ∅ 0.

Definition set_refs (x : gset string) (f : t) : t :=
  mk (name f) x (source_line_weight f).

End File.

Record Program : Type := mkProgram {
  next_id_ : Z;
  total_size_ : Z;
  max_weight_ : Z;
  files_ : gmap string File.t;
  objects_ : gmap string Obj.t;
  stripped_pretty_names_ : gmap string (option ptr);
  objects_by_addr_ : RangeMap.t ptr;
  file_offsets_ : RangeMap.t Z;
  entry_ : option ptr
}.

(** [Program() : next_id_(1), total_size_(0)]; an entry point that was never
    set is [None]. *)
Definition Program_new : Program :=
  mkProgram 1 0 0 ∅ ∅ ∅ RangeMap.empty RangeMap.empty None.

Definition set_objects (x : gmap string Obj.t) (p : Program) : Program :=
  mkProgram (next_id_ p) (total_size_ p) (max_weight_ p) (files_ p) x
            (stripped_pretty_names_ p) (objects_by_addr_ p) (file_offsets_ p)
            (entry_ p).
Definition set_files (x : gmap string File.t) (p : Program) : Program :=
  mkProgram (next_id_ p) (total_size_ p) (max_weight_ p) x (objects_ p)
            (stripped_pretty_names_ p) (objects_by_addr_ p) (file_offsets_ p)
            (entry_ p).
Definition set_max_weight_ (x : Z) (p : Program) : Program :=
  mkProgram (next_id_ p) (total_size_ p) x (files_ p) (objects_ p)
            (stripped_pretty_names_ p) (objects_by_addr_ p) (file_offsets_ p)
            (entry_ p).

Section Program.

(** The demangler is an external process ([c++filt]); the program only
    relies on it being a function of the symbol. *)
Variable Demangle : string -> string.

Definition AddObject (name : string) (vmaddr size : Z) (data : bool)
           (p : Program) : ptr * Program :=
  (* auto pair = objects_.emplace(name, name); ret = &pair.first->second *)
  let objects1 :=
    match objects_ p !! name with
    | Some _ => objects_ p
    | None => <[name := Obj.new name]> (objects_ p)
    end in
  let ret : ptr := name in
  let objects2 :=
    alter (fun o =>
             Obj.set_name name
               (Obj.set_data data
                  (Obj.SetSize size
                     (Obj.set_vmaddr vmaddr
                        (Obj.set_id (next_id_ p) o)))))
          ret objects1 in
  let next_id' := wrap32 (next_id_ p + 1) in
  let total_size' := wrap64 (total_size_ p + size) in
  let by_addr' := RangeMap.Add vmaddr size ret (objects_by_addr_ p) in
  let demangled := Demangle name in
  let '(objects3, stripped') :=
    match NameStripper.StripName demangled with
    | (true, stripped) =>
        match stripped_pretty_names_ p !! stripped with
        | None =>
            (alter (Obj.set_pretty_name stripped) ret objects2,
             <[stripped := Some ret]> (stripped_pretty_names_ p))
        | Some it_second =>
            let objects2' :=
              alter (Obj.set_pretty_name demangled) ret objects2 in
            match it_second with
            | Some claimant =>
                (alter (fun o =>
                          Obj.set_pretty_name (Demangle (Obj.name o)) o)
                       claimant objects2',
                 <[stripped := None]> (stripped_pretty_names_ p))
            | None => (objects2', stripped_pretty_names_ p)
            end
        end
    | (false, _) =>
        (alter (Obj.set_pretty_name demangled) ret objects2,
         stripped_pretty_names_ p)
    end in
  (ret,
   mkProgram next_id' total_size' (max_weight_ p) (files_ p) objects3
             stripped' by_addr' (file_offsets_ p) (entry_ p)).

End Program.

Definition AddFileMapping (vmaddr fileoff filesize : Z) (p : Program)
  : Program :=
  mkProgram (next_id_ p) (total_size_ p) (max_weight_ p) (files_ p)
            (objects_ p) (stripped_pretty_names_ p) (objects_by_addr_ p)
            (RangeMap.Add vmaddr filesize (wrap64 (vmaddr - fileoff))
                          (file_offsets_ p))
            (entry_ p).

Definition TryGetFileOffset (vmaddr : Z) (p : Program) : option Z :=
  match RangeMap.TryGet vmaddr (file_offsets_ p) with
  | Some diff => Some (wrap64 (vmaddr - diff))
  | None => None
  end.

Definition SetEntryPoint (obj : option ptr) (p : Program) : Program :=
  mkProgram (next_id_ p) (total_size_ p) (max_weight_ p) (files_ p)
            (objects_ p) (stripped_pretty_names_ p) (objects_by_addr_ p)
            (file_offsets_ p) obj.

Definition TryAddRef (from : option ptr) (vmaddr : Z) (p : Program)
  : Program :=
  match from with
  | None => p
  | Some from =>
      match RangeMap.TryGet vmaddr (objects_by_addr_ p) with
      | Some to =>
          (* from->refs.insert(to) *)
          let p1 :=
            set_objects
              (alter (fun o => Obj.set_refs ({[to]} ∪ Obj.refs o) o)
                     from (objects_ p)) p in
          (* if (from->file && to->file) from->file->refs.insert(to->file) *)
          match objects_ p1 !! from ≫= Obj.file,
                objects_ p1 !! to ≫= Obj.file with
          | Some ffile, Some tfile =>
              set_files
                (alter (fun f => File.set_refs ({[tfile]} ∪ File.refs f) f)
                       ffile (files_ p1)) p1
          | _, _ => p1
          end
      | None => p
      end
  end.

Definition FindFunctionByName (name : string) (p : Program) : option ptr :=
  match objects_ p !! name with
  | Some _ => Some name
  | None => None
  end.

Definition FindObjectByAddr (addr : Z) (p : Program) : option ptr :=
  RangeMap.TryGet addr (objects_by_addr_ p).

(** [ProgramDataSink::AddRef]: [from->refs.insert(to)]. *)
Definition AddRef (from to : ptr) (p : Program) : Program :=
  set_objects
    (alter (fun o => Obj.set_refs ({[to]} ∪ Obj.refs o) o) from (objects_ p))
    p.


(** ** VTable scanner *)

Section ParseVTables.

(** [fread(&addr, sizeof(uintptr_t), 1, f)] yields the bytes in host order;
    how the host turns them into a word is left open. *)
Variable word_of_bytes : list Z -> Z.

(** The open [FILE*] is the list of bytes from the current position on.
    [fseek(f, base, SEEK_SET)] takes a [long]: an offset with the top bit set
    is negative, the call fails and the position stays. *)
Definition fseek (contents : list Z) (base : Z) (rest : list Z) : list Z :=
  if base <? 2 ^ 63 then drop (Z.to_nat base) contents else rest.

(** [for (size_t i = 0; i < obj->size; i += sizeof(uintptr_t))]: one
    [fread] of a whole word and one [TryAddRef] per round; a short read is
    [perror("fread"); exit(1)].  [calls] is not program state: it logs the
    words handed to [TryAddRef], in order. *)
Fixpoint scan_words (obj : ptr) (i : Z) (rest : list Z) (p : Program)
         (calls : list Z) : res (list Z * Program * list Z) :=
  match objects_ p !! obj with
  | None => Fault
  | Some o =>
      if i <? Obj.size o then
        match rest with
        | b0 :: b1 :: b2 :: b3 :: b4 :: b5 :: b6 :: b7 :: rest' =>
            let addr := word_of_bytes [b0; b1; b2; b3; b4; b5; b6; b7] in
            scan_words obj (wrap64 (i + 8)) rest'
                       (TryAddRef (Some obj) addr p) (calls ++ [addr])
        | _ => Exit 1
        end
      else Ok (rest, p, calls)
  end.

(** The body of the loop over [program->objects_] for one object. *)
Definition ScanObject (contents : list Z) (obj : ptr)
           (st : list Z * Program * list Z)
  : res (list Z * Program * list Z) :=
  let '(rest, p, calls) := st in
  match objects_ p !! obj with
  | None => Fault
  | Some o =>
      if negb (Obj.data o) then Ok st
      else
        match TryGetFileOffset (Obj.vmaddr o) p with
        | None => Ok st
        | Some base => scan_words obj 0 (fseek contents base rest) p calls
        end
  end.

Definition ParseVTables (contents : list Z) (p : Program) : res Program :=
  '(_, p', _) ← foldM (ScanObject contents)
                      (elements (dom (objects_ p))) (contents, p, []);
  Ok p'.

End ParseVTables.

(** ** Dominator calculator *)

Module NodeInfo.

Record t : Type := mk {
  node : option ptr;
  parent : Z;
  ancestor : Z;
  label : Z;
  semi : Z;
  dom : Z;
  pred : list Z;
  bucket : list Z
}.

(** What [resize] value-initialises a slot to. *)
Definition zero : t := mk None 0 0 0 0 0 [] [].

Definition set_node (x : option ptr) (i : t) : t :=
  mk x (parent i) (ancestor i) (label i) (semi i) (dom i) (pred i) (bucket i).
Definition set_parent (x : Z) (i : t) : t :=
  mk (node i) x (ancestor i) (label i) (semi i) (dom i) (pred i) (bucket i).
Definition set_ancestor (x : Z) (i : t) : t :=
  mk (node i) (parent i) x (label i) (semi i) (dom i) (pred i) (bucket i).
Definition set_label (x : Z) (i : t) : t :=
  mk (node i) (parent i) (ancestor i) x (semi i) (dom i) (pred i) (bucket i).
Definition set_semi (x : Z) (i : t) : t :=
  mk (node i) (parent i) (ancestor i) (label i) x (dom i) (pred i) (bucket i).
Definition set_dom (x : Z) (i : t) : t :=
  mk (node i) (parent i) (ancestor i) (label i) (semi i) x (pred i) (bucket i).
Definition set_pred (x : list Z) (i : t) : t :=
  mk (node i) (parent i) (ancestor i) (label i) (semi i) (dom i) x (bucket i).
Definition set_bucket (x : list Z) (i : t) : t :=
  mk (node i) (parent i) (ancestor i) (label i) (semi i) (dom i) (pred i) x.

End NodeInfo.

(** [std::set<uint32_t>::insert]. *)
Fixpoint set_insert (x : Z) (s : list Z) : list Z :=
  match s with
  | [] => [x]
  | y :: s' =>
      if x <? y then x :: s
      else if x =? y then s
      else y :: set_insert x s'
  end.

Module DominatorCalculator.

Record t : Type := mk {
  n_ : Z;
  node_info_ : list NodeInfo.t;
  ordering_ : list Z
}.

Definition set_n_ (x : Z) (c : t) : t := mk x (node_info_ c) (ordering_ c).
Definition set_node_info_ (x : list NodeInfo.t) (c : t) : t :=
  mk (n_ c) x (ordering_ c).
Definition set_ordering_ (x : list Z) (c : t) : t :=
  mk (n_ c) (node_info_ c) x.

(** Reading and writing [node_info_[v].field]; an index past the end of the
    vector is a [Fault]. *)
Definition rd {A : Type} (field : NodeInfo.t -> A) (v : Z) (c : t) : res A :=
  match node_info_ c !! Z.to_nat v with
  | Some i => Ok (field i)
  | None => Fault
  end.

Definition wr (upd : NodeInfo.t -> NodeInfo.t) (v : Z) (c : t) : res t :=
  match node_info_ c !! Z.to_nat v with
  | Some i => Ok (set_node_info_ (<[Z.to_nat v := upd i]> (node_info_ c)) c)
  | None => Fault
  end.

Definition Parent := rd NodeInfo.parent.
Definition Ancestor := rd NodeInfo.ancestor.
Definition Semi := rd NodeInfo.semi.
Definition Label := rd NodeInfo.label.
Definition Dom := rd NodeInfo.dom.
Definition Pred := rd NodeInfo.pred.
Definition Bucket := rd NodeInfo.bucket.

Definition Vertex (i : Z) (c : t) : res Z :=
  of_option (ordering_ c !! Z.to_nat i).

Definition set_Vertex (i x : Z) (c : t) : res t :=
  match ordering_ c !! Z.to_nat i with
  | Some _ => Ok (set_ordering_ (<[Z.to_nat i := x]> (ordering_ c)) c)
  | None => Fault
  end.

Section Graph.

(** The object store the [Object*]s point into. *)
Variable objects : gmap ptr Obj.t.

Fixpoint Initialize (fuel : nat) (pv : ptr) (c : t) : res t :=
  match fuel with
  | O => OutOfFuel
  | S fuel =>
      o ← of_option (objects !! pv);
      let v := Obj.id o in
      c ← wr (NodeInfo.set_node (Some pv)) v c;
      let c := set_n_ (wrap32 (n_ c + 1)) c in
      c ← wr (NodeInfo.set_semi (n_ c)) v c;
      c ← set_Vertex (n_ c) v c;
      c ← wr (NodeInfo.set_label v) v c;
      c ← wr (NodeInfo.set_ancestor 0) v c;
      foldM (fun target c =>
               t ← of_option (objects !! target);
               let w := Obj.id t in
               sw ← Semi w c;
               c ← (if sw =? 0
                    then c ← wr (NodeInfo.set_parent v) w c;
                         Initialize fuel target c
                    else Ok c);
               pw ← Pred w c;
               wr (NodeInfo.set_pred (set_insert v pw)) w c)
            (elements (Obj.refs o)) c
  end.

End Graph.

Definition Link (v w : Z) (c : t) : res t := wr (NodeInfo.set_ancestor v) w c.

Fixpoint Compress (fuel : nat) (v : Z) (c : t) : res t :=
  match fuel with
  | O => OutOfFuel
  | S fuel =>
      a ← Ancestor v c;
      aa ← Ancestor a c;
      if aa =? 0 then Ok c
      else
        c ← Compress fuel a c;
        a ← Ancestor v c;
        la ← Label a c;
        sla ← Semi la c;
        lv ← Label v c;
        slv ← Semi lv c;
        c ← (if sla <? slv then wr (NodeInfo.set_label la) v c else Ok c);
        a ← Ancestor v c;
        aa ← Ancestor a c;
        wr (NodeInfo.set_ancestor aa) v c
  end.

Definition Eval (fuel : nat) (v : Z) (c : t) : res (Z * t) :=
  a ← Ancestor v c;
  if a =? 0 then Ok (v, c)
  else
    c ← Compress fuel v c;
    l ← Label v c;
    Ok (l, c).

(** The body of the first loop of [CalculateDominators] at index [i]. *)
Definition semi_step (fuel : nat) (i : Z) (c : t) : res t :=
  w ← Vertex i c;
  ps ← Pred w c;
  c ← foldM (fun v c =>
               '(u, c) ← Eval fuel v c;
               su ← Semi u c;
               sw ← Semi w c;
               if su <? sw then wr (NodeInfo.set_semi su) w c else Ok c)
            ps c;
  sw ← Semi w c;
  vs ← Vertex sw c;
  bs ← Bucket vs c;
  c ← wr (NodeInfo.set_bucket (set_insert w bs)) vs c;
  pw ← Parent w c;
  c ← Link pw w c;
  pw ← Parent w c;
  bs ← Bucket pw c;
  foldM (fun v c =>
           '(u, c) ← Eval fuel v c;
           su ← Semi u c;
           sv ← Semi v c;
           pw ← Parent w c;
           wr (NodeInfo.set_dom (if su <? sv then u else pw)) v c)
        bs c.

(** [for (uint32_t i = start; i > 0; --i)], counting [i] down as a [nat]. *)
Fixpoint semi_loop (fuel : nat) (i : nat) (c : t) : res t :=
  match i with
  | O => Ok c
  | S i' => c ← semi_step fuel (Z.of_nat i) c; semi_loop fuel i' c
  end.

(** The body of the second loop at index [i]. *)
Definition dom_step (i : Z) (c : t) : res t :=
  w ← Vertex i c;
  dw ← Dom w c;
  sw ← Semi w c;
  vs ← Vertex sw c;
  if dw =? vs then Ok c
  else
    ddw ← Dom dw c;
    wr (NodeInfo.set_dom ddw) w c.

Definition CalculateDominators (fuel : nat) (objects : gmap ptr Obj.t)
           (pr : option ptr) (total : Z) : res t :=
  pr ← of_option pr;
  o ← of_option (objects !! pr);
  let r := Obj.id o in
  let c := mk 0 (replicate (Z.to_nat total) NodeInfo.zero)
              (replicate (Z.to_nat total) 0) in
  c ← Initialize objects fuel pr c;
  c ← semi_loop fuel (Z.to_nat (wrap32 (n_ c - 1))) c;
  (* for (uint32_t i = 1; i < n_; i++) *)
  c ← foldM dom_step (seqZ 1 (n_ c - 1)) c;
  wr (NodeInfo.set_dom 0) r c.

Definition Calculate (fuel : nat) (objects : gmap ptr Obj.t)
           (root : option ptr) (total : Z)
           (dominators : gmap ptr (option ptr))
  : res (gmap ptr (option ptr)) :=
  calculator ← CalculateDominators fuel objects root total;
  foldM (fun info dominators =>
           match NodeInfo.node info with
           | None => Ok dominators
           | Some n =>
               if NodeInfo.dom info =? 0 then Ok dominators
               else
                 d ← rd NodeInfo.node (NodeInfo.dom info) calculator;
                 Ok (<[n := d]> dominators)
           end)
        (node_info_ calculator) dominators.

End DominatorCalculator.

(** ** Weight propagation *)

Module Weights.

(** [objs] is the object store (only the weight fields change), [seen] the
    [std::set<Object*>* seen].  [visited] is not program state: it logs, in
    order, the activations that get past the [seen] guard. *)
Record state : Type := mk {
  objs : gmap ptr Obj.t;
  seen : gset ptr;
  visited : list ptr
}.

Definition set_objs (x : gmap ptr Obj.t) (st : state) : state :=
  mk x (seen st) (visited st).

Section CalculateWeights.

(** Addition on [size_t]; [CalculateWeights] below instantiates it with the
    wrapping sum. *)
Variable plus : Z -> Z -> Z.
Variable dominators : gmap ptr (option ptr).

(** [obj->weight = obj->size; obj->max_weight = obj->weight;] *)
Definition enter (obj : ptr) (st : state) : res state :=
  match objs st !! obj with
  | None => Fault
  | Some _ =>
      let objs1 :=
        alter (fun o => Obj.set_weight (Obj.size o) o) obj (objs st) in
      let objs2 :=
        alter (fun o => Obj.set_max_weight (Obj.weight o) o) obj objs1 in
      Ok (mk objs2 ({[obj]} ∪ seen st) (visited st ++ [obj]))
  end.

(** [obj->max_weight = std::max(obj->max_weight, target->max_weight);] *)
Definition merge_max (obj target : ptr) (st : state) : res state :=
  o ← of_option (objs st !! obj);
  t ← of_option (objs st !! target);
  Ok (set_objs
        (alter (Obj.set_max_weight
                  (Z.max (Obj.max_weight o) (Obj.max_weight t)))
               obj (objs st)) st).

(** [auto it = dominators.find(obj); if (it != end)
    it->second->weight += obj->weight;] *)
Definition credit (obj : ptr) (st : state) : res state :=
  match dominators !! obj with
  | None => Ok st
  | Some it_second =>
      d ← of_option it_second;
      od ← of_option (objs st !! d);
      o ← of_option (objs st !! obj);
      Ok (set_objs
            (alter (Obj.set_weight (plus (Obj.weight od) (Obj.weight o)))
                   d (objs st)) st)
  end.

Fixpoint run (fuel : nat) (obj : ptr) (st : state) : res state :=
  match fuel with
  | O => OutOfFuel
  | S fuel =>
      if decide (obj ∈ seen st) then Ok st
      else
        st ← enter obj st;
        o ← of_option (objs st !! obj);
        st ← foldM (fun target st =>
                      st ← run fuel target st;
                      merge_max obj target st)
                   (elements (Obj.refs o)) st;
        credit obj st
  end.

End CalculateWeights.

End Weights.

Definition plus64 (a b : Z) : Z := wrap64 (a + b).

Definition CalculateWeights (fuel : nat) (obj : ptr)
           (dominators : gmap ptr (option ptr)) (st : Weights.state)
  : res Weights.state :=
  Weights.run plus64 dominators fuel obj st.

(** ** Reachability *)

Module Garbage.

(** [garbage] and [stack] are the two out-parameters of [GC].  [visited] is
    not program state: it logs, in order, the activations that get past the
    [erase] guard. *)
Record state : Type := mk {
  garbage : gset ptr;
  stack : list ptr;
  visited : list ptr
}.

End Garbage.

Fixpoint GC (fuel : nat) (objects : gmap ptr Obj.t) (obj : ptr)
         (st : Garbage.state) : res Garbage.state :=
  match fuel with
  | O => OutOfFuel
  | S fuel =>
      if decide (obj ∈ Garbage.garbage st) then
        let st := Garbage.mk (Garbage.garbage st ∖ {[obj]})
                             (Garbage.stack st ++ [obj])
                             (Garbage.visited st ++ [obj]) in
        o ← of_option (objects !! obj);
        st ← foldM (GC fuel objects) (elements (Obj.refs o)) st;
        Ok (Garbage.mk (Garbage.garbage st)
                       (removelast (Garbage.stack st))
                       (Garbage.visited st))
      else Ok st
  end.

Fixpoint GCFiles (fuel : nat) (files : gmap string File.t) (file : string)
         (garbage : gset string) : res (gset string) :=
  match fuel with
  | O => OutOfFuel
  | S fuel =>
      if decide (file ∈ garbage) then
        f ← of_option (files !! file);
        foldM (GCFiles fuel files) (elements (File.refs f))
              (garbage ∖ {[file]})
      else Ok garbage
  end.

(** ** Reports *)

(** What [PrintGarbage] writes as numbers. *)
Record GarbageReport : Type := mkGarbageReport {
  total_files : option (nat * nat);
  total_objects : nat;
  garbage_objects : nat
}.

(** A report returns the error message it sent to [std::cerr], if any, and
    how it stopped; the counts [PrintGarbage] prints are returned as a
    record. *)
Definition PrintGarbage (fuel : nat) (p : Program)
  : list string * res GarbageReport :=
  let garbage := dom (objects_ p) in
  match entry_ p with
  | None =>
      (["Error: Can't calculate garbage without entry point."%string],
       Exit 1)
  | Some entry =>
      ([],
       st ← GC fuel (objects_ p) entry (Garbage.mk garbage [] []);
       e ← of_option (objects_ p !! entry);
       files ← match Obj.file e with
               | Some efile =>
                   g ← GCFiles fuel (files_ p) efile (dom (files_ p));
                   Ok (Some (size (files_ p), size g))
               | None => Ok None
               end;
       Ok (mkGarbageReport files (size (objects_ p))
                           (size (Garbage.garbage st))))
  end.

(** [PrintSymbolsByTransitiveWeight] up to and including
    [max_weight_ = entry_->max_weight]; the listing of the heaviest symbols
    and [graph.dot], which follow and do not change the program, are not
    modelled. *)
Definition PrintSymbolsByTransitiveWeight (fuel : nat) (p : Program)
  : list string * res Program :=
  let cerr :=
    match entry_ p with
    | None => ["Transitive weight graph requires entry point."%string]
    | Some _ => []
    end in
  (cerr,
   dominators ← DominatorCalculator.Calculate fuel (objects_ p) (entry_ p)
                                              (next_id_ p) ∅;
   entry ← of_option (entry_ p);
   st ← CalculateWeights fuel entry dominators
          (Weights.mk (objects_ p) ∅ []);
   e ← of_option (Weights.objs st !! entry);
   Ok (set_max_weight_ (Obj.max_weight e)
                       (set_objects (Weights.objs st) p))).

(** ** Concrete programs

    Built through the sink interface, with a demangler that leaves names
    that are not mangled as they are. *)

Definition no_mangling (s : string) : string := s.

Definition add (name : string) (vmaddr size : Z) (data : bool) (p : Program)
  : Program :=
  snd (AddObject no_mangling name vmaddr size data p).

(** Linear chain [A(10) -> B(20) -> C(30)], entry [A]. *)
Definition chain : Program :=
  SetEntryPoint (Some "A"%string)
    (AddRef "B" "C"
       (AddRef "A" "B"
          (add "C" 0x300 30 false
             (add "B" 0x200 20 false
                (add "A" 0x100 10 false Program_new))))).

(** Two routes [r -> p -> w] and [r -> n -> w], entry [r]. *)
Definition two_routes : Program :=
  SetEntryPoint (Some "r"%string)
    (AddRef "n" "w"
       (AddRef "r" "n"
          (AddRef "p" "w"
             (AddRef "r" "p"
                (add "n" 0x400 40 false
                   (add "w" 0x300 30 false
                      (add "p" 0x200 20 false
                         (add "r" 0x100 10 false Program_new)))))))).

(** The same graph with [q] for [p]; the model iterates [q] before [n],
    and [n] before [p]. *)
Definition two_routes_swapped : Program :=
  SetEntryPoint (Some "r"%string)
    (AddRef "n" "w"
       (AddRef "r" "n"
          (AddRef "q" "w"
             (AddRef "r" "q"
                (add "n" 0x400 40 false
                   (add "w" 0x300 30 false
                      (add "q" 0x200 20 false
                         (add "r" 0x100 10 false Program_new)))))))).

(** Linear chain [A(10) -> B(10) -> C(1)], entry [A]. *)
Definition light_tail : Program :=
  SetEntryPoint (Some "A"%string)
    (AddRef "B" "C"
       (AddRef "A" "B"
          (add "C" 0x300 1 false
             (add "B" 0x200 10 false
                (add "A" 0x100 10 false Program_new))))).

(** The symbols reachable from the entry point: what [GC] takes out of the
    set of all symbols. *)
Definition reachable (fuel : nat) (p : Program) : res (gset ptr) :=
  entry ← of_option (entry_ p);
  st ← GC fuel (objects_ p) entry (Garbage.mk (dom (objects_ p)) [] []);
  Ok (dom (objects_ p) ∖ Garbage.garbage st).

Definition size_of (objects : gmap ptr Obj.t) (s : ptr) : Z :=
  match objects !! s with
  | Some o => Obj.size o
  | None => 0
  end.

Definition sum_sizes (objects : gmap ptr Obj.t) (ss : list ptr) : Z :=
  foldr (fun s acc => size_of objects s + acc) 0 ss.

(** Dominators and one propagation pass from the entry point. *)
Definition weigh (fuel : nat) (p : Program) : res (gmap ptr Obj.t) :=
  dominators ← DominatorCalculator.Calculate fuel (objects_ p) (entry_ p)
                                             (next_id_ p) ∅;
  entry ← of_option (entry_ p);
  st ← CalculateWeights fuel entry dominators (Weights.mk (objects_ p) ∅ []);
  Ok (Weights.objs st).

(** The weight of [s] in the outcome of a propagation. *)
Definition weight_in (r : res (gmap ptr Obj.t)) (s : ptr) : option Z :=
  match r with
  | Ok objects => Obj.weight <$> objects !! s
  | _ => None
  end.

Definition max_weight_in (r : res (gmap ptr Obj.t)) (s : ptr) : option Z :=
  match r with
  | Ok objects => Obj.max_weight <$> objects !! s
  | _ => None
  end.

(** ** Re-adding a name *)

(** Two successive calls for one name leave the record and the total size
    as the first call made them. *)
Definition add_object_idempotent_at (Demangle : string -> string)
           (name : string) (a1 s1 : Z) (d1 : bool) (a2 s2 : Z) (d2 : bool)
           (p : Program) : Prop :=
  let first := AddObject Demangle name a1 s1 d1 p in
  let second := AddObject Demangle name a2 s2 d2 (snd first) in
  fst second = fst first /\
  (exists o1 o2,
      objects_ (snd first) !! fst first = Some o1 /\
      objects_ (snd second) !! fst second = Some o2 /\
      Obj.id o2 = Obj.id o1 /\
      Obj.vmaddr o2 = Obj.vmaddr o1 /\
      Obj.size o2 = Obj.size o1 /\
      Obj.data o2 = Obj.data o1) /\
  total_size_ (snd second) = total_size_ (snd first).

(** All the fields of a record but its pretty name. *)
Definition attrs (o : Obj.t) : Z * string * Z * Z * bool * option string
                               * gset ptr * Z * Z :=
  (Obj.id o, Obj.name o, Obj.vmaddr o, Obj.size o, Obj.data o, Obj.file o,
   Obj.refs o, Obj.weight o, Obj.max_weight o).

(** ** A data symbol whose size is not a multiple of the word size *)

(** Little-endian decoding of a word, as on x86-64. *)
Definition le_word (bytes : list Z) : Z :=
  foldr (fun b acc => b + 256 * acc) 0 bytes.

(** A 12-byte data symbol [V] at [0x1000], mapped to file offset 0, and two
    functions. *)
Definition odd_table : Program :=
  AddFileMapping 0x1000 0 0x100
    (add "F2" 0x3000 8 false
       (add "F1" 0x2000 8 false
          (add "V" 0x1000 12 true Program_new))).

(** Sixteen bytes: the words [0x2000] and [0x3000]. *)
Definition odd_table_file : list Z :=
  [0; 0x20; 0; 0; 0; 0; 0; 0; 0; 0x30; 0; 0; 0; 0; 0; 0].

(** The words the scanner hands to [TryAddRef] for one object. *)
Definition scanned_words (word_of_bytes : list Z -> Z) (contents : list Z)
           (obj : ptr) (p : Program) : option (list Z) :=
  match ScanObject word_of_bytes contents obj (contents, p, []) with
  | Ok (_, _, calls) => Some calls
  | _ => None
  end.

(** ** Pretty names after a run of additions *)

Section PrettyNames.

Variable Demangle : string -> string.

(** A run of [AddObject] calls, each given as [(name, (vmaddr, size, data))]. *)
Definition AddObjects (calls : list (string * (Z * Z * bool))) (p : Program)
  : Program :=
  foldl (fun p c => snd (AddObject Demangle c.1 c.2.1.1 c.2.1.2 c.2.2 p))
        p calls.

(** Whether the demangled name has a parameter list, and the stripped form of
    the demangled name. *)
Definition has_params (n : string) : bool :=
  fst (NameStripper.StripName (Demangle n)).
Definition stripped_form (n : string) : string :=
  snd (NameStripper.StripName (Demangle n)).

(** The collision rule over all the symbols of a program: a symbol that
    shares its stripped form with another one shows its demangled name, a
    symbol that is alone with its stripped form shows the stripped form. *)
Definition pretty_name_rule (p : Program) : Prop :=
  forall n o,
    objects_ p !! n = Some o ->
    ((exists n', n' <> n /\ n' ∈ dom (objects_ p) /\
                 stripped_form n' = stripped_form n) ->
     Obj.pretty_name o = Demangle n) /\
    ((forall n', n' ∈ dom (objects_ p) ->
                 stripped_form n' = stripped_form n -> n' = n) ->
     Obj.pretty_name o = stripped_form n).

(** The names among [ns] that were stripped to [s]. *)
Definition claimants (s : string) (ns : list string) : list string :=
  filter (fun n => has_params n = true /\ stripped_form n = s) ns.

Definition expected_pretty_name (ns : list string) (n : string) : string :=
  if has_params n then
    match claimants (stripped_form n) ns with
    | [_] => stripped_form n
    | _ => Demangle n
    end
  else Demangle n.

(** How the program stands after the names [ns] were added, each once. *)
Record names_inv (ns : list string) (p : Program) : Prop := mk_names_inv {
  inv_table : forall s,
    stripped_pretty_names_ p !! s
    = match claimants s ns with
      | [] => None
      | [q] => Some (Some q)
      | _ => Some None
      end;
  inv_objects : forall n,
    n ∈ ns ->
    exists o, objects_ p !! n = Some o /\ Obj.name o = n /\
              Obj.pretty_name o = expected_pretty_name ns n;
  inv_dom : forall n, n ∈ dom (objects_ p) <-> n ∈ ns
}.

End PrettyNames.

(** A variable [foo] and a function [foo(int)]. *)
Definition variable_and_function : list (string * (Z * Z * bool)) :=
  [("foo"%string, (0x100, 4, true)); ("foo(int)"%string, (0x200, 8, false))].

(** Scenario 6 of the specification: two overloads of [foo] and one [bar]. *)
Definition overloads : list (string * (Z * Z * bool)) :=
  [("foo(int)"%string, (0x100, 8, false));
   ("foo(double)"%string, (0x200, 8, false));
   ("bar(int)"%string, (0x300, 8, false))].

Definition pretty_name_in (p : Program) (n : string) : option string :=
  Obj.pretty_name <$> objects_ p !! n.

(** ** Vocabulary for the depth-first searches *)

(** What one activation of [GC] leaves behind: the garbage set shrinks, the
    stack is restored, and the activations logged are distinct symbols taken
    out of the garbage set. *)
Definition GC_post (st st' : Garbage.state) : Prop :=
  Garbage.garbage st' ⊆ Garbage.garbage st /\
  Garbage.stack st' = Garbage.stack st /\
  exists new,
    Garbage.visited st' = Garbage.visited st ++ new /\
    NoDup new /\
    forall x, x ∈ new -> x ∈ Garbage.garbage st /\ x ∉ Garbage.garbage st'.

(** All the fields of a record but its two weights. *)
Definition shape (o : Obj.t) : Z * string * string * Z * Z * bool
                               * option string * gset ptr :=
  (Obj.id o, Obj.name o, Obj.pretty_name o, Obj.vmaddr o, Obj.size o,
   Obj.data o, Obj.file o, Obj.refs o).

(** Every reference of every record points at a record. *)
Definition closed (objects : gmap ptr Obj.t) : Prop :=
  map_Forall (fun _ o => Obj.refs o ⊆ dom objects) objects.

(** Every value of the dominator map points at a record. *)
Definition valid_dominator (objects : gmap ptr Obj.t) (d : option ptr)
  : Prop :=
  match d with
  | Some q => q ∈ dom objects
  | None => False
  end.

#[global] Instance valid_dominator_dec (objects : gmap ptr Obj.t)
 (d : option ptr) : Decision (valid_dominator objects d).
Proof. destruct d; simpl; apply _. Defined.

Definition valid_dominators (dominators : gmap ptr (option ptr))
           (objects : gmap ptr Obj.t) : Prop :=
  map_Forall (fun _ d => valid_dominator objects d) dominators.

(** What one activation of the weight propagation leaves behind: only
    weights have changed, [seen] has grown, and the activations logged are
    distinct symbols that were not seen before. *)
Definition Weights_post (st st' : Weights.state) : Prop :=
  (forall p, shape <$> Weights.objs st' !! p = shape <$> Weights.objs st !! p)
  /\
  Weights.seen st ⊆ Weights.seen st' /\
  exists new,
    Weights.visited st' = Weights.visited st ++ new /\
    NoDup new /\
    forall x, x ∈ new -> (x ∉ Weights.seen st) /\ x ∈ Weights.seen st'.

(** A reference path in the graph. *)
Definition ref_edge (objects : gmap ptr Obj.t) (a b : ptr) : Prop :=
  match objects !! a with
  | Some o => b ∈ Obj.refs o
  | None => False
  end.

#[global] Instance ref_edge_dec (objects : gmap ptr Obj.t) (a b : ptr)
 : Decision (ref_edge objects a b).
Proof. unfold ref_edge. destruct (objects !! a); apply _. Defined.

Definition reaches (objects : gmap ptr Obj.t) : ptr -> ptr -> Prop :=
  rtc (ref_edge objects).

(** The state of the dominator calculator as the depth-first numbering sees
    it: the [semi] column of [node_info_]. *)
Definition semis (c : DominatorCalculator.t) : list Z :=
  NodeInfo.semi <$> DominatorCalculator.node_info_ c.

(** The number of slots not numbered yet. *)
Fixpoint count0 (l : list Z) : nat :=
  match l with
  | [] => O
  | s :: l' => if s =? 0 then S (count0 l') else count0 l'
  end.

(** The numbering built so far: [n_] slots are numbered, slot 0 never is,
    and [ordering_] lists the numbered slots, the [i]-th one carrying the
    number [i]. *)
Record numbering (total n : Z) (ordering : list Z) (semi : list Z) : Prop :=
  mk_numbering {
  num_semi_len : length semi = Z.to_nat total;
  num_ord_len : length ordering = Z.to_nat total;
  num_total : total <= 2 ^ 32;
  num_n : 0 <= n;
  num_count : n + Z.of_nat (count0 semi) = total;
  num_slot0 : semi !! O = Some 0;
  num_vertex : forall i : nat,
    (1 <= i)%nat -> Z.of_nat i <= n ->
    exists v, ordering !! i = Some v /\ 0 <= v /\
              semi !! Z.to_nat v = Some (Z.of_nat i)
}.

Definition Init_inv (total : Z) (c : DominatorCalculator.t) : Prop :=
  numbering total (DominatorCalculator.n_ c) (DominatorCalculator.ordering_ c)
            (semis c).

(** Every record has an id in [1, total). *)
Definition ids_in_range (total : Z) (objects : gmap ptr Obj.t) : Prop :=
  map_Forall (fun _ o => 1 <= Obj.id o < total) objects.

(** The calculator [CalculateDominators] starts [Initialize] from. *)
Definition fresh_calculator (total : Z) : DominatorCalculator.t :=
  DominatorCalculator.mk 0 (replicate (Z.to_nat total) NodeInfo.zero)
                         (replicate (Z.to_nat total) 0).

(** The vertices in the order [Initialize] numbered them:
    [Vertex(1) .. Vertex(n_)]. *)
Definition numbered (c : DominatorCalculator.t) : list Z :=
  take (Z.to_nat (DominatorCalculator.n_ c))
       (drop 1 (DominatorCalculator.ordering_ c)).

(** Scenario 3 of the specification with a self-edge added:
    [A(10) -> B(20) -> C(30) -> B] and [C -> C], entry [A]. *)
Definition cycle : Program :=
  SetEntryPoint (Some "A"%string)
    (AddRef "C" "C"
       (AddRef "C" "B"
          (AddRef "B" "C"
             (AddRef "A" "B"
                (add "C" 0x300 30 false
                   (add "B" 0x200 20 false
                      (add "A" 0x100 10 false Program_new))))))).

(** The dominators of the cycle. *)
Definition cycle_dominators : gmap ptr (option ptr) :=
  {["B"%string := Some "A"%string; "C"%string := Some "B"%string]}.

(** ** Vocabulary for the weights *)

(** Every symbol of [seen] outside [opened] has all its references in
    [seen]. *)
Definition children_seen (objects : gmap ptr Obj.t) (opened seen : gset ptr)
  : Prop :=
  forall x o, x ∈ seen -> x ∉ opened -> objects !! x = Some o ->
              Obj.refs o ⊆ seen.

(** Sizes and weights are [size_t] values. *)
Definition fits64 (objects : gmap ptr Obj.t) : Prop :=
  map_Forall (fun _ o => 0 <= Obj.size o < 2 ^ 64 /\
                         0 <= Obj.weight o < 2 ^ 64) objects.

(** The exact sums: the propagation with unbounded addition in place of the
    addition of [size_t]. *)
Definition exact_weights (fuel : nat) (obj : ptr)
           (dominators : gmap ptr (option ptr)) (st : Weights.state)
  : res Weights.state :=
  Weights.run Z.add dominators fuel obj st.

(** What the exact sums look like on 64 bits. *)
Definition wrap_weight (o : Obj.t) : Obj.t :=
  Obj.set_weight (wrap64 (Obj.weight o)) o.

Definition wrap_weights (st : Weights.state) : Weights.state :=
  Weights.mk (wrap_weight <$> Weights.objs st) (Weights.seen st)
             (Weights.visited st).

Definition res_map {A B : Type} (f : A -> B) (r : res A) : res B :=
  match r with
  | Ok a => Ok (f a)
  | Exit c => Exit c
  | Fault => Fault
  | OutOfFuel => OutOfFuel
  end.

(** What the propagation has established for the symbols seen so far, with
    exact sums. *)
Definition sizes_covered (st : Weights.state) : Prop :=
  (forall p o, Weights.objs st !! p = Some o -> 0 <= Obj.size o) /\
  forall s, s ∈ Weights.seen st ->
            exists o, Weights.objs st !! s = Some o /\
                      Obj.size o <= Obj.weight o /\
                      Obj.size o <= Obj.max_weight o.

(** The dominator map the calculator returns for [chain]. *)
Definition chain_dominators : gmap ptr (option ptr) :=
  {["B"%string := Some "A"%string]}.

(** The dominator map of [chain] as it should be: [B <- A] and [C <- B]. *)
Definition expected_chain_dominators : gmap ptr (option ptr) :=
  {["B"%string := Some "A"%string; "C"%string := Some "B"%string]}.

(** ** More of the program model *)

(** [StartsWith]: [haystack.compare(0, needle.length(), needle)] compares
    the first [needle.length()] characters of [haystack], or all of it when
    it is shorter, with [needle], and is zero when they are equal. *)
Definition StartsWith (haystack needle : string) : bool :=
  String.eqb (String.substring 0 (String.length needle) haystack) needle.

(** [Program::GetFile]: the record of [filename], created when there is
    none. *)
Definition GetFile (filename : string) (p : Program) : string * Program :=
  match files_ p !! filename with
  | Some _ => (filename, p)
  | None => (filename, set_files (<[filename := File.new filename]> (files_ p)) p)
  end.

Definition HasFiles (p : Program) : bool :=
  bool_decide (0 < size (files_ p))%nat.

(** ** Vocabulary for the range map *)

(** The keys of a range map, and what [std::map] guarantees about them. *)
Definition keys {T : Type} (m : RangeMap.t T) : list Z := m.*1.

Fixpoint strictly_ascending (ks : list Z) : Prop :=
  match ks with
  | [] => True
  | k :: ks' => Forall (Z.lt k) ks' /\ strictly_ascending ks'
  end.

Definition ascending {T : Type} (m : RangeMap.t T) : Prop :=
  strictly_ascending (keys m).

(** No key of [m] lies in the half-open interval [(lo, hi]]. *)
Definition no_key_within {T : Type} (lo hi : Z) (m : RangeMap.t T) : Prop :=
  Forall (fun k => ~ (lo < k <= hi)) (keys m).

#[global] Instance ascending_dec {T : Type} (m : RangeMap.t T)
 : Decision (ascending m).
Proof.
  unfold ascending. induction (keys m) as [|k ks IH]; simpl; apply _.
Defined.

#[global] Instance no_key_within_dec {T : Type} (lo hi : Z) (m : RangeMap.t T)
 : Decision (no_key_within lo hi m).
Proof. unfold no_key_within. apply _. Defined.

(** ** Vocabulary for reference insertion *)

(** The file of a symbol, when it has one. *)
Definition file_of (objects : gmap ptr Obj.t) (s : ptr) : option string :=
  objects !! s ≫= Obj.file.

(** A file-level reference. *)
Definition file_edge (files : gmap string File.t) (a b : string) : Prop :=
  match files !! a with
  | Some f => b ∈ File.refs f
  | None => False
  end.

(** What [TryAddRef] does on a hit, as one update of the program: the symbol
    edge, and the file edge when both ends have a file. *)
Definition add_edge (from to : ptr) (p : Program) : Program :=
  mkProgram (next_id_ p) (total_size_ p) (max_weight_ p)
            (match file_of (objects_ p) from, file_of (objects_ p) to with
             | Some ffile, Some tfile =>
                 alter (fun f => File.set_refs ({[tfile]} ∪ File.refs f) f)
                       ffile (files_ p)
             | _, _ => files_ p
             end)
            (alter (fun o => Obj.set_refs ({[to]} ∪ Obj.refs o) o)
                   from (objects_ p))
            (stripped_pretty_names_ p) (objects_by_addr_ p)
            (file_offsets_ p) (entry_ p).

(** ** Programs built through the sink interface *)

(** The programs that [AddObject], [AddRef] between existing symbols,
    [TryAddRef], [SetEntryPoint] at an existing symbol and [AddFileMapping]
    build from a fresh one; the index counts the [AddObject] calls. *)
Inductive built (Demangle : string -> string) : nat -> Program -> Prop :=
| built_new : built Demangle 0 Program_new
| built_AddObject (n : nat) (p : Program) (name : string) (vmaddr size : Z)
                  (data : bool) :
    built Demangle n p ->
    built Demangle (S n) (snd (AddObject Demangle name vmaddr size data p))
| built_AddRef (n : nat) (p : Program) (from to : ptr) :
    built Demangle n p ->
    to ∈ dom (objects_ p) ->
    built Demangle n (AddRef from to p)
| built_TryAddRef (n : nat) (p : Program) (from : option ptr) (vmaddr : Z) :
    built Demangle n p ->
    built Demangle n (TryAddRef from vmaddr p)
| built_SetEntryPoint (n : nat) (p : Program) (obj : ptr) :
    built Demangle n p ->
    obj ∈ dom (objects_ p) ->
    built Demangle n (SetEntryPoint (Some obj) p)
| built_AddFileMapping (n : nat) (p : Program) (vmaddr fileoff filesize : Z) :
    built Demangle n p ->
    built Demangle n (AddFileMapping vmaddr fileoff filesize p).

(** What such a program satisfies after [n] additions. *)
Record well_formed (n : nat) (p : Program) : Prop := mk_well_formed {
  wf_next_id : next_id_ p = 1 + Z.of_nat n;
  wf_ids : ids_in_range (next_id_ p) (objects_ p);
  wf_names : forall k o, objects_ p !! k = Some o -> Obj.name o = k;
  wf_ids_distinct : forall k1 k2 o1 o2,
    objects_ p !! k1 = Some o1 -> objects_ p !! k2 = Some o2 ->
    Obj.id o1 = Obj.id o2 -> k1 = k2;
  wf_closed : closed (objects_ p);
  wf_index : ascending (objects_by_addr_ p);
  wf_index_values : forall k v s,
    (k, (v, s)) ∈ objects_by_addr_ p -> v ∈ dom (objects_ p);
  wf_offsets : ascending (file_offsets_ p);
  wf_entry : forall e, entry_ p = Some e -> e ∈ dom (objects_ p)
}.

(** ** Vocabulary for what the collectors compute *)

(** Every symbol taken out of the garbage set whose activation is over has
    all its references taken out as well. *)
Definition GC_explored (objects : gmap ptr Obj.t) (st : Garbage.state)
  : Prop :=
  forall a b, a ∈ dom objects -> a ∉ Garbage.garbage st ->
              a ∉ Garbage.stack st -> ref_edge objects a b ->
              b ∉ Garbage.garbage st.

(** Every symbol taken out of the garbage set is reachable from [entry]. *)
Definition GC_live (objects : gmap ptr Obj.t) (entry : ptr)
           (st : Garbage.state) : Prop :=
  forall x, x ∈ dom objects -> x ∉ Garbage.garbage st ->
            reaches objects entry x.

(** The same for files; the activations that are still open are not part of
    the state of [GCFiles]. *)
Definition file_reaches (files : gmap string File.t) : string -> string -> Prop :=
  rtc (file_edge files).

Definition GCFiles_explored (files : gmap string File.t)
           (opened garbage : gset string) : Prop :=
  forall a b, a ∈ dom files -> a ∉ garbage -> a ∉ opened ->
              file_edge files a b -> b ∉ garbage.

Definition GCFiles_live (files : gmap string File.t) (entry : string)
           (garbage : gset string) : Prop :=
  forall x, x ∈ dom files -> x ∉ garbage -> file_reaches files entry x.

(** ** Vocabulary for the largest size below a symbol *)

Definition max_weight_of (st : Weights.state) (x : ptr) : option Z :=
  Obj.max_weight <$> Weights.objs st !! x.

(** The maximal weight of a seen symbol is the size of a symbol it
    reaches. *)
Definition max_weight_sound (objects : gmap ptr Obj.t) (st : Weights.state)
  : Prop :=
  forall x, x ∈ Weights.seen st ->
            exists s, reaches objects x s /\
                      max_weight_of st x = Some (size_of objects s).

(** Every seen symbol is reachable from [entry]. *)
Definition seen_live (objects : gmap ptr Obj.t) (entry : ptr)
           (st : Weights.state) : Prop :=
  forall x, x ∈ Weights.seen st -> reaches objects entry x.

(** ** Vocabulary for the scanner *)

(** The symbols [ParseVTables] scans: data symbols whose address has a file
    offset. *)
Definition scanned (p : Program) (s : ptr) : Prop :=
  exists o, objects_ p !! s = Some o /\ Obj.data o = true /\
            is_Some (TryGetFileOffset (Obj.vmaddr o) p).

(** [p'] is [p] with references added: nothing but the reference sets of
    symbols and files differs, no reference is lost, and every new symbol
    reference leads from one of [sources] to a symbol the address index
    yields. *)
Record refs_added (sources : ptr -> Prop) (p p' : Program) : Prop :=
  mk_refs_added {
  ra_next_id : next_id_ p' = next_id_ p;
  ra_total_size : total_size_ p' = total_size_ p;
  ra_max_weight : max_weight_ p' = max_weight_ p;
  ra_names : stripped_pretty_names_ p' = stripped_pretty_names_ p;
  ra_index : objects_by_addr_ p' = objects_by_addr_ p;
  ra_offsets : file_offsets_ p' = file_offsets_ p;
  ra_entry : entry_ p' = entry_ p;
  ra_objects : forall s, Obj.set_refs ∅ <$> objects_ p' !! s
                         = Obj.set_refs ∅ <$> objects_ p !! s;
  ra_files : forall f, File.set_refs ∅ <$> files_ p' !! f
                       = File.set_refs ∅ <$> files_ p !! f;
  ra_kept : forall a b, ref_edge (objects_ p) a b ->
                        ref_edge (objects_ p') a b;
  ra_files_kept : forall a b, file_edge (files_ p) a b ->
                              file_edge (files_ p') a b;
  ra_new : forall a b,
      ref_edge (objects_ p') a b ->
      ref_edge (objects_ p) a b \/
      (sources a /\
       exists addr, RangeMap.TryGet addr (objects_by_addr_ p) = Some b)
}.

(** How the scanner stops: it returns with references added, or it exits
    with status 1 on a short read. *)
Definition scan_outcome (sources : ptr -> Prop) (p : Program)
           (r : res (list Z * Program * list Z)) : Prop :=
  match r with
  | Ok (_, p', _) => refs_added sources p p'
  | Exit c => c = 1
  | _ => False
  end.

(** The sizes handed to a run of [AddObject] calls, summed. *)
Definition call_sizes (calls : list (string * (Z * Z * bool))) : Z :=
  foldr (fun c acc => c.2.1.2 + acc) 0 calls.

(** ** Vocabulary for the dominator calculator *)

(** Two more columns of [node_info_]. *)
Definition nodes (c : DominatorCalculator.t) : list (option ptr) :=
  NodeInfo.node <$> DominatorCalculator.node_info_ c.

Definition parents (c : DominatorCalculator.t) : list Z :=
  NodeInfo.parent <$> DominatorCalculator.node_info_ c.

(** A value that indexes [node_info_]: the null vertex 0, or the slot of a
    symbol the numbering has met. *)
Definition slot (total : Z) (ns : list (option ptr)) (x : Z) : Prop :=
  0 <= x < total /\
  (x = 0 \/ exists p, ns !! Z.to_nat x = Some (Some p)).

(** Every index a slot stores is a slot, and its number is below
    [total]. *)
Record info_typed (total : Z) (ns : list (option ptr)) (i : NodeInfo.t)
  : Prop := mk_info_typed {
  it_parent : slot total ns (NodeInfo.parent i);
  it_ancestor : slot total ns (NodeInfo.ancestor i);
  it_label : slot total ns (NodeInfo.label i);
  it_semi : 0 <= NodeInfo.semi i < total;
  it_dom : slot total ns (NodeInfo.dom i);
  it_pred : Forall (slot total ns) (NodeInfo.pred i);
  it_bucket : Forall (slot total ns) (NodeInfo.bucket i)
}.

Record typed (total : Z) (c : DominatorCalculator.t) : Prop := mk_typed {
  ty_info_len : length (DominatorCalculator.node_info_ c) = Z.to_nat total;
  ty_ord_len : length (DominatorCalculator.ordering_ c) = Z.to_nat total;
  ty_ord : Forall (slot total (nodes c)) (DominatorCalculator.ordering_ c);
  ty_info : Forall (info_typed total (nodes c))
                   (DominatorCalculator.node_info_ c)
}.

(** The forest of [ancestor] links goes down in [rank]. *)
Definition anc_ranked (rank : list Z) (c : DominatorCalculator.t) : Prop :=
  forall (i : nat) (info : NodeInfo.t),
    DominatorCalculator.node_info_ c !! i = Some info ->
    NodeInfo.ancestor info <> 0 ->
    exists ri ra,
      rank !! i = Some ri /\
      rank !! Z.to_nat (NodeInfo.ancestor info) = Some ra /\
      0 <= ra < ri.

(** A parent is numbered, and before its children. *)
Definition parent_ranked (c : DominatorCalculator.t) : Prop :=
  forall (i : nat) (info : NodeInfo.t),
    DominatorCalculator.node_info_ c !! i = Some info ->
    NodeInfo.parent info <> 0 ->
    exists rp,
      semis c !! Z.to_nat (NodeInfo.parent info) = Some rp /\
      0 < rp /\ (NodeInfo.semi info <> 0 -> rp < NodeInfo.semi info).

(** The symbol a slot records has the slot as its id and is reachable from
    [root]. *)
Definition node_sound (objects : gmap ptr Obj.t) (root : ptr)
           (c : DominatorCalculator.t) : Prop :=
  forall (i : nat) (p : ptr),
    nodes c !! i = Some (Some p) ->
    exists o, objects !! p = Some o /\ Z.to_nat (Obj.id o) = i /\
              reaches objects root p.

(** What the two loops of [CalculateDominators] keep of the calculator [c1]
    that [Initialize] leaves. *)
Record Loop (total : Z) (c1 c : DominatorCalculator.t) : Prop := mk_Loop {
  lp_typed : typed total c;
  lp_nodes : nodes c = nodes c1;
  lp_parents : parents c = parents c1;
  lp_ord : DominatorCalculator.ordering_ c = DominatorCalculator.ordering_ c1;
  lp_n : DominatorCalculator.n_ c = DominatorCalculator.n_ c1;
  lp_anc : anc_ranked (semis c1) c
}.

(** What [Initialize] builds besides the numbering: typed slots that record
    reachable symbols, parents numbered before their children, no ancestor
    link yet, no number above [n_], and a symbol in every numbered slot. *)
Record Init_ext (total : Z) (objects : gmap ptr Obj.t) (root : ptr)
       (c : DominatorCalculator.t) : Prop := mk_Init_ext {
  ie_typed : typed total c;
  ie_nodes : node_sound objects root c;
  ie_parent : parent_ranked c;
  ie_quiet : Forall (fun info => NodeInfo.ancestor info = 0)
                    (DominatorCalculator.node_info_ c);
  ie_below : Forall (fun s => 0 <= s <= DominatorCalculator.n_ c) (semis c);
  ie_numbered : forall (k : nat) (s : Z),
      semis c !! k = Some s -> s <> 0 ->
      exists p, nodes c !! k = Some (Some p)
}.

Definition Build (total : Z) (objects : gmap ptr Obj.t) (root : ptr)
           (c : DominatorCalculator.t) : Prop :=
  Init_inv total c /\ Init_ext total objects root c.

(** What every entry of the dominator map satisfies: a symbol other than
    the root, reachable from it, mapped to a symbol reachable from it. *)
Definition sound_dominators (objects : gmap ptr Obj.t) (root : ptr)
           (dominators : gmap ptr (option ptr)) : Prop :=
  forall s d, dominators !! s = Some d ->
              s <> root /\ reaches objects root s /\
              exists q, d = Some q /\ q ∈ dom objects /\
                        reaches objects root q.

(** * Properties *)

(** ** Range map *)

Module RangeMapFacts.

(** C5.  A symbol of size [0x10] at [0x100] is the only entry of the address
    index, and the lookup of [0x100 + 0x10], one past its last byte, still
    returns it: [TryGet] rejects an address only when it is greater than
    [key + size], so the interval it accepts is closed at the upper end. *)
Theorem lookup_one_past_the_end_hits :
  let p := add "s" 0x100 0x10 false Program_new in
  objects_by_addr_ p = [(0x100, ("s"%string, 0x10))] /\
  FindObjectByAddr 0x100 p = Some "s"%string /\
  FindObjectByAddr (0x100 + 0x10 - 1) p = Some "s"%string /\
  FindObjectByAddr (0x100 + 0x10) p = Some "s"%string /\
  FindObjectByAddr (0x100 + 0x10 + 1) p = None.
Proof. vm_compute. repeat split; reflexivity. Qed.

(** What [TryGet] accepts, in general: the entry found by the predecessor
    search is a hit exactly when [addr <= key + size] (the sum taken on 64
    bits). *)
Lemma TryGet_hit_iff {T : Type} (addr : Z) (m : RangeMap.t T) (v : T) :
  RangeMap.TryGet addr m = Some v <->
  exists key size,
    RangeMap.before_upper_bound addr m = Some (key, (v, size)) /\
    addr <= wrap64 (key + size).
Proof.
  unfold RangeMap.TryGet.
  destruct (RangeMap.before_upper_bound addr m) as [[key [val size]]|].
  - destruct (Z.ltb_spec (wrap64 (key + size)) addr) as [Hlt|Hge]; split.
    + discriminate.
    + intros (k & s & Heq & Hle). inversion Heq; subst. lia.
    + intros Heq. inversion Heq; subst. exists key, size. split; [done|lia].
    + intros (k & s & Heq & Hle). inversion Heq; subst. done.
  - split; [discriminate|]. intros (k & s & Heq & _). discriminate.
Qed.

End RangeMapFacts.

(** ** Reports without an entry point *)

(** C6.  With no entry point set, [PrintGarbage] writes its message and
    exits with status 1, but [PrintSymbolsByTransitiveWeight] only writes its
    message: it goes on to the dominator computation, which reads the id of
    the entry through the null pointer. *)
Theorem transitive_weight_report_proceeds_without_entry (fuel : nat) :
  PrintGarbage fuel Program_new =
    (["Error: Can't calculate garbage without entry point."%string], Exit 1)
  /\
  PrintSymbolsByTransitiveWeight fuel Program_new =
    (["Transitive weight graph requires entry point."%string], Fault).
Proof. split; reflexivity. Qed.

(** The same for every program without an entry point. *)
Lemma reports_without_entry (fuel : nat) (p : Program) :
  entry_ p = None ->
  snd (PrintGarbage fuel p) = Exit 1 /\
  snd (PrintSymbolsByTransitiveWeight fuel p) = Fault.
Proof.
  intros Hentry. unfold PrintGarbage, PrintSymbolsByTransitiveWeight.
  rewrite Hentry. split; reflexivity.
Qed.

(** ** Reference insertion *)

(** C10.  [TryAddRef] with a null [from] returns the program as it was, and
    so does [TryAddRef] from any symbol when the address index has no symbol
    at [vmaddr]: no symbol edge and no file edge is added. *)
Theorem TryAddRef_null_or_miss (vmaddr : Z) (p : Program) :
  TryAddRef None vmaddr p = p /\
  forall from : option ptr,
    RangeMap.TryGet vmaddr (objects_by_addr_ p) = None ->
    TryAddRef from vmaddr p = p.
Proof.
  split; [reflexivity|].
  intros [from|] Hmiss; [|reflexivity].
  unfold TryAddRef. by rewrite Hmiss.
Qed.

Lemma TryAddRef_null_or_miss_witness :
  TryAddRef None 0x300 chain = chain /\
  TryAddRef (Some "A"%string) 0xDEAD chain = chain.
Proof.
  split.
  - exact (proj1 (TryAddRef_null_or_miss 0x300 chain)).
  - apply (proj2 (TryAddRef_null_or_miss 0xDEAD chain)).
    vm_compute. reflexivity.
Defined.

(** ** Dominators and weights on concrete graphs *)

(** C2.  On the chain [A -> B -> C] with entry [A] the computed dominator map
    is [{B -> A}]: [C] is reachable and is not the root, yet it has no
    entry.  The first loop of [CalculateDominators] starts at [n_ - 1], and
    the vertex numbered [n_], the last one the depth-first search reached,
    is never processed. *)
Theorem chain_last_vertex_has_no_dominator :
  reachable 100 chain = Ok ({["A"; "B"; "C"]} : gset ptr)%string /\
  DominatorCalculator.Calculate 100 (objects_ chain) (entry_ chain)
                                (next_id_ chain) ∅
  = Ok ({["B"%string := Some "A"%string]} : gmap ptr (option ptr)).
Proof. split; vm_compute; reflexivity. Qed.

(** The skipped vertex also spoils the dominators of others: with the two
    routes [r -> p -> w] and [r -> n -> w] the map sends [w] to [n], which
    the route through [p] avoids.  Here the references of [r] are iterated
    as [n], [p], so that [p] is the vertex numbered last. *)
Lemma two_routes_dominator_off_path :
  elements (Obj.refs (default (Obj.new "") (objects_ two_routes !! "r"%string)))
  = ["n"; "p"]%string /\
  DominatorCalculator.Calculate 100 (objects_ two_routes) (entry_ two_routes)
                                (next_id_ two_routes) ∅
  = Ok ({["w"%string := Some "n"%string; "n"%string := Some "r"%string]}
        : gmap ptr (option ptr)).
Proof. split; vm_compute; reflexivity. Qed.

(** In the other iteration order, [q] before [n], it is [n] that is numbered
    last, and the map sends [w] to [q], which the route through [n]
    avoids. *)
Lemma two_routes_swapped_dominator_off_path :
  elements (Obj.refs (default (Obj.new "")
                              (objects_ two_routes_swapped !! "r"%string)))
  = ["q"; "n"]%string /\
  DominatorCalculator.Calculate 100 (objects_ two_routes_swapped)
                                (entry_ two_routes_swapped)
                                (next_id_ two_routes_swapped) ∅
  = Ok ({["w"%string := Some "q"%string; "q"%string := Some "r"%string]}
        : gmap ptr (option ptr)).
Proof. split; vm_compute; reflexivity. Qed.

(** C1.  On the chain [A(10) -> B(20) -> C(30)] with entry [A] all three
    symbols are reachable and their sizes add up to 60, but after the
    dominator computation and the propagation pass the weight of [A] is 30:
    [C] has no entry in the dominator map, so its 30 bytes are credited to
    nobody. *)
Theorem chain_weight_not_conserved :
  reachable 100 chain = Ok ({["A"; "B"; "C"]} : gset ptr)%string /\
  sum_sizes (objects_ chain) ["A"; "B"; "C"]%string = 60 /\
  weight_in (weigh 100 chain) "A" = Some 30 /\
  weight_in (weigh 100 chain) "B" = Some 20 /\
  weight_in (weigh 100 chain) "C" = Some 30.
Proof. repeat split; vm_compute; reflexivity. Qed.

(** ** Adding objects *)

Section AddObjectFacts.
Variable Demangle : string -> string.

Lemma AddObject_fst name a s d p : fst (AddObject Demangle name a s d p) = name.
Proof.
  unfold AddObject.
  destruct (NameStripper.StripName (Demangle name)) as [[] stripped];
    [destruct (stripped_pretty_names_ p !! stripped) as [[claimant|]|]|];
    reflexivity.
Qed.

Lemma AddObject_next_id name a s d p :
  next_id_ (snd (AddObject Demangle name a s d p)) = wrap32 (next_id_ p + 1).
Proof.
  unfold AddObject.
  destruct (NameStripper.StripName (Demangle name)) as [[] stripped];
    [destruct (stripped_pretty_names_ p !! stripped) as [[claimant|]|]|];
    reflexivity.
Qed.

Lemma AddObject_total_size name a s d p :
  total_size_ (snd (AddObject Demangle name a s d p))
  = wrap64 (total_size_ p + s).
Proof.
  unfold AddObject.
  destruct (NameStripper.StripName (Demangle name)) as [[] stripped];
    [destruct (stripped_pretty_names_ p !! stripped) as [[claimant|]|]|];
    reflexivity.
Qed.

Lemma attrs_set_pretty_name x o : attrs (Obj.set_pretty_name x o) = attrs o.
Proof. reflexivity. Qed.

Lemma lookup_alter_attrs (g : Obj.t -> Obj.t) k (m : gmap string Obj.t) n :
  (forall o, attrs (g o) = attrs o) ->
  attrs <$> alter g k m !! n = attrs <$> m !! n.
Proof.
  intros Hg. rewrite lookup_alter. case_decide; [subst|done].
  destruct (m !! n); simpl; [by rewrite Hg|done].
Qed.

(** The record at [name] after [AddObject]: the attributes of the call, the
    id the counter had, and the file and references the record had before
    (those of a fresh record when the name is new). *)
Lemma AddObject_attrs name a s d p :
  let old := default (Obj.new name) (objects_ p !! name) in
  attrs <$> objects_ (snd (AddObject Demangle name a s d p)) !! name
  = Some (next_id_ p, name, a, s, d, Obj.file old, Obj.refs old,
          Obj.weight old, Obj.max_weight old).
Proof.
  unfold AddObject.
  destruct (NameStripper.StripName (Demangle name)) as [[] stripped];
    [destruct (stripped_pretty_names_ p !! stripped) as [[claimant|]|]|];
    simpl; rewrite ?lookup_alter_attrs by done;
    rewrite lookup_alter_eq;
    destruct (objects_ p !! name) as [o|] eqn:Ho; simpl;
    rewrite ?Ho, ?lookup_insert_eq; reflexivity.
Qed.

Lemma AddObject_dom name a s d p :
  dom (objects_ (snd (AddObject Demangle name a s d p)))
  = {[name]} ∪ dom (objects_ p).
Proof.
  unfold AddObject.
  destruct (NameStripper.StripName (Demangle name)) as [[] stripped];
    [destruct (stripped_pretty_names_ p !! stripped) as [[claimant|]|]|];
    simpl; rewrite ?dom_alter_L;
    destruct (objects_ p !! name) as [o|] eqn:Ho;
    rewrite ?dom_insert_L; try done;
    apply elem_of_dom_2 in Ho; set_solver.
Qed.

End AddObjectFacts.

(** What the second of two calls for the name [f] leaves behind: the
    record carries the second call's id, address, size and data flag, and
    the total size counts both calls. *)
Lemma readd_values :
  let first := AddObject no_mangling "f" 0x100 10 false Program_new in
  let second := AddObject no_mangling "f" 0x200 20 true (snd first) in
  attrs <$> objects_ (snd first) !! "f"%string
  = Some (1, "f"%string, 0x100, 10, false, None, ∅, 0, 0) /\
  attrs <$> objects_ (snd second) !! "f"%string
  = Some (2, "f"%string, 0x200, 20, true, None, ∅, 0, 0) /\
  total_size_ (snd first) = 10 /\
  total_size_ (snd second) = 30.
Proof. vm_compute. repeat split; reflexivity. Qed.

(** C3, as stated, fails: adding [f] at [0x100] with size 10 and then again
    at [0x200] with size 20 changes the total size from 10 to 30 (and the
    record's id, address, size and data flag, see [readd_values]). *)
Lemma readd_not_idempotent :
  ~ add_object_idempotent_at no_mangling "f" 0x100 10 false 0x200 20 true
      Program_new.
Proof.
  intros (_ & _ & Htotal). vm_compute in Htotal. discriminate.
Qed.

(** C3, amended.  Two successive calls for one name return the same record
    and create no second one, but the second call overwrites: the record
    gets a fresh id and the address, size and data flag of the second call
    (its file and references stay), and the total size grows by the second
    size. *)
Theorem AddObject_again_overwrites (Demangle : string -> string)
        (name : string) (a1 s1 : Z) (d1 : bool) (a2 s2 : Z) (d2 : bool)
        (p : Program) :
  let first := AddObject Demangle name a1 s1 d1 p in
  let second := AddObject Demangle name a2 s2 d2 (snd first) in
  fst second = fst first /\
  dom (objects_ (snd second)) = dom (objects_ (snd first)) /\
  (exists o1 o2,
      objects_ (snd first) !! name = Some o1 /\
      objects_ (snd second) !! name = Some o2 /\
      Obj.id o1 = next_id_ p /\
      Obj.id o2 = wrap32 (next_id_ p + 1) /\
      Obj.vmaddr o2 = a2 /\ Obj.size o2 = s2 /\ Obj.data o2 = d2 /\
      Obj.name o2 = name /\
      Obj.file o2 = Obj.file o1 /\ Obj.refs o2 = Obj.refs o1) /\
  total_size_ (snd second) = wrap64 (total_size_ (snd first) + s2).
Proof.
  intros first second. subst first second.
  split; [by rewrite !AddObject_fst|].
  split.
  { rewrite !AddObject_dom. set_solver. }
  split; [|apply AddObject_total_size].
  pose proof (AddObject_attrs Demangle name a1 s1 d1 p) as H1.
  pose proof (AddObject_attrs Demangle name a2 s2 d2
                (snd (AddObject Demangle name a1 s1 d1 p))) as H2.
  simpl in H1, H2.
  destruct (objects_ (snd (AddObject Demangle name a1 s1 d1 p)) !! name)
    as [o1|] eqn:Ho1; [|discriminate].
  destruct (objects_ (snd (AddObject Demangle name a2 s2 d2 _)) !! name)
    as [o2|] eqn:Ho2; [|discriminate].
  simpl in H1, H2. rewrite AddObject_next_id in H2.
  exists o1, o2. unfold attrs in H1, H2.
  injection H1 as Hid1 _ _ _ _ Hfile1 Hrefs1 _ _.
  injection H2 as Hid2 Hname2 Ha2 Hs2 Hd2 Hfile2 Hrefs2 _ _.
  repeat split; congruence.
Qed.

(** ** VTable scanner *)

(** [TryAddRef] changes references only. *)
Lemma TryAddRef_size (from : option ptr) (vmaddr : Z) (p : Program) (n : ptr) :
  Obj.size <$> objects_ (TryAddRef from vmaddr p) !! n
  = Obj.size <$> objects_ p !! n.
Proof.
  assert (Halter : forall to f (m : gmap string Obj.t),
             Obj.size <$> alter (fun o => Obj.set_refs ({[to]} ∪ Obj.refs o) o)
                                f m !! n
             = Obj.size <$> m !! n).
  { intros to f m. rewrite lookup_alter. case_decide; [subst|done].
    by destruct (m !! n). }
  unfold TryAddRef. destruct from as [from|]; [|done].
  destruct (RangeMap.TryGet vmaddr (objects_by_addr_ p)) as [to|]; [|done].
  simpl.
  destruct (_ ≫= Obj.file) as [ffile|]; [|by apply Halter].
  destruct (_ ≫= Obj.file) as [tfile|]; by apply Halter.
Qed.

Section ScanFacts.
Variable word_of_bytes : list Z -> Z.

Lemma scan_words_unfold (obj : ptr) (i : Z) (rest : list Z) (p : Program)
      (calls : list Z) :
  scan_words word_of_bytes obj i rest p calls
  = match objects_ p !! obj with
    | None => Fault
    | Some o =>
        if i <? Obj.size o then
          match rest with
          | b0 :: b1 :: b2 :: b3 :: b4 :: b5 :: b6 :: b7 :: rest' =>
              let addr := word_of_bytes [b0; b1; b2; b3; b4; b5; b6; b7] in
              scan_words word_of_bytes obj (wrap64 (i + 8)) rest'
                         (TryAddRef (Some obj) addr p) (calls ++ [addr])
          | _ => Exit 1
          end
        else Ok (rest, p, calls)
    end.
Proof. destruct rest; reflexivity. Qed.


End ScanFacts.

(** The 12-byte symbol [V] is scanned as two words. *)
Lemma odd_table_two_words :
  Obj.size <$> objects_ odd_table !! "V"%string = Some 12 /\
  12 `div` 8 = 1 /\
  scanned_words le_word odd_table_file "V" odd_table = Some [0x2000; 0x3000].
Proof. vm_compute. repeat split; reflexivity. Qed.




(** ** Pretty names *)

Section PrettyNameFacts.
Variable Demangle : string -> string.

(** The claimants of [s] after one more name. *)
Lemma claimants_snoc (s : string) (ns : list string) (name : string) :
  claimants Demangle s (ns ++ [name])
  = claimants Demangle s ns
    ++ (if decide (has_params Demangle name = true /\
                   stripped_form Demangle name = s)
        then [name] else []).
Proof.
  unfold claimants. rewrite list.filter_app. reflexivity.
Qed.

Lemma elem_of_claimants (s : string) (ns : list string) (n : string) :
  n ∈ claimants Demangle s ns
  <-> (has_params Demangle n = true /\ stripped_form Demangle n = s) /\ n ∈ ns.
Proof. unfold claimants. by rewrite list_elem_of_filter. Qed.

(** A name of another stripped form, or without parameters, leaves the
    expected pretty names as they were. *)
Lemma expected_snoc_unrelated (ns : list string) (name n : string) :
  ~ (has_params Demangle name = true /\
     stripped_form Demangle name = stripped_form Demangle n) ->
  expected_pretty_name Demangle (ns ++ [name]) n
  = expected_pretty_name Demangle ns n.
Proof.
  intros Hno. unfold expected_pretty_name.
  rewrite claimants_snoc. rewrite decide_False by done.
  by rewrite app_nil_r.
Qed.

(** A second claimant of a stripped form sends the earlier ones back to
    their demangled names. *)
Lemma expected_snoc_collision (ns : list string) (name n : string) :
  n ∈ ns ->
  has_params Demangle n = true ->
  has_params Demangle name = true ->
  stripped_form Demangle name = stripped_form Demangle n ->
  expected_pretty_name Demangle (ns ++ [name]) n = Demangle n.
Proof.
  intros Hin Hn Hname Heq. unfold expected_pretty_name.
  rewrite Hn, claimants_snoc, decide_True by done.
  assert (n ∈ claimants Demangle (stripped_form Demangle n) ns) as Hcl
      by (by apply elem_of_claimants).
  destruct (claimants Demangle (stripped_form Demangle n) ns) as [|q [|q' l]];
    [by apply elem_of_nil in Hcl| |]; reflexivity.
Qed.

Lemma expected_self_alone (ns : list string) (name : string) :
  has_params Demangle name = true ->
  claimants Demangle (stripped_form Demangle name) ns = [] ->
  expected_pretty_name Demangle (ns ++ [name]) name
  = stripped_form Demangle name.
Proof.
  intros Hname Hcl. unfold expected_pretty_name.
  rewrite Hname, claimants_snoc, Hcl, decide_True by done. reflexivity.
Qed.

Lemma expected_self_collision (ns : list string) (name : string) :
  has_params Demangle name = true ->
  claimants Demangle (stripped_form Demangle name) ns <> [] ->
  expected_pretty_name Demangle (ns ++ [name]) name = Demangle name.
Proof.
  intros Hname Hcl. unfold expected_pretty_name.
  rewrite Hname, claimants_snoc, decide_True by done.
  destruct (claimants Demangle (stripped_form Demangle name) ns)
    as [|q [|q' l]]; [done| |]; reflexivity.
Qed.

Lemma expected_no_params (ns : list string) (n : string) :
  has_params Demangle n = false ->
  expected_pretty_name Demangle ns n = Demangle n.
Proof. intros Hn. unfold expected_pretty_name. by rewrite Hn. Qed.

(** A name that is not among the claimants of the new name's stripped form
    keeps its expected pretty name. *)
Lemma expected_snoc_not_claimant (ns : list string) (name n : string) :
  n ∈ ns ->
  n ∉ claimants Demangle (stripped_form Demangle name) ns ->
  expected_pretty_name Demangle (ns ++ [name]) n
  = expected_pretty_name Demangle ns n.
Proof.
  intros Hin Hnot.
  destruct (has_params Demangle n) eqn:Hn.
  - apply expected_snoc_unrelated. intros [_ Heq]. apply Hnot.
    by apply elem_of_claimants.
  - by rewrite !expected_no_params.
Qed.

(** One more call, for a name not added before, keeps the invariant. *)
Lemma AddObject_keeps_names_inv (ns : list string) (p : Program)
      (name : string) (a s : Z) (d : bool) :
  names_inv Demangle ns p ->
  name ∉ ns ->
  names_inv Demangle (ns ++ [name]) (snd (AddObject Demangle name a s d p)).
Proof.
  intros [Htable Hobjs Hdom] Hfresh.
  assert (objects_ p !! name = None) as Hnone.
  { apply not_elem_of_dom. by rewrite Hdom. }
  assert (forall n, n ∈ ns -> name <> n) as Hne by (intros n Hn ->; done).
  assert (forall n, n ∈ ns -> n <> name) as Hne' by (intros n Hn ->; done).
  assert (forall (m : gmap string Obj.t) n,
             n ∈ dom (<[name := Obj.new name]> m)
             <-> n ∈ dom m \/ n = name) as Hdom_insert.
  { intros m n. rewrite dom_insert_L. set_solver. }
  unfold AddObject. rewrite Hnone.
  destruct (NameStripper.StripName (Demangle name)) as [b st] eqn:Hstrip.
  assert (has_params Demangle name = b) as Hb
      by (unfold has_params; by rewrite Hstrip).
  assert (stripped_form Demangle name = st) as Hst
      by (unfold stripped_form; by rewrite Hstrip).
  destruct b.
  - pose proof (Htable st) as Hslot.
    destruct (stripped_pretty_names_ p !! st) as [[q|]|] eqn:Hlook; simpl.
    + (* one claimant so far: it is demoted *)
      destruct (claimants Demangle st ns) as [|q' [|q'' l]] eqn:Hcl;
        try discriminate.
      injection Hslot as ->.
      assert (q' ∈ claimants Demangle st ns) as Hq by (rewrite Hcl; set_solver).
      apply elem_of_claimants in Hq as [[Hqp Hqs] Hqin].
      destruct (Hobjs q' Hqin) as (oq & Hoq & Hoqn & Hoqp).
      split; simpl.
      * intros s'. rewrite claimants_snoc.
        destruct (decide (st = s')) as [<-|Hs'].
        -- rewrite lookup_insert_eq, Hcl, decide_True by done. reflexivity.
        -- rewrite lookup_insert_ne by done.
           rewrite decide_False by (intros [_ ?]; congruence).
           rewrite app_nil_r. apply Htable.
      * intros n [Hn| ->%list_elem_of_singleton]%elem_of_app.
        -- destruct (Hobjs n Hn) as (o & Ho & Hon & Hop).
           destruct (decide (n = q')) as [->|Hnq].
           ++ rewrite lookup_alter_eq, !lookup_alter_ne, lookup_insert_ne, Hoq
                by auto.
              eexists. split; [reflexivity|]. simpl. split; [done|].
              rewrite Hoqn. symmetry.
              apply expected_snoc_collision; congruence.
           ++ rewrite !lookup_alter_ne, lookup_insert_ne, Ho by auto.
              eexists. split; [reflexivity|]. split; [done|].
              rewrite Hop. symmetry. apply expected_snoc_not_claimant; [done|].
              rewrite Hst, Hcl. set_solver.
        -- rewrite lookup_alter_ne, !lookup_alter_eq, lookup_insert_eq by auto.
           eexists. split; [reflexivity|]. simpl. split; [done|].
           symmetry. apply expected_self_collision; [done|].
           by rewrite Hst, Hcl.
      * intros n. rewrite !dom_alter_L, Hdom_insert, Hdom, elem_of_app,
                    list_elem_of_singleton. tauto.
    + (* several claimants already *)
      destruct (claimants Demangle st ns) as [|q' [|q'' l]] eqn:Hcl;
        try discriminate.
      split; simpl.
      * intros s'. rewrite claimants_snoc.
        destruct (decide (st = s')) as [<-|Hs'].
        -- rewrite Hlook, Hcl, decide_True by done. reflexivity.
        -- rewrite decide_False by (intros [_ ?]; congruence).
           rewrite app_nil_r. apply Htable.
      * intros n [Hn| ->%list_elem_of_singleton]%elem_of_app.
        -- destruct (Hobjs n Hn) as (o & Ho & Hon & Hop).
           rewrite !lookup_alter_ne, lookup_insert_ne, Ho by auto.
           eexists. split; [reflexivity|]. split; [done|].
           rewrite Hop. symmetry.
           destruct (decide (n ∈ claimants Demangle st ns)) as [Hin|Hnot].
           ++ apply elem_of_claimants in Hin as [[Hnp Hns] _].
              rewrite expected_snoc_collision by congruence.
              unfold expected_pretty_name. by rewrite Hnp, Hns, Hcl.
           ++ apply expected_snoc_not_claimant; [done|by rewrite Hst].
        -- rewrite !lookup_alter_eq, lookup_insert_eq.
           eexists. split; [reflexivity|]. simpl. split; [done|].
           symmetry. apply expected_self_collision; [done|].
           by rewrite Hst, Hcl.
      * intros n. rewrite !dom_alter_L, Hdom_insert, Hdom, elem_of_app,
                    list_elem_of_singleton. tauto.
    + (* the first claimant of its stripped form *)
      destruct (claimants Demangle st ns) as [|q' [|q'' l]] eqn:Hcl;
        try discriminate.
      split; simpl.
      * intros s'. rewrite claimants_snoc.
        destruct (decide (st = s')) as [<-|Hs'].
        -- rewrite lookup_insert_eq, Hcl, decide_True by done. reflexivity.
        -- rewrite lookup_insert_ne by done.
           rewrite decide_False by (intros [_ ?]; congruence).
           rewrite app_nil_r. apply Htable.
      * intros n [Hn| ->%list_elem_of_singleton]%elem_of_app.
        -- destruct (Hobjs n Hn) as (o & Ho & Hon & Hop).
           rewrite !lookup_alter_ne, lookup_insert_ne, Ho by auto.
           eexists. split; [reflexivity|]. split; [done|].
           rewrite Hop. symmetry. apply expected_snoc_not_claimant; [done|].
           rewrite Hst, Hcl. set_solver.
        -- rewrite !lookup_alter_eq, lookup_insert_eq.
           eexists. split; [reflexivity|]. simpl. split; [done|].
           symmetry. rewrite <- Hst. apply expected_self_alone; [done|].
           by rewrite Hst.
      * intros n. rewrite !dom_alter_L, Hdom_insert, Hdom, elem_of_app,
                    list_elem_of_singleton. tauto.
  - (* no parameter list: the table is not consulted *)
    split; simpl.
    + intros s'. rewrite claimants_snoc.
      rewrite decide_False by (intros [? _]; congruence).
      rewrite app_nil_r. apply Htable.
    + intros n [Hn| ->%list_elem_of_singleton]%elem_of_app.
      * destruct (Hobjs n Hn) as (o & Ho & Hon & Hop).
        rewrite !lookup_alter_ne, lookup_insert_ne, Ho by auto.
        eexists. split; [reflexivity|]. split; [done|].
        rewrite Hop. symmetry. apply expected_snoc_unrelated.
        intros [? _]; congruence.
      * rewrite !lookup_alter_eq, lookup_insert_eq.
        eexists. split; [reflexivity|]. simpl. split; [done|].
        symmetry. by apply expected_no_params.
    + intros n. rewrite !dom_alter_L, Hdom_insert, Hdom, elem_of_app,
                  list_elem_of_singleton. tauto.
Qed.

Lemma names_inv_new : names_inv Demangle [] Program_new.
Proof.
  split.
  - intros s. reflexivity.
  - intros n Hn. by apply elem_of_nil in Hn.
  - intros n. simpl. rewrite dom_empty_L. set_solver.
Qed.

Lemma AddObjects_names_inv (calls : list (string * (Z * Z * bool))) :
  NoDup calls.*1 ->
  names_inv Demangle calls.*1 (AddObjects Demangle calls Program_new).
Proof.
  induction calls as [|c calls IH] using rev_ind; intros Hnodup.
  - apply names_inv_new.
  - rewrite fmap_app in *. simpl in *.
    apply list.NoDup_app in Hnodup as (Hcalls & Hfresh & _).
    unfold AddObjects. rewrite foldl_snoc.
    apply AddObject_keeps_names_inv; [by apply IH|].
    intros Hin. apply (Hfresh _ Hin). set_solver.
Qed.


(** C8, amended.  After a run of [AddObject] calls with pairwise distinct
    names on a fresh program, the symbols are the names added, and: a symbol
    whose demangled name has no parameter list shows its demangled name; a
    symbol whose demangled name has one shows its demangled name when another
    such symbol was stripped to the same form, and the stripped form when it
    is the only such symbol. *)
Theorem pretty_names_of_distinct_adds
        (calls : list (string * (Z * Z * bool))) :
  NoDup calls.*1 ->
  let p := AddObjects Demangle calls Program_new in
  (forall n, n ∈ dom (objects_ p) <-> n ∈ calls.*1) /\
  forall n,
    n ∈ calls.*1 ->
    exists o,
      objects_ p !! n = Some o /\
      (has_params Demangle n = false -> Obj.pretty_name o = Demangle n) /\
      (has_params Demangle n = true ->
       ((exists n', n' <> n /\ n' ∈ calls.*1 /\
                    has_params Demangle n' = true /\
                    stripped_form Demangle n' = stripped_form Demangle n) ->
        Obj.pretty_name o = Demangle n) /\
       ((forall n', n' ∈ calls.*1 ->
                    has_params Demangle n' = true ->
                    stripped_form Demangle n' = stripped_form Demangle n ->
                    n' = n) ->
        Obj.pretty_name o = stripped_form Demangle n)).
Proof.
  intros Hnodup p.
  destruct (AddObjects_names_inv calls Hnodup) as [_ Hobjs Hdom].
  split; [exact Hdom|].
  intros n Hn. destruct (Hobjs n Hn) as (o & Ho & _ & Hpretty).
  exists o. split; [exact Ho|]. rewrite Hpretty. split.
  - apply expected_no_params.
  - intros Hparams. unfold expected_pretty_name. rewrite Hparams.
    assert (n ∈ claimants Demangle (stripped_form Demangle n) calls.*1)
      as Hself by (by apply elem_of_claimants).
    assert (NoDup (claimants Demangle (stripped_form Demangle n) calls.*1))
      as Hcl by (by apply list.NoDup_filter).
    split.
    + intros (n' & Hne & Hn' & Hparams' & Hsame).
      assert (n' ∈ claimants Demangle (stripped_form Demangle n) calls.*1)
        as Hother by (by apply elem_of_claimants).
      destruct (claimants Demangle (stripped_form Demangle n) calls.*1)
        as [|x [|y l]]; [done| |done].
      apply list_elem_of_singleton in Hself, Hother. congruence.
    + intros Halone.
      assert (forall x,
                 x ∈ claimants Demangle (stripped_form Demangle n) calls.*1 ->
                 x = n) as Hall.
      { intros x [[Hx1 Hx2] Hx3]%elem_of_claimants. by apply Halone. }
      destruct (claimants Demangle (stripped_form Demangle n) calls.*1)
        as [|x [|y l]]; [by apply elem_of_nil in Hself|done|].
      exfalso. apply list.NoDup_cons in Hcl as [Hx _]. apply Hx.
      rewrite (Hall x), (Hall y) by set_solver. set_solver.
Qed.

End PrettyNameFacts.

(** Scenario 6: the two overloads of [foo] show their demangled names, the
    only [bar] shows its stripped form. *)
Lemma overloads_pretty_names :
  let p := AddObjects no_mangling overloads Program_new in
  pretty_name_in p "foo(int)" = Some "foo(int)"%string /\
  pretty_name_in p "foo(double)" = Some "foo(double)"%string /\
  pretty_name_in p "bar(int)" = Some "bar"%string.
Proof. vm_compute. repeat split; reflexivity. Qed.

Lemma pretty_names_of_distinct_adds_witness :
  let p := AddObjects no_mangling overloads Program_new in
  (forall n, n ∈ dom (objects_ p) <-> n ∈ overloads.*1) /\
  forall n,
    n ∈ overloads.*1 ->
    exists o,
      objects_ p !! n = Some o /\
      (has_params no_mangling n = false ->
       Obj.pretty_name o = no_mangling n) /\
      (has_params no_mangling n = true ->
       ((exists n', n' <> n /\ n' ∈ overloads.*1 /\
                    has_params no_mangling n' = true /\
                    stripped_form no_mangling n'
                    = stripped_form no_mangling n) ->
        Obj.pretty_name o = no_mangling n) /\
       ((forall n', n' ∈ overloads.*1 ->
                    has_params no_mangling n' = true ->
                    stripped_form no_mangling n'
                    = stripped_form no_mangling n ->
                    n' = n) ->
        Obj.pretty_name o = stripped_form no_mangling n)).
Proof.
  apply (pretty_names_of_distinct_adds no_mangling overloads).
  apply (bool_decide_unpack _). vm_compute. exact I.
Defined.

(** C8, as stated, fails: the variable [foo] and the function [foo(int)] are
    two symbols with the stripped form [foo], yet the function shows [foo]
    and not its demangled name.  A name without a parameter list is never
    entered into the table of stripped names, so it collides with nobody. *)
Lemma variable_and_function_share_pretty_name :
  ~ pretty_name_rule no_mangling
      (AddObjects no_mangling variable_and_function Program_new).
Proof.
  intros Hrule.
  set (p := AddObjects no_mangling variable_and_function Program_new) in *.
  set (o := default (Obj.new "") (objects_ p !! "foo(int)"%string)).
  assert (objects_ p !! "foo(int)"%string = Some o) as Ho
      by (vm_compute; reflexivity).
  destruct (Hrule _ _ Ho) as [Hshared _].
  assert (Obj.pretty_name o = "foo"%string) as Hpretty
      by (vm_compute; reflexivity).
  rewrite Hpretty in Hshared.
  assert ("foo"%string = no_mangling "foo(int)") as Habsurd; [|discriminate].
  apply Hshared. exists "foo"%string. split; [discriminate|]. split.
  - apply elem_of_dom. eexists. vm_compute. reflexivity.
  - vm_compute. reflexivity.
Qed.

(** Adding the one name [foo(int)] twice leaves a single symbol that shows
    its demangled name: the second call finds the first as the claimant of
    [foo] and demotes it. *)
Lemma readd_demotes_the_only_claimant :
  let p := AddObjects no_mangling
             [("foo(int)"%string, (0x100, 8, false));
              ("foo(int)"%string, (0x100, 8, false))] Program_new in
  dom (objects_ p) = {["foo(int)"%string]} /\
  pretty_name_in p "foo(int)" = Some "foo(int)"%string.
Proof. vm_compute. split; reflexivity. Qed.

(** ** Termination of the depth-first searches *)

Section GCFacts.
Variable objects : gmap ptr Obj.t.

Lemma GC_post_refl (st : Garbage.state) : GC_post st st.
Proof.
  split; [done|]. split; [done|]. exists []. rewrite app_nil_r.
  split; [done|]. split; [constructor|]. intros x Hx. by apply elem_of_nil in Hx.
Qed.

Lemma GC_post_trans (st1 st2 st3 : Garbage.state) :
  GC_post st1 st2 -> GC_post st2 st3 -> GC_post st1 st3.
Proof.
  intros (Hg1 & Hs1 & new1 & Hv1 & Hn1 & Hx1) (Hg2 & Hs2 & new2 & Hv2 & Hn2 & Hx2).
  split; [set_solver|]. split; [congruence|].
  exists (new1 ++ new2). split; [by rewrite Hv2, Hv1, app_assoc|].
  split.
  - apply list.NoDup_app. split; [done|]. split; [|done].
    intros x Hin1 Hin2. apply Hx1 in Hin1. apply Hx2 in Hin2. tauto.
  - intros x [Hin|Hin]%elem_of_app.
    + apply Hx1 in Hin. set_solver.
    + apply Hx2 in Hin. set_solver.
Qed.

(** With more fuel than garbage, [GC] returns. *)
Lemma GC_terminates (fuel : nat) :
  forall (obj : ptr) (st : Garbage.state),
    Garbage.garbage st ⊆ dom objects ->
    (size (Garbage.garbage st) < fuel)%nat ->
    exists st', GC fuel objects obj st = Ok st' /\ GC_post st st'.
Proof.
  induction fuel as [|fuel IH]; intros obj st Hdom Hfuel; [lia|].
  simpl. destruct (decide (obj ∈ Garbage.garbage st)) as [Hin|Hout].
  - assert (is_Some (objects !! obj)) as [o Ho]
        by (apply elem_of_dom; set_solver).
    rewrite Ho. simpl.
    set (st1 := Garbage.mk (Garbage.garbage st ∖ {[obj]})
                           (Garbage.stack st ++ [obj])
                           (Garbage.visited st ++ [obj])).
    assert (size (Garbage.garbage st1) < fuel)%nat as Hfuel1.
    { simpl. rewrite size_difference, size_singleton by set_solver.
      assert (size (Garbage.garbage st) <> 0%nat)
        by (apply size_non_empty_iff; set_solver).
      lia. }
    assert (forall children st2,
               GC_post st1 st2 ->
               exists st', foldM (GC fuel objects) children st2 = Ok st' /\
                           GC_post st1 st') as Hloop.
    { induction children as [|child children IHc]; intros st2 Hpost.
      - exists st2. split; [reflexivity|done].
      - destruct (IH child st2) as (st3 & Hrun & Hpost3).
        + destruct Hpost as (Hsub & _). simpl in Hsub. set_solver.
        + destruct Hpost as (Hsub & _).
          apply subseteq_size in Hsub. lia.
        + simpl. rewrite Hrun. simpl. apply IHc.
          by apply GC_post_trans with st2. }
    destruct (Hloop (elements (Obj.refs o)) st1 (GC_post_refl st1))
      as (st' & Hrun & Hsub & Hstack & new & Hvis & Hnodup & Hnew).
    rewrite Hrun. simpl. eexists. split; [reflexivity|].
    split; [simpl in *; set_solver|].
    split; [simpl; rewrite Hstack; simpl; apply removelast_last|].
    exists (obj :: new). simpl. split.
    { rewrite Hvis. simpl. by rewrite <- app_assoc. }
    split.
    + apply list.NoDup_cons. split; [|done].
      intros Hobj. apply Hnew in Hobj. simpl in Hobj. set_solver.
    + intros x [->|Hx]%elem_of_cons.
      * split; [done|]. simpl in Hsub. set_solver.
      * apply Hnew in Hx. simpl in Hx. set_solver.
  - exists st. split; [reflexivity|apply GC_post_refl].
Qed.

End GCFacts.

Section WeightsFacts.
Variable plus : Z -> Z -> Z.
Variable dominators : gmap ptr (option ptr).

Lemma Weights_post_refl (st : Weights.state) : Weights_post st st.
Proof.
  split; [done|]. split; [done|]. exists []. rewrite app_nil_r.
  split; [done|]. split; [constructor|]. intros x Hx. by apply elem_of_nil in Hx.
Qed.

Lemma Weights_post_trans (st1 st2 st3 : Weights.state) :
  Weights_post st1 st2 -> Weights_post st2 st3 -> Weights_post st1 st3.
Proof.
  intros (Hg1 & Hs1 & new1 & Hv1 & Hn1 & Hx1) (Hg2 & Hs2 & new2 & Hv2 & Hn2 & Hx2).
  split; [intros p; by rewrite Hg2, Hg1|]. split; [set_solver|].
  exists (new1 ++ new2). split; [by rewrite Hv2, Hv1, app_assoc|].
  split.
  - apply list.NoDup_app. split; [done|]. split; [|done].
    intros x Hin1 Hin2. apply Hx1 in Hin1. apply Hx2 in Hin2. tauto.
  - intros x [Hin|Hin]%elem_of_app.
    + apply Hx1 in Hin. set_solver.
    + apply Hx2 in Hin. set_solver.
Qed.

Lemma shape_dom (m m' : gmap ptr Obj.t) :
  (forall p, shape <$> m' !! p = shape <$> m !! p) -> dom m' = dom m.
Proof.
  intros Hshape. apply set_eq. intros p. rewrite !elem_of_dom.
  specialize (Hshape p).
  destruct (m' !! p), (m !! p); simpl in Hshape; try discriminate;
    split; intros [? ?]; try discriminate; eauto.
Qed.

Lemma shape_closed (m m' : gmap ptr Obj.t) :
  (forall p, shape <$> m' !! p = shape <$> m !! p) -> closed m -> closed m'.
Proof.
  intros Hshape Hclosed p o' Ho'. simpl.
  rewrite (shape_dom _ _ Hshape).
  pose proof (Hshape p) as Hp. rewrite Ho' in Hp.
  destruct (m !! p) as [o|] eqn:Ho; [|discriminate].
  apply Hclosed in Ho. simpl in *. injection Hp as _ _ _ _ _ _ _ Hrefs.
  by rewrite Hrefs.
Qed.

Lemma shape_valid_dominators (m m' : gmap ptr Obj.t) :
  (forall p, shape <$> m' !! p = shape <$> m !! p) ->
  valid_dominators dominators m -> valid_dominators dominators m'.
Proof.
  intros Hshape Hvalid k d Hd. pose proof (Hvalid k d Hd) as Hq.
  destruct d as [q|]; [|done]. simpl in *. by rewrite (shape_dom _ _ Hshape).
Qed.

(** A write to a weight field leaves the shape alone. *)
Lemma lookup_alter_shape (g : Obj.t -> Obj.t) k (m : gmap string Obj.t) p :
  (forall o, shape (g o) = shape o) ->
  shape <$> alter g k m !! p = shape <$> m !! p.
Proof.
  intros Hg. rewrite lookup_alter. case_decide; [subst|done].
  destruct (m !! p); simpl; [by rewrite Hg|done].
Qed.

Lemma enter_post (obj : ptr) (st : Weights.state) :
  obj ∈ dom (Weights.objs st) ->
  obj ∉ Weights.seen st ->
  exists st', Weights.enter obj st = Ok st' /\
              Weights.seen st' = {[obj]} ∪ Weights.seen st /\
              Weights_post st st'.
Proof.
  intros [o Ho]%elem_of_dom Hseen. unfold Weights.enter. rewrite Ho.
  eexists. split; [reflexivity|]. split; [reflexivity|]. split; [|split].
  - intros p. simpl. by rewrite !lookup_alter_shape.
  - simpl. set_solver.
  - exists [obj]. simpl. split; [done|]. split; [apply NoDup_singleton|].
    intros x ->%list_elem_of_singleton. set_solver.
Qed.

Lemma merge_max_post (obj target : ptr) (st : Weights.state) :
  obj ∈ dom (Weights.objs st) ->
  target ∈ dom (Weights.objs st) ->
  exists st', Weights.merge_max obj target st = Ok st' /\
              Weights.seen st' = Weights.seen st /\
              Weights_post st st'.
Proof.
  intros [o Ho]%elem_of_dom [t Ht]%elem_of_dom.
  unfold Weights.merge_max. rewrite Ho, Ht. simpl.
  eexists. split; [reflexivity|]. split; [reflexivity|]. split; [|split].
  - intros p. simpl. by rewrite lookup_alter_shape.
  - done.
  - exists []. simpl. rewrite app_nil_r. split; [done|].
    split; [constructor|]. intros x Hx. by apply elem_of_nil in Hx.
Qed.

Lemma credit_post (obj : ptr) (st : Weights.state) :
  obj ∈ dom (Weights.objs st) ->
  valid_dominators dominators (Weights.objs st) ->
  exists st', Weights.credit plus dominators obj st = Ok st' /\
              Weights.seen st' = Weights.seen st /\
              Weights_post st st'.
Proof.
  intros [o Ho]%elem_of_dom Hvalid. unfold Weights.credit.
  destruct (dominators !! obj) as [d|] eqn:Hd.
  - pose proof (Hvalid _ _ Hd) as Hq. destruct d as [q|]; [|done].
    simpl in Hq. apply elem_of_dom in Hq as [oq Hq].
    simpl. rewrite Hq, Ho. simpl.
    eexists. split; [reflexivity|]. split; [reflexivity|]. split; [|split].
    + intros p. simpl. by rewrite lookup_alter_shape.
    + done.
    + exists []. simpl. rewrite app_nil_r. split; [done|].
      split; [constructor|]. intros x Hx. by apply elem_of_nil in Hx.
  - exists st. split; [reflexivity|]. split; [reflexivity|].
    apply Weights_post_refl.
Qed.

(** With more fuel than unseen symbols, the propagation returns, in a closed
    graph and with a dominator map that points into it. *)
Lemma run_terminates (fuel : nat) :
  forall (obj : ptr) (st : Weights.state),
    closed (Weights.objs st) ->
    valid_dominators dominators (Weights.objs st) ->
    obj ∈ dom (Weights.objs st) ->
    (size (dom (Weights.objs st) ∖ Weights.seen st) < fuel)%nat ->
    exists st', Weights.run plus dominators fuel obj st = Ok st' /\
                obj ∈ Weights.seen st' /\
                Weights_post st st'.
Proof.
  induction fuel as [|fuel IH]; intros obj st Hclosed Hvalid Hobj Hfuel; [lia|].
  simpl. destruct (decide (obj ∈ Weights.seen st)) as [Hin|Hout].
  { exists st. split; [reflexivity|]. split; [done|apply Weights_post_refl]. }
  destruct (enter_post obj st Hobj Hout) as (st1 & Henter & Hseen1 & Hpost1).
  rewrite Henter. simpl.
  pose proof Hpost1 as (Hshape1 & _).
  pose proof (shape_dom _ _ Hshape1) as Hdom1.
  assert (is_Some (Weights.objs st1 !! obj)) as [o Ho]
      by (apply elem_of_dom; by rewrite Hdom1).
  rewrite Ho. simpl.
  assert (size (dom (Weights.objs st1) ∖ Weights.seen st1) < fuel)%nat
    as Hfuel1.
  { rewrite Hdom1, Hseen1.
    replace (dom (Weights.objs st) ∖ ({[obj]} ∪ Weights.seen st))
      with ((dom (Weights.objs st) ∖ Weights.seen st) ∖ {[obj]})
      by set_solver.
    rewrite size_difference, size_singleton by set_solver.
    assert (size (dom (Weights.objs st) ∖ Weights.seen st) <> 0%nat)
      by (apply size_non_empty_iff; set_solver).
    lia. }
  assert (forall children st2,
             (forall c, c ∈ children -> c ∈ dom (Weights.objs st)) ->
             Weights_post st1 st2 ->
             exists st', foldM (fun target st =>
                                  st ← Weights.run plus dominators fuel target st;
                                  Weights.merge_max obj target st)
                               children st2 = Ok st' /\
                         Weights_post st1 st') as Hloop.
  { induction children as [|child children IHc]; intros st2 Hchildren Hpost.
    - exists st2. split; [reflexivity|done].
    - pose proof Hpost as (Hshape2 & Hseen2 & _).
      pose proof (shape_dom _ _ Hshape2) as Hdom2.
      destruct (IH child st2) as (st3 & Hrun & _ & Hpost3).
      + apply (shape_closed (Weights.objs st1)); [done|].
        by apply (shape_closed (Weights.objs st)).
      + apply (shape_valid_dominators (Weights.objs st1)); [done|].
        by apply (shape_valid_dominators (Weights.objs st)).
      + rewrite Hdom2, Hdom1. apply Hchildren. set_solver.
      + rewrite Hdom2.
        assert (dom (Weights.objs st1) ∖ Weights.seen st2
                ⊆ dom (Weights.objs st1) ∖ Weights.seen st1) as Hsub
            by set_solver.
        apply subseteq_size in Hsub. lia.
      + pose proof Hpost3 as (Hshape3 & _).
        pose proof (shape_dom _ _ Hshape3) as Hdom3.
        destruct (merge_max_post obj child st3) as (st4 & Hmerge & _ & Hpost4).
        * by rewrite Hdom3, Hdom2, Hdom1.
        * rewrite Hdom3, Hdom2, Hdom1. apply Hchildren. set_solver.
        * simpl. rewrite Hrun. simpl. rewrite Hmerge. simpl.
          apply IHc; [set_solver|].
          apply Weights_post_trans with st2; [done|].
          by apply Weights_post_trans with st3. }
  destruct (Hloop (elements (Obj.refs o)) st1) as (st2 & Hrun & Hpost2).
  { intros c Hc%elem_of_elements.
    pose proof (Hshape1 obj) as Hs. rewrite Ho in Hs.
    destruct (Weights.objs st !! obj) as [o0|] eqn:Ho0; [|discriminate].
    injection Hs as _ _ _ _ _ _ _ Hrefs. apply Hclosed in Ho0. simpl in Ho0.
    set_solver. }
  { apply Weights_post_refl. }
  rewrite Hrun. simpl.
  pose proof Hpost2 as (Hshape2 & Hseen2 & _).
  pose proof (shape_dom _ _ Hshape2) as Hdom2.
  destruct (credit_post obj st2) as (st3 & Hcredit & Hseen3 & Hpost3).
  { by rewrite Hdom2, Hdom1. }
  { apply (shape_valid_dominators (Weights.objs st1)); [done|].
    by apply (shape_valid_dominators (Weights.objs st)). }
  exists st3. split; [done|]. split; [set_solver|].
  apply Weights_post_trans with st1; [done|].
  by apply Weights_post_trans with st2.
Qed.

End WeightsFacts.

Section InitializeFacts.
Variable objects : gmap ptr Obj.t.
Variable total : Z.
Hypothesis Hclosed : closed objects.
Hypothesis Hids : ids_in_range total objects.

(** Numbering a slot takes it out of the count. *)
Lemma count0_insert (l : list Z) (k : nat) (s : Z) :
  l !! k = Some 0 -> s <> 0 -> S (count0 (<[k := s]> l)) = count0 l.
Proof.
  revert k. induction l as [|x l IH]; intros k Hk Hs; [done|].
  destruct k as [|k]; simpl in *.
  - injection Hk as ->. simpl.
    destruct (Z.eqb_spec s 0); [done|reflexivity].
  - destruct (Z.eqb_spec x 0); by rewrite (IH k).
Qed.

Lemma count0_pos (l : list Z) (k : nat) :
  l !! k = Some 0 -> (1 <= count0 l)%nat.
Proof.
  intros Hk. rewrite <- (count0_insert l k 1 Hk) by done. lia.
Qed.

Lemma semis_lookup (c : DominatorCalculator.t) (k : nat) :
  semis c !! k = NodeInfo.semi <$> DominatorCalculator.node_info_ c !! k.
Proof. unfold semis. apply list_lookup_fmap. Qed.

Lemma semis_length (c : DominatorCalculator.t) :
  length (semis c) = length (DominatorCalculator.node_info_ c).
Proof. unfold semis. apply length_fmap. Qed.

(** A write that leaves [semi] alone leaves the numbering alone. *)
Lemma wr_keep (upd : NodeInfo.t -> NodeInfo.t) (v : Z)
      (c : DominatorCalculator.t) :
  (forall i, NodeInfo.semi (upd i) = NodeInfo.semi i) ->
  (Z.to_nat v < length (semis c))%nat ->
  exists c',
    DominatorCalculator.wr upd v c = Ok c' /\
    semis c' = semis c /\
    DominatorCalculator.n_ c' = DominatorCalculator.n_ c /\
    DominatorCalculator.ordering_ c' = DominatorCalculator.ordering_ c.
Proof.
  intros Hupd Hlt. rewrite semis_length in Hlt.
  destruct (lookup_lt_is_Some_2 _ _ Hlt) as [i Hi].
  unfold DominatorCalculator.wr. rewrite Hi.
  eexists. split; [reflexivity|]. split; [|done].
  unfold semis. simpl. rewrite list_fmap_insert, Hupd.
  apply list_insert_id. by rewrite list_lookup_fmap, Hi.
Qed.

Lemma wr_semi (x v : Z) (c : DominatorCalculator.t) :
  (Z.to_nat v < length (semis c))%nat ->
  exists c',
    DominatorCalculator.wr (NodeInfo.set_semi x) v c = Ok c' /\
    semis c' = <[Z.to_nat v := x]> (semis c) /\
    DominatorCalculator.n_ c' = DominatorCalculator.n_ c /\
    DominatorCalculator.ordering_ c' = DominatorCalculator.ordering_ c.
Proof.
  intros Hlt. rewrite semis_length in Hlt.
  destruct (lookup_lt_is_Some_2 _ _ Hlt) as [i Hi].
  unfold DominatorCalculator.wr. rewrite Hi.
  eexists. split; [reflexivity|]. split; [|done].
  unfold semis. simpl. by rewrite list_fmap_insert.
Qed.

Lemma rd_semi (v : Z) (c : DominatorCalculator.t) (s : Z) :
  semis c !! Z.to_nat v = Some s -> DominatorCalculator.Semi v c = Ok s.
Proof.
  rewrite semis_lookup. unfold DominatorCalculator.Semi, DominatorCalculator.rd.
  destruct (DominatorCalculator.node_info_ c !! Z.to_nat v); [|done].
  simpl. by intros [= ->].
Qed.

Lemma rd_in_range {A : Type} (field : NodeInfo.t -> A) (v : Z)
      (c : DominatorCalculator.t) :
  (Z.to_nat v < length (semis c))%nat ->
  exists x, DominatorCalculator.rd field v c = Ok x.
Proof.
  intros Hlt. rewrite semis_length in Hlt.
  destruct (lookup_lt_is_Some_2 _ _ Hlt) as [i Hi].
  unfold DominatorCalculator.rd. rewrite Hi. eauto.
Qed.

Lemma id_in_range (p : ptr) (o : Obj.t) (c : DominatorCalculator.t) :
  objects !! p = Some o -> Init_inv total c ->
  1 <= Obj.id o < total /\ (Z.to_nat (Obj.id o) < length (semis c))%nat.
Proof.
  intros Ho Hinv. pose proof (Hids _ _ Ho) as Hrange. simpl in Hrange.
  split; [done|]. rewrite (num_semi_len _ _ _ _ Hinv). lia.
Qed.

(** The first visit of a slot: it gets the next number. *)
Lemma numbering_mark (n v : Z) (ordering semi : list Z) :
  numbering total n ordering semi ->
  1 <= v < total ->
  semi !! Z.to_nat v = Some 0 ->
  n + 1 < total /\
  numbering total (n + 1) (<[Z.to_nat (n + 1) := v]> ordering)
            (<[Z.to_nat v := n + 1]> semi) /\
  S (count0 (<[Z.to_nat v := n + 1]> semi)) = count0 semi.
Proof.
  intros [Hsl Hol Htotal Hn Hcount Hslot0 Hvertex] Hv Hsemi.
  assert (S (count0 (<[Z.to_nat v := n + 1]> semi)) = count0 semi) as Hmark
      by (apply count0_insert; [done|lia]).
  assert (<[Z.to_nat v := n + 1]> semi !! O = Some 0) as Hslot0'.
  { rewrite list_lookup_insert_ne by lia. done. }
  pose proof (count0_pos _ _ Hslot0') as Hpos.
  assert (n + 1 < total) as Hroom by lia.
  split; [done|]. split; [|done].
  split.
  - by rewrite length_insert.
  - by rewrite length_insert.
  - done.
  - lia.
  - lia.
  - done.
  - intros i Hi Hle.
    destruct (decide (Z.of_nat i = n + 1)) as [Heq|Hne].
    + exists v. replace (Z.to_nat (n + 1)) with i by lia.
      rewrite !list_lookup_insert_eq by lia.
      split; [done|]. split; [lia|]. by rewrite Heq.
    + destruct (Hvertex i Hi) as (vi & Hord & Hvi & Hsi); [lia|].
      exists vi. rewrite list_lookup_insert_ne by lia.
      split; [done|]. split; [done|].
      rewrite list_lookup_insert_ne; [done|].
      intros Heq. rewrite <- Heq, Hsemi in Hsi. injection Hsi as Hsi. lia.
Qed.

(** With more fuel than unnumbered slots, [Initialize] returns and keeps
    the numbering. *)
Lemma Initialize_numbers (fuel : nat) :
  forall (pv : ptr) (o : Obj.t) (c : DominatorCalculator.t),
    Init_inv total c ->
    objects !! pv = Some o ->
    semis c !! Z.to_nat (Obj.id o) = Some 0 ->
    (count0 (semis c) < fuel)%nat ->
    exists c',
      DominatorCalculator.Initialize objects fuel pv c = Ok c' /\
      Init_inv total c' /\
      (count0 (semis c') < count0 (semis c))%nat.
Proof.
  induction fuel as [|fuel IH]; intros pv o c Hinv Ho Hsemi Hfuel; [lia|].
  destruct (id_in_range pv o c Ho Hinv) as [Hv Hlt].
  simpl. rewrite Ho. simpl.
  destruct (wr_keep (NodeInfo.set_node (Some pv)) (Obj.id o) c)
    as (c1 & -> & Hs1 & Hn1 & Ho1); [done|done|]. simpl.
  destruct (numbering_mark _ _ _ _ Hinv Hv Hsemi) as (Hroom & Hinv' & Hcount').
  pose proof (num_n _ _ _ _ Hinv) as Hn0.
  pose proof (num_total _ _ _ _ Hinv) as Htotal.
  assert (wrap32 (DominatorCalculator.n_ c1 + 1) = DominatorCalculator.n_ c + 1)
    as Hwrap.
  { rewrite Hn1. unfold wrap32. apply Z.mod_small. lia. }
  rewrite !Hwrap.
  set (c2 := DominatorCalculator.set_n_ _ c1).
  assert (DominatorCalculator.n_ c2 = DominatorCalculator.n_ c + 1) as Hn2
      by reflexivity.
  assert (semis c2 = semis c) as Hs2 by (subst c2; exact Hs1).
  assert (DominatorCalculator.ordering_ c2 = DominatorCalculator.ordering_ c)
    as Ho2 by (subst c2; exact Ho1).
  clearbody c2.
  destruct (wr_semi (DominatorCalculator.n_ c + 1) (Obj.id o) c2)
    as (c3 & -> & Hs3 & Hn3 & Ho3); [by rewrite Hs2|]. simpl.
  assert (is_Some (DominatorCalculator.ordering_ c3
                   !! Z.to_nat (DominatorCalculator.n_ c3))) as [x Hx].
  { apply lookup_lt_is_Some_2.
    rewrite Ho3, Ho2, Hn3, Hn2, (num_ord_len _ _ _ _ Hinv). lia. }
  unfold DominatorCalculator.set_Vertex at 1. rewrite Hx. simpl.
  set (c4 := DominatorCalculator.set_ordering_ _ c3).
  assert (Init_inv total c4) as Hinv4.
  { unfold Init_inv. subst c4. simpl.
    replace (semis (DominatorCalculator.set_ordering_
                      (<[Z.to_nat (DominatorCalculator.n_ c3) := Obj.id o]>
                         (DominatorCalculator.ordering_ c3)) c3))
      with (semis c3) by reflexivity.
    rewrite Hs3, Hs2, Ho3, Ho2, Hn3, Hn2. exact Hinv'. }
  assert (S (count0 (semis c4)) = count0 (semis c)) as Hcount4.
  { replace (semis c4) with (semis c3) by reflexivity.
    by rewrite Hs3, Hs2. }
  clearbody c4. clear dependent c1. clear dependent c2. clear dependent c3.
  assert (forall upd c5,
             (forall i, NodeInfo.semi (upd i) = NodeInfo.semi i) ->
             Init_inv total c5 ->
             forall w, 1 <= w < total ->
             exists c6, DominatorCalculator.wr upd w c5 = Ok c6 /\
                        Init_inv total c6 /\ semis c6 = semis c5) as Hkeep.
  { intros upd c5 Hupd Hinv5 w Hw.
    destruct (wr_keep upd w c5 Hupd) as (c6 & Hwr & Hs6 & Hn6 & Ho6).
    { rewrite (num_semi_len _ _ _ _ Hinv5). lia. }
    exists c6. split; [done|]. split; [|done].
    unfold Init_inv. by rewrite Hs6, Hn6, Ho6. }
  destruct (Hkeep (NodeInfo.set_label (Obj.id o)) c4) with (w := Obj.id o)
    as (c5 & -> & Hinv5 & Hs5); [done|done|done|]. simpl.
  destruct (Hkeep (NodeInfo.set_ancestor 0) c5) with (w := Obj.id o)
    as (c6 & -> & Hinv6 & Hs6); [done|done|done|]. simpl.
  assert (S (count0 (semis c6)) = count0 (semis c)) as Hcount6
      by (by rewrite Hs6, Hs5).
  clear dependent c4. clear dependent c5.
  assert (forall children c7,
             (forall t, t ∈ children -> t ∈ dom objects) ->
             Init_inv total c7 ->
             (count0 (semis c7) <= count0 (semis c6))%nat ->
             exists c',
               foldM (fun target c =>
                        t ← of_option (objects !! target);
                        let w := Obj.id t in
                        sw ← DominatorCalculator.Semi w c;
                        c ← (if sw =? 0
                             then c ← DominatorCalculator.wr
                                        (NodeInfo.set_parent (Obj.id o)) w c;
                                  DominatorCalculator.Initialize
                                    objects fuel target c
                             else Ok c);
                        pw ← DominatorCalculator.Pred w c;
                        DominatorCalculator.wr
                          (NodeInfo.set_pred (set_insert (Obj.id o) pw)) w c)
                     children c7 = Ok c' /\
               Init_inv total c' /\
               (count0 (semis c') <= count0 (semis c6))%nat) as Hloop.
  { induction children as [|child children IHc]; intros c7 Hch Hinv7 Hle.
    - exists c7. split; [reflexivity|done].
    - assert (is_Some (objects !! child)) as [t Ht]
          by (apply elem_of_dom, Hch; set_solver).
      destruct (id_in_range child t c7 Ht Hinv7) as [Hw Hwlt].
      destruct (lookup_lt_is_Some_2 _ _ Hwlt) as [sw Hsw].
      assert (exists c8,
                 (if sw =? 0
                  then c ← DominatorCalculator.wr
                             (NodeInfo.set_parent (Obj.id o)) (Obj.id t) c7;
                       DominatorCalculator.Initialize objects fuel child c
                  else Ok c7) = Ok c8 /\
                 Init_inv total c8 /\
                 (count0 (semis c8) <= count0 (semis c6))%nat)
        as (c8 & Hbody & Hinv8 & Hle8).
      { destruct (Z.eqb_spec sw 0) as [->|Hnz].
        - destruct (Hkeep (NodeInfo.set_parent (Obj.id o)) c7)
            with (w := Obj.id t) as (c7' & -> & Hinv7' & Hs7');
            [done|done|done|]. simpl.
          destruct (IH child t c7') as (c8 & Hrun & Hinv8 & Hlt8).
          + done.
          + done.
          + by rewrite Hs7'.
          + rewrite Hs7'. lia.
          + exists c8. split; [done|]. split; [done|]. rewrite Hs7' in Hlt8. lia.
        - exists c7. done. }
      simpl. rewrite Ht. simpl. rewrite (rd_semi _ _ _ Hsw). simpl.
      rewrite Hbody. simpl.
      destruct (rd_in_range NodeInfo.pred (Obj.id t) c8) as [pw Hpw].
      { rewrite (num_semi_len _ _ _ _ Hinv8). lia. }
      unfold DominatorCalculator.Pred. rewrite Hpw. simpl.
      destruct (Hkeep (NodeInfo.set_pred (set_insert (Obj.id o) pw)) c8)
        with (w := Obj.id t) as (c9 & -> & Hinv9 & Hs9); [done|done|done|].
      simpl. apply IHc; [set_solver|done|]. by rewrite Hs9. }
  destruct (Hloop (elements (Obj.refs o)) c6) as (c' & Hrun & Hinvc' & Hle').
  - intros t Ht%elem_of_elements. apply Hclosed in Ho. simpl in Ho. set_solver.
  - done.
  - done.
  - exists c'. split; [exact Hrun|]. split; [done|]. lia.
Qed.

End InitializeFacts.

Lemma count0_replicate (n : nat) : count0 (replicate n 0) = n.
Proof. induction n as [|n IH]; simpl; [done|by rewrite IH]. Qed.

Lemma fresh_calculator_inv (total : Z) :
  0 < total <= 2 ^ 32 -> Init_inv total (fresh_calculator total).
Proof.
  intros Htotal. unfold Init_inv, fresh_calculator, semis. simpl.
  rewrite fmap_replicate. simpl. split.
  - by rewrite length_replicate.
  - by rewrite length_replicate.
  - lia.
  - done.
  - rewrite count0_replicate. lia.
  - apply lookup_replicate. split; [done|lia].
  - intros i Hi Hle. lia.
Qed.

(** No vertex is numbered twice. *)
Lemma numbered_NoDup (total : Z) (c : DominatorCalculator.t) :
  Init_inv total c -> NoDup (numbered c).
Proof.
  intros Hinv. apply NoDup_alt. intros i j x Hi Hj.
  unfold numbered in *.
  apply lookup_take_Some in Hi as [Hi Hilt].
  apply lookup_take_Some in Hj as [Hj Hjlt].
  rewrite lookup_drop in Hi, Hj.
  destruct (num_vertex _ _ _ _ Hinv (1 + i)%nat) as (vi & Hvi & _ & Hsi);
    [lia| pose proof (num_n _ _ _ _ Hinv); lia|].
  destruct (num_vertex _ _ _ _ Hinv (1 + j)%nat) as (vj & Hvj & _ & Hsj);
    [lia| pose proof (num_n _ _ _ _ Hinv); lia|].
  rewrite Hi in Hvi. rewrite Hj in Hvj.
  injection Hvi as <-. injection Hvj as <-.
  rewrite Hsi in Hsj. injection Hsj as Hsj. lia.
Qed.

(** C9.  On every finite reference graph, cycles and self-edges included,
    each of the three depth-first searches returns once its fuel exceeds the
    number of symbols (of id slots, for [Initialize]), and none visits a
    symbol twice: the activations of [GC] and of [CalculateWeights] that get
    past the guard are pairwise distinct, and so are the vertices
    [Vertex(1) .. Vertex(n_)] that [Initialize] numbers.  [GC] starts from
    the set of all symbols, as [PrintGarbage] calls it; the other two need
    what the program guarantees when it calls them: references and
    dominators that point at symbols, and ids in [1, total) with
    [total <= 2^32]. *)
Theorem searches_terminate :
  (forall (objects : gmap ptr Obj.t) (fuel : nat) (entry : ptr),
      (size objects < fuel)%nat ->
      exists st',
        GC fuel objects entry (Garbage.mk (dom objects) [] []) = Ok st' /\
        NoDup (Garbage.visited st')) /\
  (forall (objects : gmap ptr Obj.t) (dominators : gmap ptr (option ptr))
          (fuel : nat) (entry : ptr),
      closed objects ->
      valid_dominators dominators objects ->
      entry ∈ dom objects ->
      (size objects < fuel)%nat ->
      exists st',
        CalculateWeights fuel entry dominators (Weights.mk objects ∅ [])
        = Ok st' /\
        NoDup (Weights.visited st')) /\
  (forall (objects : gmap ptr Obj.t) (total : Z) (fuel : nat) (root : ptr),
      closed objects ->
      ids_in_range total objects ->
      root ∈ dom objects ->
      total <= 2 ^ 32 ->
      (Z.to_nat total < fuel)%nat ->
      exists c',
        DominatorCalculator.Initialize objects fuel root
                                       (fresh_calculator total) = Ok c' /\
        NoDup (numbered c')).
Proof.
  split; [|split].
  - intros objects fuel entry Hfuel.
    destruct (GC_terminates objects fuel entry
                            (Garbage.mk (dom objects) [] []))
      as (st' & Hrun & _ & _ & new & Hvis & Hnodup & _).
    + done.
    + simpl. by rewrite size_dom.
    + exists st'. split; [done|]. by rewrite Hvis.
  - intros objects dominators fuel entry Hclosed Hvalid Hentry Hfuel.
    destruct (run_terminates plus64 dominators fuel entry
                             (Weights.mk objects ∅ []))
      as (st' & Hrun & _ & _ & _ & new & Hvis & Hnodup & _); try done.
    + simpl. rewrite difference_empty_L. by rewrite size_dom.
    + exists st'. split; [done|]. by rewrite Hvis.
  - intros objects total fuel root Hclosed Hids [o Ho]%elem_of_dom Htotal Hfuel.
    pose proof (Hids _ _ Ho) as Hid. simpl in Hid.
    assert (Init_inv total (fresh_calculator total)) as Hinv
        by (apply fresh_calculator_inv; lia).
    destruct (Initialize_numbers objects total Hclosed Hids fuel root o
                                 (fresh_calculator total))
      as (c' & Hrun & Hinv' & _); try done.
    + unfold fresh_calculator, semis. simpl. rewrite fmap_replicate.
      apply lookup_replicate. split; [done|lia].
    + unfold fresh_calculator, semis. simpl.
      rewrite fmap_replicate. simpl. by rewrite count0_replicate.
    + exists c'. split; [done|]. by apply (numbered_NoDup total).
Qed.

Ltac by_computation := apply (bool_decide_unpack _); vm_compute; exact I.

Lemma searches_terminate_witness :
  (exists st',
      GC 4 (objects_ cycle) "A"
         (Garbage.mk (dom (objects_ cycle)) [] []) = Ok st' /\
      NoDup (Garbage.visited st')) /\
  (exists st',
      CalculateWeights 4 "A" cycle_dominators
                       (Weights.mk (objects_ cycle) ∅ []) = Ok st' /\
      NoDup (Weights.visited st')) /\
  (exists c',
      DominatorCalculator.Initialize (objects_ cycle) 5 "A"
                                     (fresh_calculator 4) = Ok c' /\
      NoDup (numbered c')).
Proof.
  destruct searches_terminate as (HGC & HWeights & HInitialize).
  split; [|split].
  - apply HGC. by_computation.
  - apply HWeights; by_computation.
  - apply HInitialize; by_computation.
Defined.

(** On the cycle with its self-edge, [GC] visits [A], [B] and [C] once
    each. *)
Lemma cycle_visits :
  (Garbage.visited
     <$> (match GC 4 (objects_ cycle) "A"
                   (Garbage.mk (dom (objects_ cycle)) [] []) with
          | Ok st => Some st | _ => None end))
  = Some ["A"; "B"; "C"]%string.
Proof. vm_compute. reflexivity. Qed.

(** ** What the propagation computes *)

Section PropagationFacts.
Variable plus : Z -> Z -> Z.
Variable dominators : gmap ptr (option ptr).

Lemma enter_Ok (obj : ptr) (st st' : Weights.state) :
  Weights.enter obj st = Ok st' ->
  exists o,
    Weights.objs st !! obj = Some o /\
    Weights.objs st'
    = <[obj := Obj.set_max_weight (Obj.size o)
                 (Obj.set_weight (Obj.size o) o)]> (Weights.objs st) /\
    Weights.seen st' = {[obj]} ∪ Weights.seen st.
Proof.
  unfold Weights.enter. destruct (Weights.objs st !! obj) as [o|] eqn:Ho;
    [|discriminate].
  intros [= <-]. exists o. split; [done|]. split; [|done]. simpl.
  apply map_eq. intros p. destruct (decide (obj = p)) as [<-|Hne].
  - by rewrite !lookup_alter_eq, lookup_insert_eq, Ho.
  - by rewrite !lookup_alter_ne, lookup_insert_ne.
Qed.

Lemma merge_max_Ok (obj target : ptr) (st st' : Weights.state) :
  Weights.merge_max obj target st = Ok st' ->
  exists o t,
    Weights.objs st !! obj = Some o /\
    Weights.objs st !! target = Some t /\
    Weights.objs st'
    = <[obj := Obj.set_max_weight
                 (Z.max (Obj.max_weight o) (Obj.max_weight t)) o]>
        (Weights.objs st) /\
    Weights.seen st' = Weights.seen st.
Proof.
  unfold Weights.merge_max.
  destruct (Weights.objs st !! obj) as [o|] eqn:Ho; [|discriminate].
  destruct (Weights.objs st !! target) as [t|] eqn:Ht; [|discriminate].
  simpl. intros [= <-]. exists o, t. repeat split; try done. simpl.
  apply map_eq. intros p. destruct (decide (obj = p)) as [<-|Hne].
  - by rewrite lookup_alter_eq, lookup_insert_eq, Ho.
  - by rewrite lookup_alter_ne, lookup_insert_ne.
Qed.

Lemma credit_Ok (obj : ptr) (st st' : Weights.state) :
  Weights.credit plus dominators obj st = Ok st' ->
  Weights.seen st' = Weights.seen st /\
  ((dominators !! obj = None /\ st' = st) \/
   exists d od o,
     dominators !! obj = Some (Some d) /\
     Weights.objs st !! d = Some od /\
     Weights.objs st !! obj = Some o /\
     Weights.objs st'
     = <[d := Obj.set_weight (plus (Obj.weight od) (Obj.weight o)) od]>
         (Weights.objs st)).
Proof.
  unfold Weights.credit.
  destruct (dominators !! obj) as [[d|]|] eqn:Hd; simpl;
    [|discriminate|intros [= <-]; split; [done|by left]].
  destruct (Weights.objs st !! d) as [od|] eqn:Hod; [|discriminate].
  destruct (Weights.objs st !! obj) as [o|] eqn:Ho; [|discriminate].
  simpl. intros [= <-]. split; [done|]. right. exists d, od, o.
  repeat split; try done. simpl.
  apply map_eq. intros p. destruct (decide (d = p)) as [<-|Hne].
  - by rewrite lookup_alter_eq, lookup_insert_eq, Hod.
  - by rewrite lookup_alter_ne, lookup_insert_ne.
Qed.

(** A property of the state that every step of the propagation keeps is
    kept by a whole activation; the symbol being credited has been seen. *)
Lemma run_preserves (I : Weights.state -> Prop) :
  (forall obj st st',
      obj ∉ Weights.seen st -> Weights.enter obj st = Ok st' ->
      I st -> I st') ->
  (forall obj target st st',
      obj ∈ Weights.seen st -> Weights.merge_max obj target st = Ok st' ->
      I st -> I st') ->
  (forall obj st st',
      obj ∈ Weights.seen st ->
      Weights.credit plus dominators obj st = Ok st' ->
      I st -> I st') ->
  forall (fuel : nat) (obj : ptr) (st st' : Weights.state),
    Weights.run plus dominators fuel obj st = Ok st' ->
    I st -> I st' /\ Weights.seen st ⊆ Weights.seen st'.
Proof.
  intros Henter Hmerge Hcredit.
  induction fuel as [|fuel IH]; intros obj st st' Hrun HI; [discriminate|].
  simpl in Hrun. destruct (decide (obj ∈ Weights.seen st)) as [Hin|Hout].
  { injection Hrun as <-. done. }
  destruct (Weights.enter obj st) as [st1| | |] eqn:Hst1; try discriminate.
  simpl in Hrun.
  destruct (Weights.objs st1 !! obj) as [o|]; [|discriminate].
  simpl in Hrun.
  pose proof (Henter _ _ _ Hout Hst1 HI) as HI1.
  destruct (enter_Ok _ _ _ Hst1) as (_ & _ & _ & Hseen1).
  assert (forall children st2 st3,
             foldM (fun target st =>
                      st ← Weights.run plus dominators fuel target st;
                      Weights.merge_max obj target st)
                   children st2 = Ok st3 ->
             I st2 /\ Weights.seen st1 ⊆ Weights.seen st2 ->
             I st3 /\ Weights.seen st1 ⊆ Weights.seen st3) as Hloop.
  { induction children as [|child children IHc]; intros st2 st3 Hfold [HI2 Hs2].
    - injection Hfold as <-. done.
    - simpl in Hfold.
      destruct (Weights.run plus dominators fuel child st2)
        as [st2'| | |] eqn:Hchild; try discriminate.
      simpl in Hfold.
      destruct (Weights.merge_max obj child st2') as [st2''| | |] eqn:Hm;
        try discriminate.
      simpl in Hfold.
      destruct (IH _ _ _ Hchild HI2) as [HI2' Hs2'].
      destruct (merge_max_Ok _ _ _ _ Hm) as (_ & _ & _ & _ & _ & Hs2'').
      apply (IHc _ _ Hfold). split.
      + apply (Hmerge obj child st2'); [set_solver|done|done].
      + set_solver. }
  destruct (foldM _ _ st1) as [st2| | |] eqn:Hfold; try discriminate.
  simpl in Hrun.
  destruct (Hloop _ _ _ Hfold) as [HI2 Hs2]; [done|].
  destruct (credit_Ok _ _ _ Hrun) as [Hs3 _].
  split.
  - apply (Hcredit obj st2); [set_solver|done|done].
  - set_solver.
Qed.

Lemma enter_shape (obj : ptr) (st st' : Weights.state) :
  Weights.enter obj st = Ok st' ->
  forall p, shape <$> Weights.objs st' !! p = shape <$> Weights.objs st !! p.
Proof.
  intros (o & Ho & -> & _)%enter_Ok p.
  destruct (decide (obj = p)) as [<-|Hne].
  - by rewrite lookup_insert_eq, Ho.
  - by rewrite lookup_insert_ne.
Qed.

Lemma merge_max_shape (obj target : ptr) (st st' : Weights.state) :
  Weights.merge_max obj target st = Ok st' ->
  forall p, shape <$> Weights.objs st' !! p = shape <$> Weights.objs st !! p.
Proof.
  intros (o & ot & Ho & _ & -> & _)%merge_max_Ok p.
  destruct (decide (obj = p)) as [<-|Hne].
  - by rewrite lookup_insert_eq, Ho.
  - by rewrite lookup_insert_ne.
Qed.

Lemma credit_shape (obj : ptr) (st st' : Weights.state) :
  Weights.credit plus dominators obj st = Ok st' ->
  forall p, shape <$> Weights.objs st' !! p = shape <$> Weights.objs st !! p.
Proof.
  intros [_ [[_ ->]|(d & od & o & _ & Hod & _ & ->)]]%credit_Ok p; [done|].
  destruct (decide (d = p)) as [<-|Hne].
  - by rewrite lookup_insert_eq, Hod.
  - by rewrite lookup_insert_ne.
Qed.

(** Only weights change. *)
Lemma run_shape (fuel : nat) (obj : ptr) (st st' : Weights.state) :
  Weights.run plus dominators fuel obj st = Ok st' ->
  forall p, shape <$> Weights.objs st' !! p = shape <$> Weights.objs st !! p.
Proof.
  intros Hrun.
  apply (run_preserves
           (fun s => forall p, shape <$> Weights.objs s !! p
                               = shape <$> Weights.objs st !! p))
    with (fuel := fuel) (obj := obj) (st := st); [| | |done|done].
  - intros x s s' _ Hstep Hs p. rewrite <- Hs. by apply (enter_shape x).
  - intros x t s s' _ Hstep Hs p. rewrite <- Hs.
    by apply (merge_max_shape x t).
  - intros x s s' _ Hstep Hs p. rewrite <- Hs. by apply (credit_shape x).
Qed.

End PropagationFacts.

Section ExplorationFacts.
Variable plus : Z -> Z -> Z.
Variable dominators : gmap ptr (option ptr).
Variable objects : gmap ptr Obj.t.

(** An activation for [obj] returns with [obj] seen and, outside the symbols
    still open, with every seen symbol's references seen. *)
Lemma run_explores (fuel : nat) :
  forall (obj : ptr) (st st' : Weights.state) (opened : gset ptr),
    Weights.run plus dominators fuel obj st = Ok st' ->
    (forall p, shape <$> Weights.objs st !! p = shape <$> objects !! p) ->
    children_seen objects opened (Weights.seen st) ->
    children_seen objects opened (Weights.seen st') /\
    obj ∈ Weights.seen st'.
Proof.
  induction fuel as [|fuel IH]; intros obj st st' opened Hrun Hshape Hseen;
    [discriminate|].
  simpl in Hrun. destruct (decide (obj ∈ Weights.seen st)) as [Hin|Hout].
  { injection Hrun as <-. done. }
  destruct (Weights.enter obj st) as [st1| | |] eqn:Hst1; try discriminate.
  simpl in Hrun.
  destruct (Weights.objs st1 !! obj) as [o|] eqn:Ho; [|discriminate].
  simpl in Hrun.
  destruct (enter_Ok _ _ _ Hst1) as (o0 & Ho0 & Hobjs1 & Hseen1).
  assert (forall p, shape <$> Weights.objs st1 !! p = shape <$> objects !! p)
    as Hshape1.
  { intros p. rewrite <- Hshape, Hobjs1.
    destruct (decide (obj = p)) as [<-|Hne].
    - by rewrite lookup_insert_eq, Ho0.
    - by rewrite lookup_insert_ne. }
  assert (children_seen objects (opened ∪ {[obj]}) (Weights.seen st1))
    as Hopen1.
  { intros x ox Hx Hnot Hox. rewrite Hseen1 in *.
    assert (Obj.refs ox ⊆ Weights.seen st) by (apply (Hseen x); set_solver).
    set_solver. }
  assert (forall children st2 st3,
             foldM (fun target st =>
                      st ← Weights.run plus dominators fuel target st;
                      Weights.merge_max obj target st)
                   children st2 = Ok st3 ->
             (forall p, shape <$> Weights.objs st2 !! p
                        = shape <$> objects !! p) ->
             children_seen objects (opened ∪ {[obj]}) (Weights.seen st2) ->
             (forall p, shape <$> Weights.objs st3 !! p
                        = shape <$> objects !! p) /\
             children_seen objects (opened ∪ {[obj]}) (Weights.seen st3) /\
             Weights.seen st2 ⊆ Weights.seen st3 /\
             forall c, c ∈ children -> c ∈ Weights.seen st3) as Hloop.
  { induction children as [|child children IHc];
      intros st2 st3 Hfold Hshape2 Hopen2.
    - injection Hfold as <-. repeat split; try done.
      intros c Hc. by apply elem_of_nil in Hc.
    - simpl in Hfold.
      destruct (Weights.run plus dominators fuel child st2)
        as [st2'| | |] eqn:Hchild; try discriminate.
      simpl in Hfold.
      destruct (Weights.merge_max obj child st2') as [st2''| | |] eqn:Hm;
        try discriminate.
      simpl in Hfold.
      destruct (IH _ _ _ _ Hchild Hshape2 Hopen2) as [Hopen2' Hchild_seen].
      pose proof (run_shape _ _ _ _ _ _ Hchild) as Hsh2'.
      destruct (run_preserves plus dominators (fun _ => True)
                  ltac:(done) ltac:(done) ltac:(done) _ _ _ _ Hchild I)
        as [_ Hmono].
      destruct (merge_max_Ok _ _ _ _ Hm) as (om & ot & Hom & _ & Hobjs & Hs2'').
      destruct (IHc st2'' st3 Hfold) as (Hshape3 & Hopen3 & Hmono3 & Hall).
      + intros p. rewrite <- Hshape2, <- Hsh2', Hobjs.
        destruct (decide (obj = p)) as [<-|Hne].
        * by rewrite lookup_insert_eq, Hom.
        * by rewrite lookup_insert_ne.
      + by rewrite Hs2''.
      + split; [done|]. split; [done|]. split; [set_solver|].
        intros c [->|Hc]%elem_of_cons; [set_solver|by apply Hall]. }
  destruct (foldM _ _ st1) as [st2| | |] eqn:Hfold; try discriminate.
  simpl in Hrun.
  destruct (Hloop _ _ _ Hfold Hshape1 Hopen1)
    as (Hshape2 & Hopen2 & Hmono2 & Hall).
  destruct (credit_Ok _ _ _ _ _ Hrun) as [Hs3 _]. rewrite Hs3.
  split; [|set_solver].
  intros x ox Hx Hnot Hox. destruct (decide (x = obj)) as [->|Hne].
  - pose proof (Hshape1 obj) as Hsh. rewrite Ho, Hox in Hsh.
    injection Hsh as _ _ _ _ _ _ _ Hrefs. rewrite <- Hrefs.
    intros c Hc. apply Hall. by apply elem_of_elements.
  - apply (Hopen2 x); [done|set_solver|done].
Qed.

(** Every symbol the entry reaches has been seen when the propagation from
    the entry returns. *)
Lemma reachable_seen (fuel : nat) (entry s : ptr) (st' : Weights.state) :
  Weights.run plus dominators fuel entry (Weights.mk objects ∅ []) = Ok st' ->
  reaches objects entry s ->
  s ∈ Weights.seen st'.
Proof.
  intros Hrun Hreach.
  destruct (run_explores fuel entry _ st' ∅ Hrun) as [Hclosed Hentry].
  { done. }
  { intros x o Hx. set_solver. }
  clear Hrun. revert Hentry.
  induction Hreach as [|a b c Hedge _ IH]; intros Ha; [done|].
  unfold ref_edge in Hedge.
  destruct (objects !! a) as [o|] eqn:Ho; [|done].
  apply IH. apply (Hclosed a o Ha); [set_solver|done|done].
Qed.

End ExplorationFacts.

Section ExactWeights.
Variable dominators : gmap ptr (option ptr).

(** With exact sums, a seen symbol weighs at least its size, and so does
    its maximal weight. *)
Lemma exact_sizes_covered (fuel : nat) (obj : ptr) (st st' : Weights.state) :
  exact_weights fuel obj dominators st = Ok st' ->
  sizes_covered st -> sizes_covered st'.
Proof.
  intros Hrun Hst.
  apply (run_preserves Z.add dominators sizes_covered)
    with (fuel := fuel) (obj := obj) (st := st); [| | |done|done].
  - intros x s s' Hx (o & Ho & Hobjs & Hseen)%enter_Ok [Hsize Hcov].
    split.
    + intros p op. rewrite Hobjs.
      destruct (decide (x = p)) as [<-|Hne].
      * rewrite lookup_insert_eq. intros [= <-]. simpl. by apply (Hsize x).
      * rewrite lookup_insert_ne by done. apply Hsize.
    + intros y. rewrite Hseen, Hobjs.
      destruct (decide (x = y)) as [<-|Hne].
      * intros _. rewrite lookup_insert_eq. eexists. split; [done|].
        simpl. lia.
      * intros Hy. rewrite lookup_insert_ne by done. apply Hcov. set_solver.
  - intros x t s s' Hx (o & ot & Ho & Hot & Hobjs & Hseen)%merge_max_Ok
           [Hsize Hcov].
    split.
    + intros p op. rewrite Hobjs.
      destruct (decide (x = p)) as [<-|Hne].
      * rewrite lookup_insert_eq. intros [= <-]. simpl. by apply (Hsize x).
      * rewrite lookup_insert_ne by done. apply Hsize.
    + intros y. rewrite Hseen, Hobjs. intros Hy.
      destruct (decide (x = y)) as [<-|Hne].
      * rewrite lookup_insert_eq. eexists. split; [done|]. simpl.
        destruct (Hcov x Hy) as (o' & Ho' & Hw & Hm).
        rewrite Ho in Ho'. injection Ho' as <-. lia.
      * rewrite lookup_insert_ne by done. by apply Hcov.
  - intros x s s' Hx
           [Hseen [[_ ->]|(d & od & o & _ & Hod & Ho & Hobjs)]]%credit_Ok
           [Hsize Hcov]; [done|].
    split.
    + intros p op. rewrite Hobjs.
      destruct (decide (d = p)) as [<-|Hne].
      * rewrite lookup_insert_eq. intros [= <-]. simpl. by apply (Hsize d).
      * rewrite lookup_insert_ne by done. apply Hsize.
    + intros y. rewrite Hseen, Hobjs. intros Hy.
      destruct (decide (d = y)) as [<-|Hne].
      * rewrite lookup_insert_eq. eexists. split; [done|]. simpl.
        destruct (Hcov d Hy) as (od' & Hod' & Hw & Hm).
        rewrite Hod in Hod'. injection Hod' as <-.
        destruct (Hcov x Hx) as (o' & Ho' & Hwx & _).
        rewrite Ho in Ho'. injection Ho' as <-.
        pose proof (Hsize x o Ho). lia.
      * rewrite lookup_insert_ne by done. by apply Hcov.
Qed.

End ExactWeights.

Section WrappedWeights.
Variable dominators : gmap ptr (option ptr).
Variable objects : gmap ptr Obj.t.
Hypothesis Hfits : fits64 objects.

Lemma wrap_weights_lookup (st : Weights.state) (p : ptr) :
  Weights.objs (wrap_weights st) !! p = wrap_weight <$> Weights.objs st !! p.
Proof. unfold wrap_weights. simpl. apply lookup_fmap. Qed.

Lemma shape_size (st : Weights.state) (p : ptr) (o : Obj.t) :
  (forall q, shape <$> Weights.objs st !! q = shape <$> objects !! q) ->
  Weights.objs st !! p = Some o ->
  0 <= Obj.size o < 2 ^ 64.
Proof.
  intros Hshape Ho. specialize (Hshape p). rewrite Ho in Hshape.
  destruct (objects !! p) as [o0|] eqn:Ho0; [|discriminate].
  injection Hshape as _ _ _ _ Hsize _ _ _. rewrite Hsize.
  by apply (Hfits p o0).
Qed.

Lemma enter_wrap (obj : ptr) (st : Weights.state) :
  (forall q, shape <$> Weights.objs st !! q = shape <$> objects !! q) ->
  Weights.enter obj (wrap_weights st)
  = res_map wrap_weights (Weights.enter obj st).
Proof.
  intros Hshape. unfold Weights.enter. rewrite wrap_weights_lookup.
  destruct (Weights.objs st !! obj) as [o|] eqn:Ho; [|done]. simpl.
  unfold wrap_weights, Weights.set_objs. simpl. do 2 f_equal.
  apply map_eq. intros p. rewrite lookup_fmap.
  destruct (decide (obj = p)) as [<-|Hne].
  - rewrite !lookup_alter_eq, lookup_fmap, Ho. simpl. f_equal.
    pose proof (shape_size st obj o Hshape Ho) as Hsize.
    destruct o. unfold wrap_weight, Obj.set_weight, Obj.set_max_weight.
    simpl in *. f_equal. unfold wrap64. symmetry. by apply Z.mod_small.
  - by rewrite !lookup_alter_ne, lookup_fmap.
Qed.

Lemma merge_max_wrap (obj target : ptr) (st : Weights.state) :
  Weights.merge_max obj target (wrap_weights st)
  = res_map wrap_weights (Weights.merge_max obj target st).
Proof.
  unfold Weights.merge_max. rewrite !wrap_weights_lookup.
  destruct (Weights.objs st !! obj) as [o|] eqn:Ho; [|done]. simpl.
  destruct (Weights.objs st !! target) as [t|] eqn:Ht; [|done]. simpl.
  unfold wrap_weights, Weights.set_objs. simpl. do 2 f_equal.
  apply map_eq. intros p. rewrite lookup_fmap.
  destruct (decide (obj = p)) as [<-|Hne].
  - by rewrite !lookup_alter_eq, lookup_fmap, Ho.
  - by rewrite !lookup_alter_ne, lookup_fmap.
Qed.

Lemma credit_wrap (obj : ptr) (st : Weights.state) :
  Weights.credit plus64 dominators obj (wrap_weights st)
  = res_map wrap_weights (Weights.credit Z.add dominators obj st).
Proof.
  unfold Weights.credit.
  destruct (dominators !! obj) as [[d|]|]; [|done|done]. simpl.
  rewrite !lookup_fmap.
  destruct (Weights.objs st !! d) as [od|] eqn:Hod; [|done]. simpl.
  destruct (Weights.objs st !! obj) as [o|] eqn:Ho; [|done]. simpl.
  unfold wrap_weights, Weights.set_objs. simpl. do 2 f_equal.
  apply map_eq. intros p. rewrite lookup_fmap.
  destruct (decide (d = p)) as [<-|Hne].
  - rewrite !lookup_alter_eq, lookup_fmap, Hod. simpl. f_equal.
    unfold wrap_weight, plus64, wrap64, Obj.set_weight. destruct od. simpl.
    f_equal. symmetry. apply Z.add_mod. lia.
  - by rewrite !lookup_alter_ne, lookup_fmap.
Qed.

(** The propagation on 64 bits computes the exact sums modulo [2^64]. *)
Lemma run_wrap (fuel : nat) :
  forall (obj : ptr) (st : Weights.state),
    (forall q, shape <$> Weights.objs st !! q = shape <$> objects !! q) ->
    Weights.run plus64 dominators fuel obj (wrap_weights st)
    = res_map wrap_weights (Weights.run Z.add dominators fuel obj st).
Proof.
  induction fuel as [|fuel IH]; intros obj st Hshape; [done|].
  cbn -[wrap_weights].
  change (Weights.seen (wrap_weights st)) with (Weights.seen st).
  destruct (decide (obj ∈ Weights.seen st)) as [Hin|Hout]; [done|].
  rewrite enter_wrap by done.
  destruct (Weights.enter obj st) as [st1| | |] eqn:Hst1; try done.
  cbn -[wrap_weights].
  assert (forall q, shape <$> Weights.objs st1 !! q = shape <$> objects !! q)
    as Hshape1.
  { intros q. rewrite <- Hshape. by apply (enter_shape obj). }
  rewrite wrap_weights_lookup.
  destruct (Weights.objs st1 !! obj) as [o|] eqn:Ho; [|done].
  cbn -[wrap_weights].
  change (Obj.refs (wrap_weight o)) with (Obj.refs o).
  assert (forall children st2,
             (forall q, shape <$> Weights.objs st2 !! q
                        = shape <$> objects !! q) ->
             foldM (fun target st =>
                      st ← Weights.run plus64 dominators fuel target st;
                      Weights.merge_max obj target st)
                   children (wrap_weights st2)
             = res_map wrap_weights
                 (foldM (fun target st =>
                           st ← Weights.run Z.add dominators fuel target st;
                           Weights.merge_max obj target st)
                        children st2) /\
             forall st3,
               foldM (fun target st =>
                        st ← Weights.run Z.add dominators fuel target st;
                        Weights.merge_max obj target st)
                     children st2 = Ok st3 ->
               forall q, shape <$> Weights.objs st3 !! q
                         = shape <$> objects !! q) as Hloop.
  { induction children as [|child children IHc]; intros st2 Hshape2.
    - split; [done|]. by intros st3 [= <-].
    - cbn -[wrap_weights]. rewrite IH by done.
      destruct (Weights.run Z.add dominators fuel child st2)
        as [st2'| | |] eqn:Hchild; try done.
      cbn -[wrap_weights]. rewrite merge_max_wrap.
      destruct (Weights.merge_max obj child st2') as [st2''| | |] eqn:Hm;
        try done.
      cbn -[wrap_weights].
      apply IHc. intros q. rewrite <- Hshape2.
      rewrite (merge_max_shape _ _ _ _ Hm).
      by apply (run_shape Z.add dominators fuel child). }
  destruct (Hloop (elements (Obj.refs o)) st1 Hshape1) as [Hfold Hshape2].
  rewrite Hfold.
  destruct (foldM _ _ st1) as [st2| | |]; try done.
  cbn -[wrap_weights].
  apply credit_wrap.
Qed.

Lemma wrap_weights_fits :
  wrap_weights (Weights.mk objects ∅ []) = Weights.mk objects ∅ [].
Proof.
  unfold wrap_weights. simpl. f_equal.
  apply map_eq. intros p. rewrite lookup_fmap.
  destruct (objects !! p) as [o|] eqn:Ho; [|done]. simpl. f_equal.
  destruct (Hfits p o Ho) as [_ Hweight].
  destruct o. unfold wrap_weight, wrap64, Obj.set_weight. simpl in *.
  f_equal. by apply Z.mod_small.
Qed.

(** The lower bounds the pass does establish: when the propagation with
    exact sums returns and those sums fit in 64 bits (sizes and weights being
    [size_t] values to start with), every symbol [s] the entry reaches ends
    with [weight(s) >= size(s)] and [max_weight(s) >= size(s)]. *)
Lemma weights_cover_sizes (fuel : nat) (entry s : ptr)
        (exact : Weights.state) :
  exact_weights fuel entry dominators (Weights.mk objects ∅ []) = Ok exact ->
  map_Forall (fun _ o => Obj.weight o < 2 ^ 64) (Weights.objs exact) ->
  reaches objects entry s ->
  exists st o,
    CalculateWeights fuel entry dominators (Weights.mk objects ∅ []) = Ok st /\
    Weights.objs st !! s = Some o /\
    Obj.size o <= Obj.weight o /\
    Obj.size o <= Obj.max_weight o.
Proof.
  intros Hexact Hbound Hreach.
  assert (sizes_covered exact) as [_ Hcov].
  { apply (exact_sizes_covered dominators fuel entry _ _ Hexact). split.
    - intros p o Ho. simpl in Ho. by destruct (Hfits p o Ho) as [[? _] _].
    - intros x Hx. simpl in Hx. set_solver. }
  destruct (Hcov s) as (o & Ho & Hw & Hm).
  { by apply (reachable_seen Z.add dominators objects fuel entry). }
  exists (wrap_weights exact), (wrap_weight o). split; [|split].
  - unfold CalculateWeights. rewrite <- wrap_weights_fits at 1.
    rewrite run_wrap by done. unfold exact_weights in Hexact.
    by rewrite Hexact.
  - by rewrite wrap_weights_lookup, Ho.
  - pose proof (Hbound s o Ho) as Hlt. simpl in Hlt.
    assert (0 <= Obj.size o) as Hsize.
    { pose proof (run_shape Z.add dominators fuel entry _ _ Hexact) as Hshape.
      by destruct (shape_size exact s o Hshape Ho). }
    unfold wrap_weight, wrap64. simpl.
    rewrite Z.mod_small by lia. lia.
Qed.

End WrappedWeights.

Lemma weights_cover_sizes_witness :
  exists st o,
    CalculateWeights 4 "A" chain_dominators
                     (Weights.mk (objects_ chain) ∅ []) = Ok st /\
    Weights.objs st !! "C"%string = Some o /\
    Obj.size o <= Obj.weight o /\
    Obj.size o <= Obj.max_weight o.
Proof.
  apply (weights_cover_sizes
           chain_dominators (objects_ chain) ltac:(by_computation) 4 "A" "C"
           (match exact_weights 4 "A" chain_dominators
                                (Weights.mk (objects_ chain) ∅ []) with
            | Ok st => st
            | _ => Weights.mk ∅ ∅ []
            end)).
  - vm_compute. reflexivity.
  - by_computation.
  - apply (rtc_l _ _ "B"%string); [by_computation|].
    apply (rtc_l _ _ "C"%string); [by_computation|].
    apply rtc_refl.
Defined.

(** C4.  [max_weight] misses the weights that are credited.  The pass sets
    [max_weight = weight] when it enters a symbol and takes the maximum with
    the targets' [max_weight] while it walks the references, but the
    dominated symbols credit their weight only afterwards.  On the chain
    [A(10) -> B(10) -> C(1)] the entry [A], which reaches itself, ends with
    weight 20 and maximal weight 10, so [max_weight(A) >= weight(A)] fails.
    The dominator map is not to blame: on [A(10) -> B(20) -> C(30)] with the
    complete map [B <- A, C <- B] handed to [CalculateWeights], [A] ends with
    weight 60 and maximal weight 30, and [B] with weight 50 and maximal
    weight 30. *)
Theorem max_weight_misses_credited_weight :
  reaches (objects_ light_tail) "A" "A" /\
  weight_in (weigh 4 light_tail) "A" = Some 20 /\
  max_weight_in (weigh 4 light_tail) "A" = Some 10 /\
  weight_in (res_map Weights.objs
               (CalculateWeights 4 "A" expected_chain_dominators
                                 (Weights.mk (objects_ chain) ∅ []))) "A"
  = Some 60 /\
  max_weight_in (res_map Weights.objs
                   (CalculateWeights 4 "A" expected_chain_dominators
                                     (Weights.mk (objects_ chain) ∅ []))) "A"
  = Some 30 /\
  weight_in (res_map Weights.objs
               (CalculateWeights 4 "A" expected_chain_dominators
                                 (Weights.mk (objects_ chain) ∅ []))) "B"
  = Some 50 /\
  max_weight_in (res_map Weights.objs
                   (CalculateWeights 4 "A" expected_chain_dominators
                                     (Weights.mk (objects_ chain) ∅ []))) "B"
  = Some 30.
Proof.
  split; [apply rtc_refl|]. repeat split; vm_compute; reflexivity.
Qed.

(** * Further properties *)

(** ** Names *)

(** X1.  [StripName] splits a name at its first parenthesis: when it reports
    a change, the name is the stripped form followed by ["("] and a rest, and
    the stripped form holds no parenthesis; when it reports none, the name
    holds no parenthesis and comes back as it is. *)
Theorem StripName_splits (name : string) :
  match NameStripper.StripName name with
  | (true, stripped) =>
      (exists rest, name = (stripped ++ String "(" rest)%string) /\
      NameStripper.find_first_of "(" stripped = None
  | (false, stripped) =>
      stripped = name /\ NameStripper.find_first_of "(" name = None
  end.
Proof.
  unfold NameStripper.StripName.
  destruct (NameStripper.find_first_of "(" name) as [paren|] eqn:Hfind;
    [|done].
  revert paren Hfind. induction name as [|a name IH]; intros paren Hfind;
    [discriminate|].
  simpl in Hfind. destruct (Ascii.eqb_spec a "("%char) as [->|Hne].
  - injection Hfind as <-. split; [by exists name|done].
  - destruct (NameStripper.find_first_of "(" name) as [paren'|];
      [|discriminate].
    injection Hfind as <-. destruct (IH paren' eq_refl) as [[rest Hrest] Hnone].
    split.
    + exists rest.
      change (String a name
              = String a (String.substring 0 paren' name
                          ++ String "(" rest)%string).
      f_equal. exact Hrest.
    + simpl. destruct (Ascii.eqb_spec a "("%char); [done|].
      by rewrite Hnone.
Qed.

(** X2.  [StartsWith haystack needle] holds exactly when [haystack] is
    [needle] followed by something. *)
Theorem StartsWith_prefix (haystack needle : string) :
  StartsWith haystack needle = true <->
  exists rest, haystack = (needle ++ rest)%string.
Proof.
  unfold StartsWith. rewrite String.eqb_eq.
  revert haystack. induction needle as [|c needle IH]; intros haystack.
  - simpl. split; [intros _; by exists haystack|intros _].
    by destruct haystack.
  - destruct haystack as [|h haystack]; simpl.
    + split; [discriminate|]. intros [rest Hrest]. discriminate.
    + split.
      * intros [= -> Hsub]. apply IH in Hsub as [rest ->]. by exists rest.
      * intros [rest [= -> ->]]. f_equal. apply IH. by exists rest.
Qed.

(** ** Range map *)

Section RangeMapOrder.
Context {T : Type}.
Implicit Types (m : RangeMap.t T) (e : T * Z).

Lemma keys_assign (k : Z) e m (x : Z) :
  x ∈ keys (RangeMap.assign k e m) <-> x = k \/ x ∈ keys m.
Proof.
  unfold keys. induction m as [|[k' e'] m IH]; simpl.
  - set_solver.
  - destruct (Z.ltb_spec k k'); [set_solver|].
    destruct (Z.eqb_spec k k') as [->|Hne]; [set_solver|].
    simpl. rewrite elem_of_cons, IH. set_solver.
Qed.

Lemma assign_ascending (k : Z) e m :
  ascending m -> ascending (RangeMap.assign k e m).
Proof.
  unfold ascending. induction m as [|[k' e'] m IH]; simpl.
  - intros _. split; [constructor|done].
  - intros [Hall Hm].
    destruct (Z.ltb_spec k k') as [Hlt|Hge].
    + simpl. split; [|done]. constructor; [done|].
      apply list.Forall_forall. intros x Hx.
      pose proof (proj1 (list.Forall_forall _ _) Hall x Hx). lia.
    + destruct (Z.eqb_spec k k') as [->|Hne]; [done|].
      simpl. split; [|by apply IH].
      apply list.Forall_forall. intros x [->|Hx]%keys_assign; [lia|].
      by apply (proj1 (list.Forall_forall _ _) Hall).
Qed.

Lemma elem_of_assign (k : Z) e m (k' : Z) e' :
  ascending m ->
  (k', e') ∈ RangeMap.assign k e m <->
  (k' = k /\ e' = e) \/ (k' <> k /\ (k', e') ∈ m).
Proof.
  unfold ascending. induction m as [|[k0 e0] m IH]; simpl.
  - intros _. rewrite list_elem_of_singleton. split.
    + intros [= -> ->]. by left.
    + intros [[-> ->]|[_ Hin]]; [done|]. by apply elem_of_nil in Hin.
  - intros [Hall Hm].
    assert (forall x ex, (x, ex) ∈ m -> k0 < x) as Habove.
    { intros x ex Hin. apply (proj1 (list.Forall_forall _ _) Hall).
      apply list_elem_of_fmap. by exists (x, ex). }
    destruct (Z.ltb_spec k k0) as [Hlt|Hge].
    + rewrite !elem_of_cons. split.
      * intros [[= -> ->]|[[= -> ->]|Hin]].
        -- by left.
        -- right. split; [lia|by left].
        -- right. split; [apply Habove in Hin; lia|by right].
      * intros [[-> ->]|[Hne [[= -> ->]|Hin]]].
        -- by left.
        -- right. by left.
        -- right. by right.
    + destruct (Z.eqb_spec k k0) as [->|Hne].
      * rewrite !elem_of_cons. split.
        -- intros [[= -> ->]|Hin]; [by left|right].
           split; [apply Habove in Hin; lia|by right].
        -- intros [[-> ->]|[Hne [[= -> ->]|Hin]]].
           ++ by left.
           ++ done.
           ++ by right.
      * rewrite !elem_of_cons, (IH Hm). split.
        -- intros [[= -> ->]|[[-> ->]|[Hne' Hin]]].
           ++ right. split; [lia|by left].
           ++ by left.
           ++ right. split; [done|by right].
        -- intros [[-> ->]|[Hne' [[= -> ->]|Hin]]].
           ++ right. by left.
           ++ by left.
           ++ right. right. by split.
Qed.

Lemma before_upper_bound_None (addr : Z) m :
  ascending m ->
  RangeMap.before_upper_bound addr m = None <->
  Forall (fun x => addr < x) (keys m).
Proof.
  unfold ascending. destruct m as [|[k0 e0] m]; simpl.
  - intros _. split; [constructor|done].
  - intros [Hall Hm]. destruct (Z.ltb_spec addr k0) as [Hlt|Hge].
    + split; [intros _|done]. constructor; [done|].
      apply list.Forall_forall. intros x Hx.
      pose proof (proj1 (list.Forall_forall _ _) Hall x Hx). lia.
    + split.
      * by destruct (RangeMap.before_upper_bound addr m).
      * intros [Hk0 _]%list.Forall_cons. lia.
Qed.

(** The predecessor search on ascending keys: the entry returned is the one
    with the greatest key not above [addr]. *)
Lemma before_upper_bound_Some (addr : Z) m (k : Z) e :
  ascending m ->
  RangeMap.before_upper_bound addr m = Some (k, e) <->
  (k, e) ∈ m /\ k <= addr /\ no_key_within k addr m.
Proof.
  unfold no_key_within. revert k e.
  induction m as [|[k0 e0] m IH]; intros k e.
  - intros _. simpl. split; [discriminate|]. intros [Hin _].
    by apply elem_of_nil in Hin.
  - intros Hasc. pose proof Hasc as [Hall Hm]. fold (ascending m) in Hm.
    assert (forall k e,
               RangeMap.before_upper_bound addr m = Some (k, e) <->
               (k, e) ∈ m /\ k <= addr /\
               Forall (fun x => ~ (k < x <= addr)) (keys m)) as IH'
        by (intros k' e'; by apply IH).
    clear IH. rename IH' into IH.
    assert (forall x ex, (x, ex) ∈ m -> k0 < x) as Habove.
    { intros x ex Hin. apply (proj1 (list.Forall_forall _ _) Hall).
      apply list_elem_of_fmap. by exists (x, ex). }
    simpl. destruct (Z.ltb_spec addr k0) as [Hlt|Hge].
    + split; [discriminate|]. intros ([[= -> ->]|Hin]%elem_of_cons & Hle & _);
        [lia|]. apply Habove in Hin. lia.
    + destruct (RangeMap.before_upper_bound addr m) as [[k1 e1]|] eqn:Hrec.
      * assert ((k1, e1) ∈ m /\ k1 <= addr /\
                Forall (fun x => ~ (k1 < x <= addr)) (keys m))
          as (Hin1 & Hle1 & Hno1) by (by apply IH).
        pose proof (Habove _ _ Hin1) as Hk1.
        split.
        -- intros [= -> ->]. split; [by right|]. split; [done|].
           constructor; [lia|done].
        -- intros ([[= -> ->]|Hin]%elem_of_cons & Hle & Hno).
           ++ apply list.Forall_cons in Hno as [_ Hno].
              exfalso. apply (proj1 (list.Forall_forall _ _) Hno k1); [|lia].
              apply list_elem_of_fmap. by exists (k1, e1).
           ++ apply list.Forall_cons in Hno as [_ Hno].
              by apply (proj2 (IH k e)).
      * apply (before_upper_bound_None addr m Hm) in Hrec.
        split.
        -- intros [= -> ->]. split; [by left|]. split; [done|].
           constructor; [lia|].
           apply list.Forall_forall. intros x Hx.
           pose proof (proj1 (list.Forall_forall _ _) Hrec x Hx). simpl in *. lia.
        -- intros ([[= -> ->]|Hin]%elem_of_cons & Hle & Hno); [done|].
           exfalso.
           assert (addr < k); [|lia].
           apply (proj1 (list.Forall_forall _ _) Hrec).
           apply list_elem_of_fmap. by exists (k, e).
Qed.

(** What a hit of [TryGet] on ascending keys means. *)
Lemma TryGet_entry (addr : Z) m (v : T) :
  ascending m ->
  RangeMap.TryGet addr m = Some v <->
  exists key size,
    (key, (v, size)) ∈ m /\ key <= addr /\ no_key_within key addr m /\
    addr <= wrap64 (key + size).
Proof.
  intros Hasc. unfold RangeMap.TryGet.
  destruct (RangeMap.before_upper_bound addr m) as [[k [val size]]|] eqn:Hrec.
  - apply (before_upper_bound_Some addr m k (val, size) Hasc) in Hrec
      as (Hin & Hle & Hno).
    destruct (Z.ltb_spec (wrap64 (k + size)) addr) as [Hlt|Hge]; split.
    + discriminate.
    + intros (k' & size' & Hin' & Hle' & Hno' & Hhit).
      assert (RangeMap.before_upper_bound addr m = Some (k', (v, size')))
        as Hrec' by (by apply before_upper_bound_Some).
      assert (RangeMap.before_upper_bound addr m = Some (k, (val, size)))
        as Hrec'' by (by apply before_upper_bound_Some).
      rewrite Hrec' in Hrec''. injection Hrec'' as -> -> ->. lia.
    + intros [= ->]. exists k, size. done.
    + intros (k' & size' & Hin' & Hle' & Hno' & Hhit).
      assert (RangeMap.before_upper_bound addr m = Some (k', (v, size')))
        as Hrec' by (by apply before_upper_bound_Some).
      assert (RangeMap.before_upper_bound addr m = Some (k, (val, size)))
        as Hrec'' by (by apply before_upper_bound_Some).
      rewrite Hrec' in Hrec''. by injection Hrec'' as -> -> ->.
  - split; [discriminate|].
    intros (k' & size' & Hin' & Hle' & Hno' & Hhit).
    assert (RangeMap.before_upper_bound addr m = Some (k', (v, size')))
      as Hrec' by (by apply before_upper_bound_Some).
    congruence.
Qed.

(** X3.  Lookup in a range map with ascending keys: [TryGet addr] returns
    [v] exactly when some entry [(key, (v, size))] has the greatest key not
    above [addr] and [addr <= key + size], the sum taken on 64 bits; in
    particular it misses on the empty map and below the smallest key. *)
Theorem TryGet_ascending (addr : Z) m (v : T) :
  ascending m ->
  RangeMap.TryGet addr m = Some v <->
  exists key size,
    (key, (v, size)) ∈ m /\ key <= addr /\ no_key_within key addr m /\
    addr <= wrap64 (key + size).
Proof. apply TryGet_entry. Qed.

(** X4.  [Add] is the assignment of an ordered map: it keeps the keys
    ascending, and afterwards the map holds the new entry at [addr] and, at
    every other key, what it held before. *)
Theorem Add_assigns (addr size : Z) (val : T) m :
  ascending m ->
  ascending (RangeMap.Add addr size val m) /\
  forall k e,
    (k, e) ∈ RangeMap.Add addr size val m <->
    (k = addr /\ e = (val, size)) \/ (k <> addr /\ (k, e) ∈ m).
Proof.
  intros Hasc. unfold RangeMap.Add. split.
  - by apply assign_ascending.
  - intros k e. by apply elem_of_assign.
Qed.

Lemma no_key_within_assign (lo hi k : Z) e m :
  no_key_within lo hi m -> ~ (lo < k <= hi) ->
  no_key_within lo hi (RangeMap.assign k e m).
Proof.
  unfold no_key_within. intros Hno Hk. apply list.Forall_forall.
  intros x [->|Hx]%keys_assign; [done|].
  by apply (proj1 (list.Forall_forall _ _) Hno).
Qed.

Lemma Add_hit (addr size : Z) (val : T) m (a : Z) :
  ascending m ->
  0 <= addr -> 0 <= size -> addr + size < 2 ^ 64 ->
  addr <= a <= addr + size ->
  no_key_within addr a m ->
  RangeMap.TryGet a (RangeMap.Add addr size val m) = Some val.
Proof.
  intros Hasc Haddr Hsize Hfit Ha Hno.
  apply TryGet_entry; [by apply assign_ascending|].
  exists addr, size. split; [|split; [|split]].
  - apply elem_of_assign; [done|]. by left.
  - lia.
  - apply no_key_within_assign; [done|lia].
  - unfold wrap64. rewrite Z.mod_small; lia.
Qed.

Lemma Add_below (addr size : Z) (val : T) m (a : Z) :
  a < addr ->
  RangeMap.TryGet a (RangeMap.Add addr size val m) = RangeMap.TryGet a m.
Proof.
  intros Ha. unfold RangeMap.TryGet, RangeMap.Add.
  replace (RangeMap.before_upper_bound a (RangeMap.assign addr (val, size) m))
    with (RangeMap.before_upper_bound a m); [done|].
  induction m as [|[k0 e0] m IH]; simpl.
  - by destruct (Z.ltb_spec a addr); [|lia].
  - destruct (Z.ltb_spec addr k0) as [Hlt|Hge].
    + simpl. destruct (Z.ltb_spec a addr); [|lia].
      by destruct (Z.ltb_spec a k0); [|lia].
    + destruct (Z.eqb_spec addr k0) as [->|Hne].
      * simpl. by destruct (Z.ltb_spec a k0); [|lia].
      * simpl. by rewrite IH.
Qed.

(** X5.  A range added is found: after [Add addr size val], every address
    from [addr] to [addr + size] (the end included) that no later key
    shadows looks up [val], provided the range does not wrap. *)
Theorem TryGet_Add (addr size : Z) (val : T) m (a : Z) :
  ascending m ->
  0 <= addr -> 0 <= size -> addr + size < 2 ^ 64 ->
  addr <= a <= addr + size ->
  no_key_within addr a m ->
  RangeMap.TryGet a (RangeMap.Add addr size val m) = Some val.
Proof. apply Add_hit. Qed.

(** X6.  [Add] leaves every lookup below the address it adds as it was. *)
Theorem TryGet_Add_below (addr size : Z) (val : T) m (a : Z) :
  a < addr ->
  RangeMap.TryGet a (RangeMap.Add addr size val m) = RangeMap.TryGet a m.
Proof. apply Add_below. Qed.

End RangeMapOrder.

Lemma TryGet_ascending_witness :
  RangeMap.TryGet 0x205 (objects_by_addr_ chain) = Some "B"%string <->
  exists key size,
    (key, ("B"%string, size)) ∈ objects_by_addr_ chain /\ key <= 0x205 /\
    no_key_within key 0x205 (objects_by_addr_ chain) /\
    0x205 <= wrap64 (key + size).
Proof.
  apply (TryGet_ascending 0x205 (objects_by_addr_ chain) "B"%string).
  by_computation.
Defined.

Lemma Add_assigns_witness :
  ascending (RangeMap.Add 0x200 5 "D"%string (objects_by_addr_ chain)) /\
  forall k e,
    (k, e) ∈ RangeMap.Add 0x200 5 "D"%string (objects_by_addr_ chain) <->
    (k = 0x200 /\ e = ("D"%string, 5)) \/
    (k <> 0x200 /\ (k, e) ∈ objects_by_addr_ chain).
Proof.
  apply (Add_assigns 0x200 5 "D"%string (objects_by_addr_ chain)).
  by_computation.
Defined.

Lemma TryGet_Add_witness :
  RangeMap.TryGet 0x258
    (RangeMap.Add 0x250 0x10 "D"%string (objects_by_addr_ chain))
  = Some "D"%string.
Proof.
  apply (TryGet_Add 0x250 0x10 "D"%string (objects_by_addr_ chain) 0x258).
  - by_computation.
  - lia.
  - lia.
  - lia.
  - lia.
  - by_computation.
Defined.

Lemma TryGet_Add_below_witness :
  RangeMap.TryGet 0x205
    (RangeMap.Add 0x250 0x10 "D"%string (objects_by_addr_ chain))
  = RangeMap.TryGet 0x205 (objects_by_addr_ chain).
Proof.
  apply (TryGet_Add_below 0x250 0x10 "D"%string (objects_by_addr_ chain) 0x205).
  lia.
Defined.

(** ** File offsets *)

(** X7.  A mapped segment translates its addresses: after
    [AddFileMapping vmaddr fileoff filesize], the address [vmaddr + d] with
    [0 <= d <= filesize] has file offset [fileoff + d], as long as no later
    mapping starts in between and nothing wraps. *)
Theorem TryGetFileOffset_AddFileMapping (vmaddr fileoff filesize d : Z)
        (p : Program) :
  ascending (file_offsets_ p) ->
  0 <= vmaddr -> 0 <= filesize -> vmaddr + filesize < 2 ^ 64 ->
  0 <= fileoff -> 0 <= d <= filesize -> fileoff + d < 2 ^ 64 ->
  no_key_within vmaddr (vmaddr + d) (file_offsets_ p) ->
  TryGetFileOffset (vmaddr + d) (AddFileMapping vmaddr fileoff filesize p)
  = Some (fileoff + d).
Proof.
  intros Hasc Hvm Hsize Hfit Hoff Hd Hfit' Hno.
  unfold TryGetFileOffset, AddFileMapping. simpl.
  rewrite (Add_hit vmaddr filesize _ (file_offsets_ p) (vmaddr + d))
    by (done || lia).
  f_equal. unfold wrap64.
  rewrite Zminus_mod_idemp_r.
  replace (vmaddr + d - (vmaddr - fileoff)) with (fileoff + d) by lia.
  apply Z.mod_small. lia.
Qed.

Lemma TryGetFileOffset_AddFileMapping_witness :
  TryGetFileOffset (0x1000 + 0x10) (AddFileMapping 0x1000 0x400 0x100 odd_table)
  = Some (0x400 + 0x10).
Proof.
  apply (TryGetFileOffset_AddFileMapping 0x1000 0x400 0x100 0x10 odd_table);
    try lia; by_computation.
Defined.

(** ** Reference insertion *)

Lemma file_of_add_ref (to from : ptr) (objects : gmap ptr Obj.t) (s : ptr) :
  file_of (alter (fun o => Obj.set_refs ({[to]} ∪ Obj.refs o) o) from objects)
          s
  = file_of objects s.
Proof.
  unfold file_of. rewrite lookup_alter. case_decide; [subst|done].
  by destruct (objects !! s).
Qed.

(** On a hit, [TryAddRef] is [add_edge] to the symbol found. *)
Lemma TryAddRef_hit (from to : ptr) (vmaddr : Z) (p : Program) :
  RangeMap.TryGet vmaddr (objects_by_addr_ p) = Some to ->
  TryAddRef (Some from) vmaddr p = add_edge from to p.
Proof.
  intros Hhit. unfold TryAddRef, add_edge. rewrite Hhit. simpl.
  fold (file_of (alter (fun o => Obj.set_refs ({[to]} ∪ Obj.refs o) o)
                       from (objects_ p)) from).
  fold (file_of (alter (fun o => Obj.set_refs ({[to]} ∪ Obj.refs o) o)
                       from (objects_ p)) to).
  rewrite !file_of_add_ref.
  destruct (file_of (objects_ p) from) as [ffile|]; [|done].
  by destruct (file_of (objects_ p) to) as [tfile|].
Qed.

Lemma add_edge_idempotent (from to : ptr) (p : Program) :
  add_edge from to (add_edge from to p) = add_edge from to p.
Proof.
  unfold add_edge. simpl. rewrite !file_of_add_ref.
  f_equal.
  - destruct (file_of (objects_ p) from) as [ffile|]; [|done].
    destruct (file_of (objects_ p) to) as [tfile|]; [|done].
    apply map_eq. intros f. rewrite !lookup_alter.
    repeat case_decide; subst; try done.
    destruct (files_ p !! f) as [[n r w]|]; [|done]. simpl. f_equal.
    unfold File.set_refs. simpl. f_equal. set_solver.
  - apply map_eq. intros s. rewrite !lookup_alter.
    repeat case_decide; subst; try done.
    destruct (objects_ p !! s) as [o|]; [|done]. simpl. f_equal.
    destruct o. unfold Obj.set_refs. simpl. f_equal. set_solver.
Qed.

Lemma add_edge_commute (from1 to1 from2 to2 : ptr) (p : Program) :
  add_edge from1 to1 (add_edge from2 to2 p)
  = add_edge from2 to2 (add_edge from1 to1 p).
Proof.
  unfold add_edge. simpl. rewrite !file_of_add_ref.
  f_equal.
  - destruct (file_of (objects_ p) from1) as [ffile1|],
             (file_of (objects_ p) to1) as [tfile1|],
             (file_of (objects_ p) from2) as [ffile2|],
             (file_of (objects_ p) to2) as [tfile2|]; try done.
    apply map_eq. intros f. rewrite !lookup_alter.
    repeat case_decide; subst; try done.
    destruct (files_ p !! f) as [[n r w]|]; [|done]. simpl. f_equal.
    unfold File.set_refs. simpl. f_equal. set_solver.
  - apply map_eq. intros s. rewrite !lookup_alter.
    repeat case_decide; subst; try done.
    destruct (objects_ p !! s) as [o|]; [|done]. simpl. f_equal.
    destruct o. unfold Obj.set_refs. simpl. f_equal. set_solver.
Qed.

(** [TryAddRef] in one piece. *)
Lemma TryAddRef_cases (from : option ptr) (vmaddr : Z) (p : Program) :
  TryAddRef from vmaddr p
  = match from, RangeMap.TryGet vmaddr (objects_by_addr_ p) with
    | Some f, Some to => add_edge f to p
    | _, _ => p
    end.
Proof.
  destruct from as [f|]; [|done].
  destruct (RangeMap.TryGet vmaddr (objects_by_addr_ p)) as [to|] eqn:Hget.
  - by apply TryAddRef_hit.
  - unfold TryAddRef. by rewrite Hget.
Qed.

(** X8.  References are sets: inserting the same reference twice is
    inserting it once, and two insertions give the same program in either
    order. *)
Theorem TryAddRef_idempotent_commutes (from1 from2 : option ptr)
        (vmaddr1 vmaddr2 : Z) (p : Program) :
  TryAddRef from1 vmaddr1 (TryAddRef from1 vmaddr1 p)
  = TryAddRef from1 vmaddr1 p /\
  TryAddRef from1 vmaddr1 (TryAddRef from2 vmaddr2 p)
  = TryAddRef from2 vmaddr2 (TryAddRef from1 vmaddr1 p).
Proof.
  rewrite !TryAddRef_cases.
  destruct from1 as [f1|], from2 as [f2|];
    destruct (RangeMap.TryGet vmaddr1 (objects_by_addr_ p)) as [to1|] eqn:Hget1;
    destruct (RangeMap.TryGet vmaddr2 (objects_by_addr_ p)) as [to2|] eqn:Hget2;
    simpl; rewrite ?Hget1, ?Hget2; split; try done;
    auto using add_edge_idempotent, add_edge_commute.
Qed.

(** X9.  On a hit [TryAddRef] adds exactly one symbol edge, from [from] to
    the symbol found at [vmaddr], and, when both ends have a file, exactly
    the edge between their files; apart from references it changes no
    symbol, and it leaves the address index and the counters alone. *)
Theorem TryAddRef_adds_the_edge (from to : ptr) (vmaddr : Z) (p : Program) :
  RangeMap.TryGet vmaddr (objects_by_addr_ p) = Some to ->
  from ∈ dom (objects_ p) ->
  let p' := TryAddRef (Some from) vmaddr p in
  (forall a b, ref_edge (objects_ p') a b <->
               ref_edge (objects_ p) a b \/ (a = from /\ b = to)) /\
  (forall a b, file_edge (files_ p') a b <->
               file_edge (files_ p) a b \/
               (file_of (objects_ p) from = Some a /\
                file_of (objects_ p) to = Some b /\ a ∈ dom (files_ p))) /\
  (forall s, Obj.set_refs ∅ <$> objects_ p' !! s
             = Obj.set_refs ∅ <$> objects_ p !! s) /\
  objects_by_addr_ p' = objects_by_addr_ p /\
  next_id_ p' = next_id_ p /\ total_size_ p' = total_size_ p.
Proof.
  intros Hhit [o Ho]%elem_of_dom p'. subst p'.
  rewrite (TryAddRef_hit from to vmaddr p Hhit). unfold add_edge. simpl.
  split; [|split; [|split; [|done]]].
  - intros a b. unfold ref_edge. rewrite lookup_alter. case_decide; [subst a|].
    + rewrite Ho. simpl. set_solver.
    + destruct (objects_ p !! a); naive_solver.
  - intros a b. unfold file_edge.
    destruct (file_of (objects_ p) from) as [ffile|] eqn:Hff;
      [|destruct (files_ p !! a); naive_solver].
    destruct (file_of (objects_ p) to) as [tfile|] eqn:Htf;
      [|destruct (files_ p !! a); naive_solver].
    rewrite lookup_alter. case_decide; [subst a|].
    + destruct (files_ p !! ffile) as [f|] eqn:Hf; simpl.
      * split.
        -- intros [->%elem_of_singleton|Hb]%elem_of_union; [|by left].
           right. split; [done|]. split; [done|].
           apply elem_of_dom. by exists f.
        -- intros [Hb|(_ & [= ->] & _)]; set_solver.
      * split; [done|]. intros [[]|(_ & _ & Hdom)].
        apply elem_of_dom in Hdom as [f' Hf']. congruence.
    + destruct (files_ p !! a); naive_solver.
  - intros s. rewrite lookup_alter. case_decide; [subst s|done].
    rewrite Ho. done.
Qed.

Lemma TryAddRef_adds_the_edge_witness :
  let p' := TryAddRef (Some "A"%string) 0x305 chain in
  (forall a b, ref_edge (objects_ p') a b <->
               ref_edge (objects_ chain) a b \/
               (a = "A"%string /\ b = "C"%string)) /\
  (forall a b, file_edge (files_ p') a b <->
               file_edge (files_ chain) a b \/
               (file_of (objects_ chain) "A" = Some a /\
                file_of (objects_ chain) "C" = Some b /\
                a ∈ dom (files_ chain))) /\
  (forall s, Obj.set_refs ∅ <$> objects_ p' !! s
             = Obj.set_refs ∅ <$> objects_ chain !! s) /\
  objects_by_addr_ p' = objects_by_addr_ chain /\
  next_id_ p' = next_id_ chain /\ total_size_ p' = total_size_ chain.
Proof.
  apply (TryAddRef_adds_the_edge "A" "C" 0x305 chain).
  - vm_compute. reflexivity.
  - by_computation.
Defined.

(** ** Programs built through the sink interface *)

Section BuiltFacts.
Variable Demangle : string -> string.

(** [AddObject] changes the pretty name of other records at most. *)
Lemma AddObject_attrs_other (name : string) (a s : Z) (d : bool)
      (p : Program) (k : string) :
  k <> name ->
  attrs <$> objects_ (snd (AddObject Demangle name a s d p)) !! k
  = attrs <$> objects_ p !! k.
Proof.
  intros Hne. unfold AddObject.
  destruct (NameStripper.StripName (Demangle name)) as [[] stripped];
    [destruct (stripped_pretty_names_ p !! stripped) as [[claimant|]|]|];
    simpl; rewrite ?lookup_alter_attrs by done;
    rewrite lookup_alter_ne by done;
    destruct (objects_ p !! name) as [o|] eqn:Ho;
    rewrite ?lookup_insert_ne by done; reflexivity.
Qed.

Lemma AddObject_index (name : string) (a s : Z) (d : bool) (p : Program) :
  objects_by_addr_ (snd (AddObject Demangle name a s d p))
  = RangeMap.Add a s name (objects_by_addr_ p) /\
  file_offsets_ (snd (AddObject Demangle name a s d p)) = file_offsets_ p /\
  entry_ (snd (AddObject Demangle name a s d p)) = entry_ p.
Proof.
  unfold AddObject.
  destruct (NameStripper.StripName (Demangle name)) as [[] stripped];
    [destruct (stripped_pretty_names_ p !! stripped) as [[claimant|]|]|];
    done.
Qed.

Lemma AddObject_keeps_well_formed (n : nat) (p : Program) (name : string)
      (a s : Z) (d : bool) :
  Z.of_nat (S n) < 2 ^ 32 - 1 ->
  well_formed n p ->
  well_formed (S n) (snd (AddObject Demangle name a s d p)).
Proof.
  intros Hn [Hnext Hids Hnames Hdistinct Hclosed Hindex Hvalues Hoffsets Hentry].
  pose proof (AddObject_attrs Demangle name a s d p) as Hself.
  pose proof (AddObject_attrs_other name a s d p) as Hother.
  pose proof (AddObject_dom Demangle name a s d p) as Hdom.
  destruct (AddObject_index name a s d p) as (Hidx & Hoff & Hent).
  pose proof (AddObject_next_id Demangle name a s d p) as Hnext'.
  set (p' := snd (AddObject Demangle name a s d p)) in *.
  assert (next_id_ p' = 1 + Z.of_nat (S n)) as Hnext''.
  { rewrite Hnext', Hnext. unfold wrap32. rewrite Z.mod_small; lia. }
  assert (forall k o', objects_ p' !! k = Some o' ->
                       (k = name /\ Obj.id o' = next_id_ p /\
                        Obj.name o' = name /\
                        Obj.refs o'
                        = Obj.refs (default (Obj.new name)
                                            (objects_ p !! name))) \/
                       (k <> name /\
                        exists o, objects_ p !! k = Some o /\
                                  attrs o' = attrs o)) as Hlookup.
  { intros k o' Ho'. destruct (decide (k = name)) as [->|Hne].
    - left. simpl in Hself. rewrite Ho' in Hself. simpl in Hself.
      injection Hself as ? ? ? ? ? ? ? ? ?. done.
    - right. split; [done|]. specialize (Hother k Hne).
      rewrite Ho' in Hother. destruct (objects_ p !! k) as [o|]; [|done].
      exists o. split; [done|]. simpl in Hother. congruence. }
  split.
  - done.
  - intros k o' Ho'. simpl.
    destruct (Hlookup k o' Ho') as [(-> & Hid & _)|(Hne & o & Ho & Hattrs)].
    + rewrite Hid, Hnext''. lia.
    + unfold attrs in Hattrs; injection Hattrs as -> _ _ _ _ _ _ _ _.
      pose proof (Hids k o Ho) as Hrange. simpl in Hrange. lia.
  - intros k o' Ho'.
    destruct (Hlookup k o' Ho') as [(-> & _ & Hname & _)|(Hne & o & Ho & Hattrs)].
    + done.
    + unfold attrs in Hattrs; injection Hattrs as _ -> _ _ _ _ _ _ _. by apply Hnames.
  - intros k1 k2 o1 o2 Ho1 Ho2 Heq.
    destruct (Hlookup k1 o1 Ho1) as [(-> & Hid1 & _)|(Hne1 & o1' & Ho1' & Ha1)],
             (Hlookup k2 o2 Ho2) as [(-> & Hid2 & _)|(Hne2 & o2' & Ho2' & Ha2)].
    + done.
    + unfold attrs in Ha2; injection Ha2 as Hid2 _ _ _ _ _ _ _ _.
      pose proof (Hids k2 o2' Ho2') as Hrange. simpl in Hrange. lia.
    + unfold attrs in Ha1; injection Ha1 as Hid1 _ _ _ _ _ _ _ _.
      pose proof (Hids k1 o1' Ho1') as Hrange. simpl in Hrange. lia.
    + unfold attrs in Ha1, Ha2; injection Ha1 as Hid1 _ _ _ _ _ _ _ _.
      injection Ha2 as Hid2 _ _ _ _ _ _ _ _.
      apply (Hdistinct k1 k2 o1' o2' Ho1' Ho2'). congruence.
  - intros k o' Ho'. simpl. rewrite Hdom.
    destruct (Hlookup k o' Ho') as [(-> & _ & _ & Hrefs)|(Hne & o & Ho & Hattrs)].
    + rewrite Hrefs. destruct (objects_ p !! name) as [o|] eqn:Ho; simpl.
      * apply Hclosed in Ho. simpl in Ho. set_solver.
      * set_solver.
    + unfold attrs in Hattrs; injection Hattrs as _ _ _ _ _ _ -> _ _.
      apply Hclosed in Ho. simpl in Ho. set_solver.
  - rewrite Hidx. by apply assign_ascending.
  - intros k v sz. rewrite Hidx, Hdom. unfold RangeMap.Add.
    intros [[_ [= -> _]]|[_ Hin]]%elem_of_assign; [set_solver| |done].
    apply Hvalues in Hin. set_solver.
  - by rewrite Hoff.
  - intros e. rewrite Hent, Hdom. intros He. apply Hentry in He. set_solver.
Qed.

Lemma add_ref_keeps_well_formed (n : nat) (p : Program) (from to : ptr)
      (files : gmap string File.t) :
  to ∈ dom (objects_ p) ->
  well_formed n p ->
  well_formed n
    (mkProgram (next_id_ p) (total_size_ p) (max_weight_ p) files
               (alter (fun o => Obj.set_refs ({[to]} ∪ Obj.refs o) o)
                      from (objects_ p))
               (stripped_pretty_names_ p) (objects_by_addr_ p)
               (file_offsets_ p) (entry_ p)).
Proof.
  intros Hto [Hnext Hids Hnames Hdistinct Hclosed Hindex Hvalues Hoffsets Hentry].
  assert (forall k o',
             alter (fun o => Obj.set_refs ({[to]} ∪ Obj.refs o) o)
                   from (objects_ p) !! k = Some o' ->
             exists o, objects_ p !! k = Some o /\ Obj.id o' = Obj.id o /\
                       Obj.name o' = Obj.name o /\
                       Obj.refs o' ⊆ {[to]} ∪ Obj.refs o) as Hlookup.
  { intros k o'. rewrite lookup_alter. case_decide; [subst k|].
    - destruct (objects_ p !! from) as [o|]; [|done]. simpl.
      intros [= <-]. exists o. done.
    - intros Ho. exists o'. set_solver. }
  split; simpl; try done.
  - intros k o' (o & Ho & -> & _)%Hlookup. by apply (Hids k o).
  - intros k o' (o & Ho & _ & -> & _)%Hlookup. by apply Hnames.
  - intros k1 k2 o1 o2 (o1' & Ho1 & -> & _)%Hlookup
           (o2' & Ho2 & -> & _)%Hlookup.
    by apply Hdistinct.
  - intros k o' (o & Ho & _ & _ & Hrefs)%Hlookup. simpl.
    rewrite dom_alter_L. apply Hclosed in Ho. simpl in Ho. set_solver.
  - intros k v s Hin. rewrite dom_alter_L. by apply (Hvalues k v s).
  - intros e He. rewrite dom_alter_L. by apply Hentry.
Qed.

(** X10.  Every program built through the sink interface with fewer than
    [2^32 - 1] additions is well formed: the id counter is one more than the
    number of additions, every symbol has an id in [1, next_id_) of its own
    and its name as its key, every reference and every entry of the address
    index points at a symbol, both range maps have ascending keys, and the
    entry point is a symbol. *)
Theorem built_well_formed (n : nat) (p : Program) :
  built Demangle n p ->
  Z.of_nat n < 2 ^ 32 - 1 ->
  well_formed n p.
Proof.
  induction 1 as [|n p name a s d Hbuilt IH|n p from to Hbuilt IH Hto
                  |n p from vmaddr Hbuilt IH|n p obj Hbuilt IH Hobj
                  |n p vmaddr fileoff filesize Hbuilt IH]; intros Hn.
  - split; simpl; try done.
    intros k v s Hin. by apply elem_of_nil in Hin.
  - apply AddObject_keeps_well_formed; [done|]. apply IH. lia.
  - unfold AddRef, set_objects.
    by apply (add_ref_keeps_well_formed n p from to (files_ p) Hto), IH.
  - rewrite TryAddRef_cases. destruct from as [f|]; [|by apply IH].
    destruct (RangeMap.TryGet vmaddr (objects_by_addr_ p)) as [to|] eqn:Hget;
      [|by apply IH].
    unfold add_edge. apply add_ref_keeps_well_formed; [|by apply IH].
    apply (TryGet_entry vmaddr _ to) in Hget as (k & s & Hin & _);
      [|by apply IH].
    by apply (wf_index_values n p (IH Hn) k to s).
  - destruct (IH Hn). split; simpl; try done. by intros e [= <-].
  - destruct (IH Hn). split; simpl; try done. by apply assign_ascending.
Qed.

End BuiltFacts.

Lemma chain_built : built no_mangling 3 chain.
Proof.
  unfold chain, add.
  apply built_SetEntryPoint; [|by_computation].
  apply built_AddRef; [|by_computation].
  apply built_AddRef; [|by_computation].
  repeat apply built_AddObject. apply built_new.
Qed.

Lemma built_well_formed_witness : well_formed 3 chain.
Proof.
  apply (built_well_formed no_mangling 3 chain).
  - apply chain_built.
  - lia.
Defined.

(** ** What the collectors compute *)

Section GCExact.
Variable objects : gmap ptr Obj.t.
Variable entry : ptr.

Lemma GC_explores (fuel : nat) :
  forall (obj : ptr) (st : Garbage.state),
    Garbage.garbage st ⊆ dom objects ->
    (size (Garbage.garbage st) < fuel)%nat ->
    reaches objects entry obj ->
    GC_explored objects st ->
    GC_live objects entry st ->
    exists st', GC fuel objects obj st = Ok st' /\
                Garbage.garbage st' ⊆ Garbage.garbage st /\
                Garbage.stack st' = Garbage.stack st /\
                GC_explored objects st' /\
                GC_live objects entry st' /\
                obj ∉ Garbage.garbage st'.
Proof.
  induction fuel as [|fuel IH]; intros obj st Hdom Hfuel Hobj Hexp Hlive; [lia|].
  simpl. destruct (decide (obj ∈ Garbage.garbage st)) as [Hin|Hout];
    [|by exists st].
  assert (is_Some (objects !! obj)) as [o Ho]
      by (apply elem_of_dom; set_solver).
  rewrite Ho. simpl.
  set (st1 := Garbage.mk (Garbage.garbage st ∖ {[obj]})
                         (Garbage.stack st ++ [obj])
                         (Garbage.visited st ++ [obj])).
  assert (size (Garbage.garbage st1) < fuel)%nat as Hfuel1.
  { simpl. rewrite size_difference, size_singleton by set_solver.
    assert (size (Garbage.garbage st) <> 0%nat)
      by (apply size_non_empty_iff; set_solver).
    lia. }
  assert (forall children st2,
             (forall c, c ∈ children -> c ∈ Obj.refs o) ->
             Garbage.garbage st2 ⊆ Garbage.garbage st1 ->
             Garbage.stack st2 = Garbage.stack st1 ->
             GC_explored objects st2 ->
             GC_live objects entry st2 ->
             exists st', foldM (GC fuel objects) children st2 = Ok st' /\
                         Garbage.garbage st' ⊆ Garbage.garbage st2 /\
                         Garbage.stack st' = Garbage.stack st1 /\
                         GC_explored objects st' /\
                         GC_live objects entry st' /\
                         forall c, c ∈ children -> c ∉ Garbage.garbage st')
    as Hloop.
  { induction children as [|child children IHc];
      intros st2 Hrefs Hsub Hstack Hexp2 Hlive2.
    - exists st2. repeat split; try done. intros c Hc.
      by apply elem_of_nil in Hc.
    - destruct (IH child st2) as (st3 & Hrun & Hsub3 & Hstack3 & Hexp3
                                  & Hlive3 & Hchild); try done.
      + simpl in Hsub. set_solver.
      + apply subseteq_size in Hsub. lia.
      + eapply rtc_r; [exact Hobj|]. unfold ref_edge. rewrite Ho.
        apply Hrefs. set_solver.
      + destruct (IHc st3) as (st' & Hrun' & Hsub' & Hstack' & Hexp'
                               & Hlive' & Hrest); try done.
        * intros c Hc. apply Hrefs. set_solver.
        * set_solver.
        * congruence.
        * exists st'. simpl. rewrite Hrun. simpl. rewrite Hrun'.
          repeat split; try done; [set_solver|].
          intros c [->|Hc]%elem_of_cons; [set_solver|by apply Hrest]. }
  destruct (Hloop (elements (Obj.refs o)) st1)
    as (st' & Hrun & Hsub & Hstack & Hexp' & Hlive' & Hrefs); try done.
  - intros c Hc. by apply elem_of_elements in Hc.
  - intros a b Ha Hna Hnstack Hedge. simpl in *.
    assert (a <> obj) by set_solver.
    assert (b ∉ Garbage.garbage st); [|set_solver].
    apply (Hexp a b); set_solver.
  - intros x Hx Hnx. simpl in Hnx.
    destruct (decide (x = obj)) as [->|Hne]; [done|].
    apply Hlive; set_solver.
  - rewrite Hrun. simpl. eexists. split; [reflexivity|]. simpl.
    split; [set_solver|].
    split; [rewrite Hstack; simpl; apply removelast_last|].
    split; [|split; [done|set_solver]].
    intros a b Ha Hna Hnstack Hedge. simpl in *.
    rewrite Hstack in Hnstack. simpl in Hnstack.
    rewrite removelast_last in Hnstack.
    destruct (decide (a = obj)) as [->|Hne].
    + apply Hrefs, elem_of_elements. unfold ref_edge in Hedge.
      by rewrite Ho in Hedge.
    + apply (Hexp' a b); try done. rewrite Hstack. simpl. set_solver.
Qed.

(** With more fuel than symbols, [GC] from [entry] on the set of all symbols
    returns, and leaves in the set the symbols that no reference path from
    [entry] reaches. *)
Lemma GC_unreachable (fuel : nat) :
  (size (objects) < fuel)%nat ->
  exists st',
    GC fuel objects entry (Garbage.mk (dom objects) [] []) = Ok st' /\
    Garbage.stack st' = [] /\
    forall s, s ∈ Garbage.garbage st' <->
              s ∈ dom objects /\ ~ reaches objects entry s.
Proof.
  intros Hfuel.
  destruct (GC_explores fuel entry (Garbage.mk (dom objects) [] []))
    as (st' & Hrun & Hsub & Hstack & Hexp & Hlive & Hentry); simpl; try done.
  - by rewrite size_dom.
  - intros a b Ha Hna. done.
  - intros a Ha Hna. done.
  - exists st'. split; [done|]. split; [done|]. intros s. split.
    + intros Hs. split; [set_solver|]. intros Hreach.
      assert (forall x z, rtc (ref_edge objects) x z ->
                          x ∉ Garbage.garbage st' ->
                          z ∉ Garbage.garbage st') as Hclosed.
      { clear -Hexp Hstack. intros x z Hxz.
        induction Hxz as [x|x y z Hxy Hyz IHr]; [done|].
        intros Hx. apply IHr. apply (Hexp x y); try done.
        - unfold ref_edge in Hxy. apply elem_of_dom.
          by destruct (objects !! x).
        - rewrite Hstack. simpl. set_solver. }
      by apply (Hclosed entry s).
    + intros [Hs Hnot]. destruct (decide (s ∈ Garbage.garbage st'));
        [done|]. destruct Hnot. by apply Hlive.
Qed.

End GCExact.

(** X11.  With more fuel than symbols, [GC] started at a symbol on the set of
    all symbols returns with its stack empty, and what it leaves in the set
    is exactly the symbols that no path of references from the start
    reaches. *)
Theorem GC_leaves_the_unreachable (objects : gmap ptr Obj.t) (entry : ptr)
        (fuel : nat) :
  (size objects < fuel)%nat ->
  exists st',
    GC fuel objects entry (Garbage.mk (dom objects) [] []) = Ok st' /\
    Garbage.stack st' = [] /\
    forall s, s ∈ Garbage.garbage st' <->
              s ∈ dom objects /\ ~ reaches objects entry s.
Proof. apply GC_unreachable. Qed.

Lemma GC_leaves_the_unreachable_witness :
  exists st',
    GC 4 (objects_ chain) "B" (Garbage.mk (dom (objects_ chain)) [] [])
    = Ok st' /\
    Garbage.stack st' = [] /\
    forall s, s ∈ Garbage.garbage st' <->
              s ∈ dom (objects_ chain) /\ ~ reaches (objects_ chain) "B" s.
Proof.
  apply (GC_leaves_the_unreachable (objects_ chain) "B" 4).
  by_computation.
Defined.

Section GCFilesExact.
Variable files : gmap string File.t.
Variable entry : string.

Lemma GCFiles_explores (fuel : nat) :
  forall (file : string) (garbage opened : gset string),
    garbage ⊆ dom files ->
    (size garbage < fuel)%nat ->
    file_reaches files entry file ->
    GCFiles_explored files opened garbage ->
    GCFiles_live files entry garbage ->
    exists garbage', GCFiles fuel files file garbage = Ok garbage' /\
                     garbage' ⊆ garbage /\
                     GCFiles_explored files opened garbage' /\
                     GCFiles_live files entry garbage' /\
                     file ∉ garbage'.
Proof.
  induction fuel as [|fuel IH];
    intros file garbage opened Hdom Hfuel Hfile Hexp Hlive; [lia|].
  simpl. destruct (decide (file ∈ garbage)) as [Hin|Hout];
    [|by exists garbage].
  assert (is_Some (files !! file)) as [f Hf]
      by (apply elem_of_dom; set_solver).
  rewrite Hf. simpl.
  assert (size (garbage ∖ {[file]}) < fuel)%nat as Hfuel1.
  { rewrite size_difference, size_singleton by set_solver.
    assert (size garbage <> 0%nat) by (apply size_non_empty_iff; set_solver).
    lia. }
  assert (forall children g2,
             (forall c, c ∈ children -> c ∈ File.refs f) ->
             g2 ⊆ garbage ∖ {[file]} ->
             GCFiles_explored files (opened ∪ {[file]}) g2 ->
             GCFiles_live files entry g2 ->
             exists g', foldM (GCFiles fuel files) children g2 = Ok g' /\
                        g' ⊆ g2 /\
                        GCFiles_explored files (opened ∪ {[file]}) g' /\
                        GCFiles_live files entry g' /\
                        forall c, c ∈ children -> c ∉ g')
    as Hloop.
  { induction children as [|child children IHc];
      intros g2 Hrefs Hsub Hexp2 Hlive2.
    - exists g2. repeat split; try done. intros c Hc.
      by apply elem_of_nil in Hc.
    - destruct (IH child g2 (opened ∪ {[file]}))
        as (g3 & Hrun & Hsub3 & Hexp3 & Hlive3 & Hchild); try done.
      + set_solver.
      + apply subseteq_size in Hsub. lia.
      + eapply rtc_r; [exact Hfile|]. unfold file_edge. rewrite Hf.
        apply Hrefs. set_solver.
      + destruct (IHc g3) as (g' & Hrun' & Hsub' & Hexp' & Hlive' & Hrest);
          try done.
        * intros c Hc. apply Hrefs. set_solver.
        * set_solver.
        * exists g'. simpl. rewrite Hrun. simpl. rewrite Hrun'.
          repeat split; try done; [set_solver|].
          intros c [->|Hc]%elem_of_cons; [set_solver|by apply Hrest]. }
  destruct (Hloop (elements (File.refs f)) (garbage ∖ {[file]}))
    as (g' & Hrun & Hsub & Hexp' & Hlive' & Hrefs); try done.
  - intros c Hc. by apply elem_of_elements in Hc.
  - intros a b Ha Hna Hnopen Hedge.
    assert (b ∉ garbage); [|set_solver].
    apply (Hexp a b); set_solver.
  - intros x Hx Hnx.
    destruct (decide (x = file)) as [->|Hne]; [done|].
    apply Hlive; set_solver.
  - exists g'. split; [done|]. split; [set_solver|].
    split; [|split; [done|set_solver]].
    intros a b Ha Hna Hnopen Hedge.
    destruct (decide (a = file)) as [->|Hne].
    + apply Hrefs, elem_of_elements. unfold file_edge in Hedge.
      by rewrite Hf in Hedge.
    + apply (Hexp' a b); try done. set_solver.
Qed.

(** With more fuel than files, [GCFiles] from [entry] on the set of all files
    returns, and leaves in the set the files that no path of file references
    from [entry] reaches. *)
Lemma GCFiles_unreachable (fuel : nat) :
  (size files < fuel)%nat ->
  exists garbage,
    GCFiles fuel files entry (dom files) = Ok garbage /\
    forall s, s ∈ garbage <->
              s ∈ dom files /\ ~ file_reaches files entry s.
Proof.
  intros Hfuel.
  destruct (GCFiles_explores fuel entry (dom files) ∅)
    as (g' & Hrun & Hsub & Hexp & Hlive & Hentry); try done.
  - by rewrite size_dom.
  - intros a b Ha Hna. done.
  - intros a Ha Hna. done.
  - exists g'. split; [done|]. intros s. split.
    + intros Hs. split; [set_solver|]. intros Hreach.
      assert (forall x z, rtc (file_edge files) x z -> x ∉ g' -> z ∉ g')
        as Hclosed.
      { clear -Hexp. intros x z Hxz.
        induction Hxz as [x|x y z Hxy Hyz IHr]; [done|].
        intros Hx. apply IHr. apply (Hexp x y); try done.
        unfold file_edge in Hxy. apply elem_of_dom.
        by destruct (files !! x). }
      by apply (Hclosed entry s).
    + intros [Hs Hnot]. destruct (decide (s ∈ g')); [done|].
      destruct Hnot. by apply Hlive.
Qed.

End GCFilesExact.

(** X12.  With an entry point and more fuel than symbols and than files,
    [PrintGarbage] writes nothing to the error stream and returns; the number
    of garbage symbols it reports is the number of symbols that no path of
    references from the entry point reaches, and, when the entry point has a
    file, the number of garbage files is the number of files that no path of
    file references from that file reaches. *)
Theorem PrintGarbage_counts_the_unreachable (fuel : nat) (p : Program)
        (entry : ptr) (e : Obj.t) :
  entry_ p = Some entry ->
  objects_ p !! entry = Some e ->
  (size (objects_ p) < fuel)%nat ->
  (size (files_ p) < fuel)%nat ->
  exists (report : GarbageReport) (garbage : gset ptr),
    PrintGarbage fuel p = ([], Ok report) /\
    total_objects report = size (objects_ p) /\
    garbage_objects report = size garbage /\
    (forall s, s ∈ garbage <->
               s ∈ dom (objects_ p) /\ ~ reaches (objects_ p) entry s) /\
    match Obj.file e with
    | None => total_files report = None
    | Some efile =>
        exists garbage_files : gset string,
          total_files report = Some (size (files_ p), size garbage_files) /\
          forall f, f ∈ garbage_files <->
                    f ∈ dom (files_ p) /\ ~ file_reaches (files_ p) efile f
    end.
Proof.
  intros Hentry He Hobjects Hfiles. unfold PrintGarbage. rewrite Hentry.
  destruct (GC_unreachable (objects_ p) entry fuel Hobjects)
    as (st' & Hrun & _ & Hgarbage).
  rewrite Hrun. simpl. rewrite He. simpl.
  destruct (Obj.file e) as [efile|].
  - destruct (GCFiles_unreachable (files_ p) efile fuel Hfiles)
      as (g & Hrunf & Hg).
    rewrite Hrunf. simpl. eexists. exists (Garbage.garbage st').
    split; [reflexivity|]. simpl. repeat split; try apply Hgarbage; try done.
    exists g. split; [done|]. done.
  - simpl. eexists. exists (Garbage.garbage st').
    split; [reflexivity|]. simpl. repeat split; try apply Hgarbage; done.
Qed.

(** ** The largest size below the entry point *)

Section MaxWeightFacts.
Variable plus : Z -> Z -> Z.
Variable dominators : gmap ptr (option ptr).
Variable objects : gmap ptr Obj.t.
Variable entry : ptr.

Lemma enter_max_weight (obj : ptr) (st st' : Weights.state) (o : Obj.t) :
  Weights.enter obj st = Ok st' ->
  Weights.objs st !! obj = Some o ->
  max_weight_of st' obj = Some (Obj.size o) /\
  forall x, x <> obj -> max_weight_of st' x = max_weight_of st x.
Proof.
  intros (o0 & Ho0 & Hobjs & _)%enter_Ok Ho. unfold max_weight_of.
  rewrite Hobjs. split.
  - rewrite lookup_insert_eq. simpl. congruence.
  - intros x Hne. by rewrite lookup_insert_ne.
Qed.

Lemma merge_max_max_weight (obj target : ptr) (st st' : Weights.state) :
  Weights.merge_max obj target st = Ok st' ->
  exists a b,
    max_weight_of st obj = Some a /\
    max_weight_of st target = Some b /\
    max_weight_of st' obj = Some (Z.max a b) /\
    forall x, x <> obj -> max_weight_of st' x = max_weight_of st x.
Proof.
  intros (o & t & Ho & Ht & Hobjs & _)%merge_max_Ok. unfold max_weight_of.
  exists (Obj.max_weight o), (Obj.max_weight t). rewrite Hobjs, Ho, Ht.
  repeat split; try done.
  - by rewrite lookup_insert_eq.
  - intros x Hne. by rewrite lookup_insert_ne.
Qed.

Lemma credit_max_weight (obj : ptr) (st st' : Weights.state) :
  Weights.credit plus dominators obj st = Ok st' ->
  forall x, max_weight_of st' x = max_weight_of st x.
Proof.
  intros [_ [[_ ->]|(d & od & o & _ & Hod & _ & Hobjs)]]%credit_Ok x; [done|].
  unfold max_weight_of. rewrite Hobjs.
  destruct (decide (d = x)) as [<-|Hne].
  - by rewrite lookup_insert_eq, Hod.
  - by rewrite lookup_insert_ne.
Qed.

Lemma size_of_shape (m : gmap ptr Obj.t) (x : ptr) (o : Obj.t) :
  (forall p, shape <$> m !! p = shape <$> objects !! p) ->
  m !! x = Some o ->
  size_of objects x = Obj.size o /\
  forall c, c ∈ Obj.refs o -> ref_edge objects x c.
Proof.
  intros Hshape Ho. specialize (Hshape x). rewrite Ho in Hshape.
  unfold size_of, ref_edge.
  destruct (objects !! x) as [oo|]; [|done]. simpl in Hshape.
  injection Hshape as _ _ _ _ Hsize _ _ Hrefs. split; [done|].
  intros c. by rewrite Hrefs.
Qed.

(** One activation: the symbols it adds to [seen] are reachable, none of
    them is larger than the maximal weight the activated symbol ends with,
    and maximal weights of symbols seen before stay. *)
Lemma run_max_weight (fuel : nat) :
  forall (obj : ptr) (st st' : Weights.state),
    Weights.run plus dominators fuel obj st = Ok st' ->
    (forall p, shape <$> Weights.objs st !! p = shape <$> objects !! p) ->
    reaches objects entry obj ->
    max_weight_sound objects st ->
    seen_live objects entry st ->
    max_weight_sound objects st' /\
    seen_live objects entry st' /\
    obj ∈ Weights.seen st' /\
    Weights.seen st ⊆ Weights.seen st' /\
    (forall x, x ∈ Weights.seen st ->
               max_weight_of st' x = max_weight_of st x) /\
    (forall x, x ∈ Weights.seen st' -> x ∉ Weights.seen st ->
               exists m, max_weight_of st' obj = Some m /\
                         size_of objects x <= m).
Proof.
  induction fuel as [|fuel IH];
    intros obj st st' Hrun Hshape Hobj Hsound Hlive; [discriminate|].
  simpl in Hrun. destruct (decide (obj ∈ Weights.seen st)) as [Hin|Hout].
  { injection Hrun as <-. repeat split; try done. }
  destruct (Weights.enter obj st) as [st1| | |] eqn:Hst1; try discriminate.
  simpl in Hrun.
  destruct (Weights.objs st1 !! obj) as [o|] eqn:Ho; [|discriminate].
  simpl in Hrun.
  destruct (enter_Ok _ _ _ Hst1) as (o0 & Ho0 & Hobjs1 & Hseen1).
  destruct (enter_max_weight _ _ _ _ Hst1 Ho0) as [Hmw1 Hmw1'].
  pose proof (enter_shape _ _ _ Hst1) as Hsh1.
  assert (forall p, shape <$> Weights.objs st1 !! p = shape <$> objects !! p)
    as Hshape1 by (intros p; by rewrite Hsh1).
  destruct (size_of_shape _ _ _ Hshape Ho0) as [Hsize0 _].
  destruct (size_of_shape _ _ _ Hshape1 Ho) as [_ Hrefs].
  set (Inv := fun st2 : Weights.state =>
    (forall p, shape <$> Weights.objs st2 !! p = shape <$> objects !! p) /\
    max_weight_sound objects st2 /\
    seen_live objects entry st2 /\
    Weights.seen st1 ⊆ Weights.seen st2 /\
    (forall x, x ∈ Weights.seen st ->
               max_weight_of st2 x = max_weight_of st x) /\
    exists m, max_weight_of st2 obj = Some m /\
              forall x, x ∈ Weights.seen st2 -> x ∉ Weights.seen st ->
                        size_of objects x <= m).
  assert (Inv st1) as Hinv1.
  { split; [done|]. split; [|split; [|split; [done|split]]].
    - intros x. rewrite Hseen1. intros [->%elem_of_singleton|Hx]%elem_of_union.
      + exists obj. split; [apply rtc_refl|]. by rewrite Hmw1, Hsize0.
      + rewrite Hmw1' by set_solver. by apply Hsound.
    - intros x. rewrite Hseen1. intros [->%elem_of_singleton|Hx]%elem_of_union;
        [done|by apply Hlive].
    - intros x Hx. apply Hmw1'. set_solver.
    - exists (Obj.size o0). split; [done|]. intros x. rewrite Hseen1.
      intros [->%elem_of_singleton|Hx]%elem_of_union Hnx; [lia|done]. }
  assert (forall children st2 st3,
             foldM (fun target st =>
                      st ← Weights.run plus dominators fuel target st;
                      Weights.merge_max obj target st)
                   children st2 = Ok st3 ->
             (forall c, c ∈ children -> ref_edge objects obj c) ->
             Inv st2 -> Inv st3) as Hloop.
  { induction children as [|child children IHc];
      intros st2 st3 Hfold Hedges Hinv2.
    - by injection Hfold as <-.
    - simpl in Hfold.
      destruct (Weights.run plus dominators fuel child st2)
        as [st2'| | |] eqn:Hchild; try discriminate.
      simpl in Hfold.
      destruct (Weights.merge_max obj child st2') as [st2''| | |] eqn:Hm;
        try discriminate.
      simpl in Hfold.
      destruct Hinv2 as (Hshape2 & Hsound2 & Hlive2 & Hmono2 & Hframe2
                         & m2 & Hm2 & Hbound2).
      assert (ref_edge objects obj child) as Hedge
          by (apply Hedges; set_solver).
      destruct (IH _ _ _ Hchild Hshape2) as (Hsound2' & Hlive2' & Hchild_seen
                                             & Hmono2' & Hframe2' & Hbound2');
        try done.
      { eapply rtc_r; [exact Hobj|done]. }
      pose proof (run_shape _ _ _ _ _ _ Hchild) as Hsh2'.
      pose proof (merge_max_shape _ _ _ _ Hm) as Hsh2''.
      destruct (merge_max_Ok _ _ _ _ Hm) as (_ & _ & _ & _ & _ & Hs2'').
      destruct (merge_max_max_weight _ _ _ _ Hm)
        as (a & b & Ha & Hb & Hab & Hother).
      assert (obj ∈ Weights.seen st2) as Hobj2 by set_solver.
      apply (IHc st2'' st3 Hfold).
      { intros c Hc. apply Hedges. set_solver. }
      split; [|split; [|split; [|split; [|split]]]].
      + intros p. by rewrite Hsh2'', Hsh2'.
      + intros x. rewrite Hs2''. intros Hx.
        destruct (decide (x = obj)) as [->|Hne].
        * rewrite Hab. destruct (Z.max_spec a b) as [[_ ->]|[_ ->]].
          -- destruct (Hsound2' child Hchild_seen) as (s & Hs & Hmw).
             exists s. split; [by eapply rtc_l|]. congruence.
          -- destruct (Hsound2' obj) as (s & Hs & Hmw); [set_solver|].
             exists s. split; [done|]. congruence.
        * rewrite Hother by done. by apply Hsound2'.
      + intros x. rewrite Hs2''. apply Hlive2'.
      + rewrite Hs2''. set_solver.
      + intros x Hx. rewrite Hother by set_solver.
        rewrite Hframe2' by set_solver. by apply Hframe2.
      + exists (Z.max a b). split; [done|]. intros x. rewrite Hs2''.
        intros Hx Hnx. destruct (decide (x ∈ Weights.seen st2)) as [Hx2|Hnx2].
        * specialize (Hbound2 x Hx2 Hnx).
          rewrite Hframe2' in Ha by done. assert (a = m2) by congruence. lia.
        * destruct (Hbound2' x Hx Hnx2) as (m & Hm' & Hle).
          assert (b = m) by congruence. lia. }
  destruct (foldM _ _ st1) as [st2| | |] eqn:Hfold; try discriminate.
  simpl in Hrun.
  destruct (Hloop _ _ _ Hfold) as (Hshape2 & Hsound2 & Hlive2 & Hmono2
                                   & Hframe2 & m2 & Hm2 & Hbound2); [|done|].
  { intros c Hc. apply Hrefs. by apply elem_of_elements in Hc. }
  destruct (credit_Ok _ _ _ _ _ Hrun) as [Hs3 _].
  pose proof (credit_max_weight _ _ _ Hrun) as Hmw3.
  split; [|split; [|split; [|split; [|split]]]].
  - intros x. rewrite Hs3, Hmw3. apply Hsound2.
  - intros x. rewrite Hs3. apply Hlive2.
  - rewrite Hs3. set_solver.
  - rewrite Hs3. set_solver.
  - intros x Hx. rewrite Hmw3. by apply Hframe2.
  - intros x. rewrite Hs3, Hmw3. intros Hx Hnx. exists m2.
    split; [done|by apply Hbound2].
Qed.

(** The propagation from [entry] on a fresh state, when it returns: only
    weights have changed, the symbols seen are the ones [entry] reaches, and
    the maximal weight of [entry] is the largest of their sizes. *)
Lemma run_from_entry (fuel : nat) (st' : Weights.state) :
  Weights.run plus dominators fuel entry (Weights.mk objects ∅ []) = Ok st' ->
  (forall p, shape <$> Weights.objs st' !! p = shape <$> objects !! p) /\
  (forall s, s ∈ Weights.seen st' <-> reaches objects entry s) /\
  exists m, max_weight_of st' entry = Some m /\
            (forall s, reaches objects entry s -> size_of objects s <= m) /\
            exists s, reaches objects entry s /\ m = size_of objects s.
Proof.
  intros Hrun.
  destruct (run_max_weight fuel entry _ _ Hrun)
    as (Hsound & Hlive & Hentry & _ & _ & Hbound); try done.
  split; [by apply (run_shape _ _ _ _ _ _ Hrun)|]. split.
  - intros s. split; [apply Hlive|].
    by apply (reachable_seen plus dominators objects fuel entry).
  - destruct (Hsound entry Hentry) as (s & Hs & Hm).
    exists (size_of objects s). split; [done|]. split; [|by exists s].
    intros x Hx.
    destruct (Hbound x) as (m & Hm' & Hle); [|done|].
    + by apply (reachable_seen plus dominators objects fuel entry).
    + assert (m = size_of objects s) by congruence. lia.
Qed.

End MaxWeightFacts.

(** ** What the scanner changes *)

Lemma refs_added_refl (sources : ptr -> Prop) (p : Program) :
  refs_added sources p p.
Proof. split; try done. intros a b Hab. by left. Qed.

Lemma refs_added_trans (sources : ptr -> Prop) (p1 p2 p3 : Program) :
  refs_added sources p1 p2 -> refs_added sources p2 p3 ->
  refs_added sources p1 p3.
Proof.
  intros H12 H23. split.
  - by rewrite (ra_next_id _ _ _ H23), (ra_next_id _ _ _ H12).
  - by rewrite (ra_total_size _ _ _ H23), (ra_total_size _ _ _ H12).
  - by rewrite (ra_max_weight _ _ _ H23), (ra_max_weight _ _ _ H12).
  - by rewrite (ra_names _ _ _ H23), (ra_names _ _ _ H12).
  - by rewrite (ra_index _ _ _ H23), (ra_index _ _ _ H12).
  - by rewrite (ra_offsets _ _ _ H23), (ra_offsets _ _ _ H12).
  - by rewrite (ra_entry _ _ _ H23), (ra_entry _ _ _ H12).
  - intros s. by rewrite (ra_objects _ _ _ H23), (ra_objects _ _ _ H12).
  - intros f. by rewrite (ra_files _ _ _ H23), (ra_files _ _ _ H12).
  - intros a b Hab. by apply (ra_kept _ _ _ H23), (ra_kept _ _ _ H12).
  - intros a b Hab.
    by apply (ra_files_kept _ _ _ H23), (ra_files_kept _ _ _ H12).
  - intros a b Hab.
    destruct (ra_new _ _ _ H23 a b Hab) as [Hold|[Ha [addr Hb]]].
    + by apply (ra_new _ _ _ H12).
    + right. split; [done|]. exists addr.
      by rewrite <- (ra_index _ _ _ H12).
Qed.

Lemma add_edge_refs_added (sources : ptr -> Prop) (from to : ptr) (addr : Z)
      (p : Program) :
  sources from ->
  RangeMap.TryGet addr (objects_by_addr_ p) = Some to ->
  refs_added sources p (add_edge from to p).
Proof.
  intros Hfrom Hto. unfold add_edge. split; simpl; try done.
  - intros s. rewrite lookup_alter. case_decide; [subst s|done].
    by destruct (objects_ p !! from).
  - intros f. destruct (file_of (objects_ p) from) as [ffile|]; [|done].
    destruct (file_of (objects_ p) to) as [tfile|]; [|done].
    rewrite lookup_alter. case_decide; [subst f|done].
    by destruct (files_ p !! ffile).
  - intros a b. unfold ref_edge. rewrite lookup_alter.
    case_decide; [subst a|done].
    destruct (objects_ p !! from); [|done]. simpl. set_solver.
  - intros a b. unfold file_edge.
    destruct (file_of (objects_ p) from) as [ffile|]; [|done].
    destruct (file_of (objects_ p) to) as [tfile|]; [|done].
    rewrite lookup_alter. case_decide; [subst a|done].
    destruct (files_ p !! ffile); [|done]. simpl. set_solver.
  - intros a b. unfold ref_edge. rewrite lookup_alter.
    case_decide; [subst a|by left].
    destruct (objects_ p !! from) as [o|]; [|done]. simpl.
    intros [->%elem_of_singleton|Hb]%elem_of_union; [|by left].
    right. split; [done|]. by exists addr.
Qed.

Lemma TryAddRef_refs_added (sources : ptr -> Prop) (from : ptr) (addr : Z)
      (p : Program) :
  sources from -> refs_added sources p (TryAddRef (Some from) addr p).
Proof.
  intros Hfrom. rewrite TryAddRef_cases.
  destruct (RangeMap.TryGet addr (objects_by_addr_ p)) as [to|] eqn:Hget.
  - by apply (add_edge_refs_added sources from to addr).
  - apply refs_added_refl.
Qed.

Section ScannerFacts.
Variable word_of_bytes : list Z -> Z.

Lemma scan_words_outcome (sources : ptr -> Prop) (obj : ptr) (n : nat) :
  forall (i : Z) (rest : list Z) (p0 p : Program) (calls : list Z),
    (length rest <= n)%nat ->
    sources obj ->
    is_Some (objects_ p !! obj) ->
    refs_added sources p0 p ->
    scan_outcome sources p0 (scan_words word_of_bytes obj i rest p calls).
Proof.
  induction n as [|n IH]; intros i rest p0 p calls Hlen Hobj [o Ho] Hadded;
    rewrite scan_words_unfold, Ho;
    destruct (i <? Obj.size o); try done;
    destruct rest as [|b0 [|b1 [|b2 [|b3 [|b4 [|b5 [|b6 [|b7 rest]]]]]]]];
    try done; cbn [length] in Hlen; try lia.
  cbv zeta. apply IH; [lia|done| |].
  - pose proof (ra_objects _ _ _
                  (TryAddRef_refs_added sources obj
                     (word_of_bytes [b0; b1; b2; b3; b4; b5; b6; b7]) p Hobj)
                  obj) as Heq.
    rewrite Ho in Heq.
    destruct (objects_ (TryAddRef _ _ _) !! obj); [by eexists|done].
  - apply (refs_added_trans _ _ p); [done|].
    by apply TryAddRef_refs_added.
Qed.

Lemma scanned_refs_added (sources : ptr -> Prop) (p0 p : Program) (s : ptr) :
  refs_added sources p0 p -> scanned p s -> scanned p0 s.
Proof.
  intros Hadded (o & Ho & Hdata & Hoff).
  pose proof (ra_objects _ _ _ Hadded s) as Heq. rewrite Ho in Heq.
  destruct (objects_ p0 !! s) as [o0|] eqn:Ho0; [|done].
  simpl in Heq. injection Heq as _ _ _ Hvm _ Hd _ _ _.
  exists o0. split; [done|]. split; [congruence|].
  unfold TryGetFileOffset in *.
  by rewrite <- Hvm, <- (ra_offsets _ _ _ Hadded).
Qed.

Lemma ScanObject_outcome (contents rest : list Z) (obj : ptr)
      (p0 p : Program) (calls : list Z) :
  obj ∈ dom (objects_ p0) ->
  refs_added (scanned p0) p0 p ->
  scan_outcome (scanned p0) p0
               (ScanObject word_of_bytes contents obj (rest, p, calls)).
Proof.
  intros Hobj Hadded. unfold ScanObject.
  assert (is_Some (objects_ p !! obj)) as [o Ho].
  { apply elem_of_dom in Hobj as [o0 Ho0].
    pose proof (ra_objects _ _ _ Hadded obj) as Heq. rewrite Ho0 in Heq.
    destruct (objects_ p !! obj); [by eexists|done]. }
  rewrite Ho. destruct (Obj.data o) eqn:Hdata; [|done]. simpl.
  destruct (TryGetFileOffset (Obj.vmaddr o) p) as [base|] eqn:Hoff; [|done].
  apply (scan_words_outcome _ _ (length (fseek contents base rest))); try done.
  apply (scanned_refs_added (scanned p0) p0 p); [done|]. by exists o.
Qed.

Lemma ParseVTables_outcome (contents : list Z) (p : Program) :
  forall (objs : list ptr) (st : list Z * Program * list Z),
    (forall s, s ∈ objs -> s ∈ dom (objects_ p)) ->
    refs_added (scanned p) p (st.1.2) ->
    scan_outcome (scanned p) p
                 (foldM (ScanObject word_of_bytes contents) objs st).
Proof.
  induction objs as [|obj objs IH]; intros [[rest p1] calls] Hobjs Hadded.
  - done.
  - cbn [foldM]. cbn [fst snd] in Hadded.
    assert (obj ∈ dom (objects_ p)) as Hobj by (apply Hobjs; set_solver).
    pose proof (ScanObject_outcome contents rest obj p p1 calls Hobj Hadded)
      as Hstep.
    destruct (ScanObject word_of_bytes contents obj (rest, p1, calls))
      as [[[rest' p2] calls']|c| |]; try done.
    apply IH; [|done]. intros s Hs. apply Hobjs. set_solver.
Qed.

(** X13.  [ParseVTables] either returns or exits with status 1 (a short
    read).  When it returns, nothing but reference sets has changed: the
    symbols and files are the same with all their other fields, no reference
    is lost, and every reference gained leads from a scanned symbol (a data
    symbol whose address has a file offset) to a symbol that the address
    index yields for some address. *)
Theorem ParseVTables_only_adds_references (contents : list Z) (p : Program) :
  match ParseVTables word_of_bytes contents p with
  | Ok p' => refs_added (scanned p) p p'
  | Exit c => c = 1
  | _ => False
  end.
Proof.
  unfold ParseVTables.
  pose proof (ParseVTables_outcome contents p (elements (dom (objects_ p)))
                (contents, p, [])) as Hout.
  destruct (foldM _ _ _) as [[[rest p'] calls]|c| |]; simpl; apply Hout;
    try (intros s Hs; by apply elem_of_elements in Hs);
    apply refs_added_refl.
Qed.

End ScannerFacts.

Section ShortRead.
Variable word_of_bytes : list Z -> Z.

(** When [n] more rounds are due and the file holds fewer than [n] more
    words, the loop stops on a short read. *)
Lemma scan_words_short (obj : ptr) (s : Z) (n : nat) :
  forall (i : Z) (rest : list Z) (p : Program) (calls : list Z),
    Obj.size <$> objects_ p !! obj = Some s ->
    0 <= i -> i + 8 * (Z.of_nat n - 1) < s -> s <= 2 ^ 64 - 8 ->
    (length rest < 8 * n)%nat ->
    scan_words word_of_bytes obj i rest p calls = Exit 1.
Proof.
  induction n as [|n IH]; intros i rest p calls Hsize Hi Hdue Hfit Hlen; [lia|].
  destruct (objects_ p !! obj) as [o|] eqn:Ho; [|discriminate].
  injection Hsize as Hs.
  rewrite scan_words_unfold, Ho.
  destruct (Z.ltb_spec i (Obj.size o)); [|lia].
  destruct rest as [|b0 [|b1 [|b2 [|b3 [|b4 [|b5 [|b6 [|b7 rest]]]]]]]];
    try done.
  cbn [length] in Hlen. cbv zeta.
  replace (wrap64 (i + 8)) with (i + 8)
    by (unfold wrap64; rewrite Z.mod_small; lia).
  apply IH; try lia.
  rewrite TryAddRef_size, Ho. simpl. by rewrite Hs.
Qed.

End ShortRead.

(** X14.  A short read stops the process: for a data symbol whose file
    offset resolves (to an offset [fseek] accepts, with a size that leaves
    room for the loop counter), if the file ends before the last word the
    symbol starts, the scanner exits with status 1. *)
Theorem ScanObject_short_read_exits
        (word_of_bytes : list Z -> Z) (contents rest : list Z) (obj : ptr)
        (p : Program) (o : Obj.t) (base : Z) (calls : list Z) :
  objects_ p !! obj = Some o ->
  Obj.data o = true ->
  TryGetFileOffset (Obj.vmaddr o) p = Some base ->
  base < 2 ^ 63 ->
  0 < Obj.size o <= 2 ^ 64 - 8 ->
  Z.of_nat (length contents) < base + 8 * ((Obj.size o + 7) `div` 8) ->
  ScanObject word_of_bytes contents obj (rest, p, calls) = Exit 1.
Proof.
  intros Ho Hdata Hoff Hbase Hsize Hfile.
  assert (0 <= base) as Hbase0.
  { unfold TryGetFileOffset in Hoff.
    destruct (RangeMap.TryGet _ _); [|discriminate].
    injection Hoff as <-. unfold wrap64. apply Z.mod_pos_bound. lia. }
  pose proof (Z.div_mod (Obj.size o + 7) 8 ltac:(lia)) as Hdm.
  pose proof (Z.mod_pos_bound (Obj.size o + 7) 8 ltac:(lia)) as Hmod.
  unfold ScanObject. rewrite Ho, Hdata, Hoff. simpl.
  apply (scan_words_short word_of_bytes obj (Obj.size o)
           (Z.to_nat ((Obj.size o + 7) `div` 8))); try lia.
  - by rewrite Ho.
  - unfold fseek. destruct (Z.ltb_spec base (2 ^ 63)); [|lia].
    rewrite length_drop. lia.
Qed.

Lemma ScanObject_short_read_exits_witness :
  ScanObject le_word (take 12 odd_table_file) "V"
             (take 12 odd_table_file, odd_table, [])
  = Exit 1.
Proof.
  apply (ScanObject_short_read_exits
           le_word (take 12 odd_table_file) (take 12 odd_table_file) "V"
           odd_table
           (default (Obj.new "V") (objects_ odd_table !! "V"%string)) 0 []).
  - vm_compute. reflexivity.
  - vm_compute. reflexivity.
  - vm_compute. reflexivity.
  - lia.
  - vm_compute. split; [reflexivity|discriminate].
  - vm_compute. reflexivity.
Defined.

Lemma PrintGarbage_counts_the_unreachable_witness :
  exists (report : GarbageReport) (garbage : gset ptr),
    PrintGarbage 4 chain = ([], Ok report) /\
    total_objects report = size (objects_ chain) /\
    garbage_objects report = size garbage /\
    (forall s, s ∈ garbage <->
               s ∈ dom (objects_ chain) /\
               ~ reaches (objects_ chain) "A" s) /\
    match Obj.file (default (Obj.new "A") (objects_ chain !! "A"%string)) with
    | None => total_files report = None
    | Some efile =>
        exists garbage_files : gset string,
          total_files report
          = Some (size (files_ chain), size garbage_files) /\
          forall f, f ∈ garbage_files <->
                    f ∈ dom (files_ chain) /\
                    ~ file_reaches (files_ chain) efile f
    end.
Proof.
  apply (PrintGarbage_counts_the_unreachable
           4 chain "A"
           (default (Obj.new "A") (objects_ chain !! "A"%string))).
  - reflexivity.
  - vm_compute. reflexivity.
  - by_computation.
  - by_computation.
Defined.

(** ** What the propagation visits *)

(** X15.  In a graph whose references all point at symbols, with a dominator
    map that points into it and more fuel than symbols, [CalculateWeights]
    from a symbol returns; it has changed nothing but weights, and the
    symbols it has seen are exactly the ones a path of references from the
    start reaches. *)
Theorem CalculateWeights_sees_the_reachable
        (objects : gmap ptr Obj.t) (dominators : gmap ptr (option ptr))
        (entry : ptr) (fuel : nat) :
  closed objects ->
  valid_dominators dominators objects ->
  entry ∈ dom objects ->
  (size objects < fuel)%nat ->
  exists st,
    CalculateWeights fuel entry dominators (Weights.mk objects ∅ []) = Ok st /\
    (forall p, shape <$> Weights.objs st !! p = shape <$> objects !! p) /\
    forall s, s ∈ Weights.seen st <-> reaches objects entry s.
Proof.
  intros Hclosed Hvalid Hentry Hfuel.
  destruct (run_terminates plus64 dominators fuel entry
              (Weights.mk objects ∅ [])) as (st & Hrun & _); try done.
  { simpl. rewrite difference_empty_L. by rewrite size_dom. }
  exists st. split; [done|].
  destruct (run_from_entry plus64 dominators objects entry fuel st Hrun)
    as (Hshape & Hseen & _).
  done.
Qed.

Lemma CalculateWeights_sees_the_reachable_witness :
  exists st,
    CalculateWeights 4 "A" chain_dominators
                     (Weights.mk (objects_ chain) ∅ []) = Ok st /\
    (forall p, shape <$> Weights.objs st !! p
               = shape <$> objects_ chain !! p) /\
    forall s, s ∈ Weights.seen st <-> reaches (objects_ chain) "A" s.
Proof.
  apply (CalculateWeights_sees_the_reachable
           (objects_ chain) chain_dominators "A" 4); by_computation.
Defined.

(** X16.  Under the same conditions the maximal weight the start ends with
    is the largest size among the symbols it reaches: no reachable symbol is
    larger, and one of them has that size. *)
Theorem CalculateWeights_max_weight_is_largest_size
        (objects : gmap ptr Obj.t) (dominators : gmap ptr (option ptr))
        (entry : ptr) (fuel : nat) :
  closed objects ->
  valid_dominators dominators objects ->
  entry ∈ dom objects ->
  (size objects < fuel)%nat ->
  exists st m,
    CalculateWeights fuel entry dominators (Weights.mk objects ∅ []) = Ok st /\
    max_weight_of st entry = Some m /\
    (forall s, reaches objects entry s -> size_of objects s <= m) /\
    exists s, reaches objects entry s /\ m = size_of objects s.
Proof.
  intros Hclosed Hvalid Hentry Hfuel.
  destruct (run_terminates plus64 dominators fuel entry
              (Weights.mk objects ∅ [])) as (st & Hrun & _); try done.
  { simpl. rewrite difference_empty_L. by rewrite size_dom. }
  destruct (run_from_entry plus64 dominators objects entry fuel st Hrun)
    as (_ & _ & m & Hm & Hle & Hs).
  by exists st, m.
Qed.

Lemma CalculateWeights_max_weight_is_largest_size_witness :
  exists st m,
    CalculateWeights 4 "A" chain_dominators
                     (Weights.mk (objects_ chain) ∅ []) = Ok st /\
    max_weight_of st "A" = Some m /\
    (forall s, reaches (objects_ chain) "A" s ->
               size_of (objects_ chain) s <= m) /\
    exists s, reaches (objects_ chain) "A" s /\ m = size_of (objects_ chain) s.
Proof.
  apply (CalculateWeights_max_weight_is_largest_size
           (objects_ chain) chain_dominators "A" 4); by_computation.
Defined.

(** ** What a run of additions stores *)

Section AddObjectsFacts.
Variable Demangle : string -> string.

Lemma AddObjects_snoc (calls : list (string * (Z * Z * bool)))
      (name : string) (a s : Z) (d : bool) (p : Program) :
  AddObjects Demangle (calls ++ [(name, (a, s, d))]) p
  = snd (AddObject Demangle name a s d (AddObjects Demangle calls p)).
Proof. unfold AddObjects. by rewrite foldl_app. Qed.

Lemma call_sizes_snoc (calls : list (string * (Z * Z * bool)))
      (c : string * (Z * Z * bool)) :
  call_sizes (calls ++ [c]) = call_sizes calls + c.2.1.2.
Proof.
  unfold call_sizes. induction calls as [|c' calls IH]; simpl; [lia|].
  rewrite IH. lia.
Qed.

(** X17.  After a run of [AddObject] calls with pairwise distinct names on a
    fresh program (fewer than [2^32 - 1] of them), the id counter is one
    more than the number of calls, the total size is the sum of the sizes
    modulo [2^64], the symbols are the names added, and each is stored with
    the position of its call as its id (counting from 1) and with the name,
    address, size and data flag of its call. *)
Theorem AddObjects_stores_the_calls
        (calls : list (string * (Z * Z * bool))) :
  NoDup calls.*1 ->
  Z.of_nat (length calls) < 2 ^ 32 - 1 ->
  next_id_ (AddObjects Demangle calls Program_new)
  = 1 + Z.of_nat (length calls) /\
  total_size_ (AddObjects Demangle calls Program_new)
  = wrap64 (call_sizes calls) /\
  dom (objects_ (AddObjects Demangle calls Program_new))
  = list_to_set calls.*1 /\
  forall (i : nat) (name : string) (a s : Z) (d : bool),
    calls !! i = Some (name, (a, s, d)) ->
    exists o,
      objects_ (AddObjects Demangle calls Program_new) !! name = Some o /\
      Obj.id o = 1 + Z.of_nat i /\ Obj.name o = name /\
      Obj.vmaddr o = a /\ Obj.size o = s /\ Obj.data o = d.
Proof.
  induction calls as [|[name [[a s] d]] calls IH] using rev_ind;
    intros Hnodup Hlen.
  - by repeat split.
  - rewrite fmap_app in Hnodup. apply list.NoDup_app in Hnodup
      as (Hnodup & Hfresh & _).
    rewrite length_app in Hlen. simpl in Hlen.
    destruct IH as (Hnext & Htotal & Hdom & Hstored); [done|lia|].
    rewrite AddObjects_snoc.
    set (p := AddObjects Demangle calls Program_new) in *.
    split; [|split; [|split]].
    + rewrite AddObject_next_id, Hnext, length_app. simpl.
      unfold wrap32. rewrite Z.mod_small; lia.
    + rewrite AddObject_total_size, Htotal, call_sizes_snoc. simpl.
      unfold wrap64. by rewrite Zplus_mod_idemp_l.
    + rewrite AddObject_dom, Hdom, fmap_app, list_to_set_app_L. simpl.
      set_solver.
    + intros i name' a' s' d' Hi.
      destruct (decide (i < length calls)%nat) as [Hlt|Hge].
      * rewrite lookup_app_l in Hi by done.
        assert (name' <> name) as Hne.
        { intros ->. apply (Hfresh name); [|simpl; set_solver].
          apply list_elem_of_fmap. exists (name, (a', s', d')).
          split; [done|]. by apply list_elem_of_lookup_2 in Hi. }
        destruct (Hstored i name' a' s' d' Hi)
          as (o & Ho & Hid & Hname & Hvm & Hsize & Hdata).
        pose proof (AddObject_attrs_other Demangle name a s d p name' Hne)
          as Hother.
        rewrite Ho in Hother.
        destruct (objects_ (AddObject Demangle name a s d p).2 !! name')
          as [o'|]; [|done].
        simpl in Hother. unfold attrs in Hother.
        injection Hother as Hid' Hname' Hvm' Hsize' Hdata' _ _ _ _.
        exists o'. split; [done|]. repeat split; congruence.
      * rewrite lookup_app_r in Hi by lia.
        destruct (i - length calls)%nat as [|k] eqn:Hk; [|done].
        injection Hi as <- <- <- <-.
        pose proof (AddObject_attrs Demangle name a s d p) as Hattrs.
        simpl in Hattrs.
        destruct (objects_ (AddObject Demangle name a s d p).2 !! name)
          as [o'|]; [|done].
        simpl in Hattrs. unfold attrs in Hattrs.
        injection Hattrs as Hid' Hname' Hvm' Hsize' Hdata' _ _ _ _.
        exists o'. split; [done|]. rewrite Hnext in Hid'.
        repeat split; try done. lia.
Qed.

(** X18.  A symbol added is found: after [AddObject] on a program whose
    address index has ascending keys, for a range that does not wrap,
    [FindFunctionByName] yields the symbol for its name and
    [FindObjectByAddr] yields it for its start address, and every lookup
    below the start address answers as before. *)
Theorem AddObject_then_find (name : string) (vmaddr size : Z) (data : bool)
        (p : Program) :
  ascending (objects_by_addr_ p) ->
  0 <= vmaddr -> 0 <= size -> vmaddr + size < 2 ^ 64 ->
  FindFunctionByName name (snd (AddObject Demangle name vmaddr size data p))
  = Some (fst (AddObject Demangle name vmaddr size data p)) /\
  FindObjectByAddr vmaddr (snd (AddObject Demangle name vmaddr size data p))
  = Some (fst (AddObject Demangle name vmaddr size data p)) /\
  forall a, a < vmaddr ->
            FindObjectByAddr a (snd (AddObject Demangle name vmaddr size data p))
            = FindObjectByAddr a p.
Proof.
  intros Hasc Hvm Hsize Hfit.
  destruct (AddObject_index Demangle name vmaddr size data p) as (Hidx & _).
  rewrite AddObject_fst. unfold FindFunctionByName, FindObjectByAddr.
  rewrite Hidx. split; [|split].
  - assert (name ∈ dom (objects_ (snd (AddObject Demangle name vmaddr size
                                                 data p)))) as Hin
        by (rewrite AddObject_dom; set_solver).
    apply elem_of_dom in Hin as [o Ho]. by rewrite Ho.
  - apply Add_hit; try done; try lia.
    unfold no_key_within. apply list.Forall_forall. intros k _. lia.
  - intros a Ha. by apply Add_below.
Qed.

End AddObjectsFacts.

Lemma AddObjects_stores_the_calls_witness :
  next_id_ (AddObjects no_mangling overloads Program_new)
  = 1 + Z.of_nat (length overloads) /\
  total_size_ (AddObjects no_mangling overloads Program_new)
  = wrap64 (call_sizes overloads) /\
  dom (objects_ (AddObjects no_mangling overloads Program_new))
  = list_to_set overloads.*1 /\
  forall (i : nat) (name : string) (a s : Z) (d : bool),
    overloads !! i = Some (name, (a, s, d)) ->
    exists o,
      objects_ (AddObjects no_mangling overloads Program_new) !! name
      = Some o /\
      Obj.id o = 1 + Z.of_nat i /\ Obj.name o = name /\
      Obj.vmaddr o = a /\ Obj.size o = s /\ Obj.data o = d.
Proof.
  apply (AddObjects_stores_the_calls no_mangling overloads).
  - by_computation.
  - vm_compute. reflexivity.
Defined.

Lemma AddObject_then_find_witness :
  FindFunctionByName "D" (snd (AddObject no_mangling "D" 0x250 0x10 false chain))
  = Some (fst (AddObject no_mangling "D" 0x250 0x10 false chain)) /\
  FindObjectByAddr 0x250 (snd (AddObject no_mangling "D" 0x250 0x10 false chain))
  = Some (fst (AddObject no_mangling "D" 0x250 0x10 false chain)) /\
  forall a, a < 0x250 ->
            FindObjectByAddr a (snd (AddObject no_mangling "D" 0x250 0x10
                                               false chain))
            = FindObjectByAddr a chain.
Proof.
  apply (AddObject_then_find no_mangling "D" 0x250 0x10 false chain).
  - by_computation.
  - lia.
  - lia.
  - lia.
Defined.

(** ** The loops of the dominator calculator *)

Lemma slot_set_insert (total : Z) (ns : list (option ptr)) (x : Z)
      (s : list Z) :
  slot total ns x -> Forall (slot total ns) s ->
  Forall (slot total ns) (set_insert x s).
Proof.
  intros Hx. induction s as [|y s IH]; intros Hs; simpl.
  - by constructor.
  - apply list.Forall_cons in Hs as [Hy Hs].
    destruct (x <? y); [constructor; [done|by constructor]|].
    destruct (x =? y); [by constructor|].
    constructor; [done|by apply IH].
Qed.

Section LoopFacts.
Variable total : Z.
Variable c1 : DominatorCalculator.t.
Hypothesis Hrank0 : semis c1 !! 0%nat = Some 0.
Hypothesis Hrank_bound : forall i s, semis c1 !! i = Some s -> 0 <= s < total.

Lemma rd_Loop {A : Type} (field : NodeInfo.t -> A) (v : Z)
      (c : DominatorCalculator.t) :
  Loop total c1 c -> 0 <= v < total ->
  exists info,
    DominatorCalculator.node_info_ c !! Z.to_nat v = Some info /\
    info_typed total (nodes c1) info /\
    DominatorCalculator.rd field v c = Ok (field info).
Proof.
  intros Hloop Hv. pose proof (lp_typed _ _ _ Hloop) as Hty.
  destruct (lookup_lt_is_Some_2 (DominatorCalculator.node_info_ c)
                                (Z.to_nat v)) as [info Hinfo].
  { rewrite (ty_info_len _ _ Hty). lia. }
  exists info. split; [done|]. split.
  - rewrite <- (lp_nodes _ _ _ Hloop).
    by apply (Forall_lookup_1 _ _ _ _ (ty_info _ _ Hty) Hinfo).
  - unfold DominatorCalculator.rd. by rewrite Hinfo.
Qed.

Lemma wr_Loop (upd : NodeInfo.t -> NodeInfo.t) (v : Z)
      (c : DominatorCalculator.t) :
  Loop total c1 c -> 0 <= v < total ->
  (forall info,
      DominatorCalculator.node_info_ c !! Z.to_nat v = Some info ->
      info_typed total (nodes c1) info ->
      info_typed total (nodes c1) (upd info) /\
      NodeInfo.node (upd info) = NodeInfo.node info /\
      NodeInfo.parent (upd info) = NodeInfo.parent info /\
      (NodeInfo.ancestor (upd info) = NodeInfo.ancestor info \/
       NodeInfo.ancestor (upd info) = 0 \/
       exists rv ra,
         semis c1 !! Z.to_nat v = Some rv /\
         semis c1 !! Z.to_nat (NodeInfo.ancestor (upd info)) = Some ra /\
         0 <= ra < rv)) ->
  exists c', DominatorCalculator.wr upd v c = Ok c' /\ Loop total c1 c'.
Proof.
  intros Hloop Hv Hupd.
  destruct (rd_Loop NodeInfo.semi v c Hloop Hv) as (info & Hinfo & Hty & _).
  destruct (Hupd info Hinfo Hty) as (Hty' & Hnode & Hparent & Hanc).
  destruct Hloop as [[Hlen Hordlen Hord Hinfos] Hnodes Hparents Hordeq Hn Hranked].
  unfold DominatorCalculator.wr. rewrite Hinfo.
  eexists. split; [reflexivity|].
  assert (nodes (DominatorCalculator.set_node_info_
                   (<[Z.to_nat v := upd info]>
                      (DominatorCalculator.node_info_ c)) c) = nodes c)
    as Hnodes'.
  { unfold nodes. simpl. rewrite list_fmap_insert, Hnode.
    apply list_insert_id. by rewrite list_lookup_fmap, Hinfo. }
  split.
  - split; simpl.
    + by rewrite length_insert.
    + done.
    + by rewrite Hnodes'.
    + rewrite Hnodes'. apply Forall_insert; [done|]. by rewrite Hnodes.
  - by rewrite Hnodes'.
  - rewrite <- Hparents. unfold parents. simpl.
    rewrite list_fmap_insert, Hparent. apply list_insert_id.
    by rewrite list_lookup_fmap, Hinfo.
  - done.
  - done.
  - intros i info' Hlook Hne. simpl in Hlook.
    destruct (decide (i = Z.to_nat v)) as [->|Hi].
    + rewrite list_lookup_insert_eq in Hlook
        by (apply lookup_lt_is_Some; eauto).
      injection Hlook as <-.
      destruct Hanc as [Heq|[Hzero|(rv & ra & Hrv & Hra & Hlt)]].
      * rewrite Heq in *. by apply (Hranked _ info).
      * done.
      * by exists rv, ra.
    + rewrite list_lookup_insert_ne in Hlook by done.
      by apply (Hranked i info').
Qed.

Lemma Vertex_Loop (i : Z) (c : DominatorCalculator.t) :
  Loop total c1 c -> 0 <= i < total ->
  exists w, DominatorCalculator.Vertex i c = Ok w /\
            slot total (nodes c1) w /\
            DominatorCalculator.ordering_ c1 !! Z.to_nat i = Some w.
Proof.
  intros Hloop Hi. pose proof (lp_typed _ _ _ Hloop) as Hty.
  destruct (lookup_lt_is_Some_2 (DominatorCalculator.ordering_ c)
                                (Z.to_nat i)) as [w Hw].
  { rewrite (ty_ord_len _ _ Hty). lia. }
  exists w. split; [|split].
  - unfold DominatorCalculator.Vertex. by rewrite Hw.
  - rewrite <- (lp_nodes _ _ _ Hloop).
    by apply (Forall_lookup_1 _ _ _ _ (ty_ord _ _ Hty) Hw).
  - by rewrite <- (lp_ord _ _ _ Hloop).
Qed.

(** A write that touches neither [node], [parent] nor [ancestor]. *)
Lemma wr_Loop_plain (upd : NodeInfo.t -> NodeInfo.t) (v : Z)
      (c : DominatorCalculator.t) :
  Loop total c1 c -> 0 <= v < total ->
  (forall info, info_typed total (nodes c1) info ->
                info_typed total (nodes c1) (upd info)) ->
  (forall info, NodeInfo.node (upd info) = NodeInfo.node info /\
                NodeInfo.parent (upd info) = NodeInfo.parent info /\
                NodeInfo.ancestor (upd info) = NodeInfo.ancestor info) ->
  exists c', DominatorCalculator.wr upd v c = Ok c' /\ Loop total c1 c'.
Proof.
  intros Hloop Hv Hty Hkeep. apply wr_Loop; [done|done|].
  intros info _ Hinfo. destruct (Hkeep info) as (? & ? & ?).
  split; [by apply Hty|]. split; [done|]. split; [done|]. by left.
Qed.

Lemma rank_of (v : Z) (c : DominatorCalculator.t) :
  Loop total c1 c -> 0 <= v < total ->
  exists rv, semis c1 !! Z.to_nat v = Some rv /\ 0 <= rv < total.
Proof.
  intros Hloop Hv.
  destruct (lookup_lt_is_Some_2 (semis c1) (Z.to_nat v)) as [rv Hrv].
  { rewrite semis_length.
    assert (length (nodes c) = length (nodes c1)) as Hlen
        by (by rewrite (lp_nodes _ _ _ Hloop)).
    unfold nodes in Hlen. rewrite !length_fmap in Hlen.
    rewrite <- Hlen, (ty_info_len _ _ (lp_typed _ _ _ Hloop)). lia. }
  exists rv. split; [done|]. by apply (Hrank_bound (Z.to_nat v)).
Qed.

(** The ancestor of a slot with a linked ancestor is linked below it. *)
Lemma ancestor_below (v : Z) (c : DominatorCalculator.t)
      (info_v info_a : NodeInfo.t) :
  Loop total c1 c -> 0 <= v < total ->
  DominatorCalculator.node_info_ c !! Z.to_nat v = Some info_v ->
  DominatorCalculator.node_info_ c !! Z.to_nat (NodeInfo.ancestor info_v)
  = Some info_a ->
  NodeInfo.ancestor info_a <> 0 ->
  exists rv ra raa,
    semis c1 !! Z.to_nat v = Some rv /\
    semis c1 !! Z.to_nat (NodeInfo.ancestor info_v) = Some ra /\
    semis c1 !! Z.to_nat (NodeInfo.ancestor info_a) = Some raa /\
    0 <= raa < ra /\ ra < rv.
Proof.
  intros Hloop Hv Hinfo_v Hinfo_a Hne.
  pose proof (lp_anc _ _ _ Hloop) as Hranked.
  destruct (Hranked _ _ Hinfo_a Hne) as (ra & raa & Hra & Hraa & Hlt).
  assert (NodeInfo.ancestor info_v <> 0) as Hne_a.
  { intros Hz. rewrite Hz in Hra. change (Z.to_nat 0) with 0%nat in Hra.
    rewrite Hrank0 in Hra. injection Hra as <-. lia. }
  destruct (Hranked _ _ Hinfo_v Hne_a) as (rv & ra' & Hrv & Hra' & Hlt').
  rewrite Hra in Hra'. injection Hra' as <-.
  exists rv, ra, raa. repeat split; try done; lia.
Qed.

Lemma Compress_Loop (fuel : nat) :
  forall (v : Z) (c : DominatorCalculator.t) (rv : Z),
    Loop total c1 c -> 0 <= v < total ->
    semis c1 !! Z.to_nat v = Some rv ->
    (Z.to_nat rv < fuel)%nat ->
    exists c', DominatorCalculator.Compress fuel v c = Ok c' /\
               Loop total c1 c'.
Proof.
  induction fuel as [|fuel IH]; intros v c rv Hloop Hv Hrv Hfuel; [lia|].
  simpl. unfold DominatorCalculator.Ancestor, DominatorCalculator.Label,
           DominatorCalculator.Semi.
  destruct (rd_Loop NodeInfo.ancestor v c Hloop Hv)
    as (info_v & Hinfo_v & Hty_v & ->). simpl.
  pose proof (proj1 (it_ancestor _ _ _ Hty_v)) as Ha.
  destruct (rd_Loop NodeInfo.ancestor _ c Hloop Ha)
    as (info_a & Hinfo_a & Hty_a & ->). simpl.
  destruct (Z.eqb_spec (NodeInfo.ancestor info_a) 0) as [Hz|Hnz].
  { by exists c. }
  destruct (ancestor_below v c info_v info_a Hloop Hv Hinfo_v Hinfo_a Hnz)
    as (rv' & ra & raa & Hrv' & Hra & _ & Hlt1 & Hlt2).
  rewrite Hrv in Hrv'. injection Hrv' as <-.
  destruct (IH (NodeInfo.ancestor info_v) c ra Hloop Ha Hra)
    as (c2 & -> & Hloop2); [lia|]. simpl.
  clear dependent info_v. clear dependent info_a. clear Hloop.
  destruct (rd_Loop NodeInfo.ancestor v c2 Hloop2 Hv)
    as (info_v & Hinfo_v & Hty_v & ->). simpl.
  pose proof (proj1 (it_ancestor _ _ _ Hty_v)) as Ha.
  destruct (rd_Loop NodeInfo.label _ c2 Hloop2 Ha)
    as (info_a & Hinfo_a & Hty_a & ->). simpl.
  pose proof (it_label _ _ _ Hty_a) as Hla.
  destruct (rd_Loop NodeInfo.semi _ c2 Hloop2 (proj1 Hla))
    as (info_la & _ & _ & ->). simpl.
  destruct (rd_Loop NodeInfo.label v c2 Hloop2 Hv)
    as (info_v' & Hinfo_v' & _ & ->). simpl.
  rewrite Hinfo_v in Hinfo_v'. injection Hinfo_v' as <-.
  destruct (rd_Loop NodeInfo.semi _ c2 Hloop2
              (proj1 (it_label _ _ _ Hty_v)))
    as (info_lv & _ & _ & ->). simpl.
  assert (exists c3,
             (if NodeInfo.semi info_la <? NodeInfo.semi info_lv
              then DominatorCalculator.wr
                     (NodeInfo.set_label (NodeInfo.label info_a)) v c2
              else Ok c2) = Ok c3 /\ Loop total c1 c3)
    as (c3 & -> & Hloop3).
  { destruct (_ <? _); [|by exists c2].
    apply wr_Loop_plain; try done.
    intros info []. by split. }
  simpl.
  clear dependent info_v. clear dependent info_a. clear Hloop2.
  destruct (rd_Loop NodeInfo.ancestor v c3 Hloop3 Hv)
    as (info_v & Hinfo_v & Hty_v & ->). simpl.
  pose proof (proj1 (it_ancestor _ _ _ Hty_v)) as Ha.
  destruct (rd_Loop NodeInfo.ancestor _ c3 Hloop3 Ha)
    as (info_a & Hinfo_a & Hty_a & ->). simpl.
  apply wr_Loop; [done|done|].
  intros info Hinfo Hty. rewrite Hinfo_v in Hinfo. injection Hinfo as <-.
  split; [|split; [done|split; [done|]]].
  - destruct Hty as [Hp Han Hl Hs Hd Hpr Hb]. split; try done. simpl.
    apply (it_ancestor _ _ _ Hty_a).
  - simpl. destruct (decide (NodeInfo.ancestor info_a = 0)) as [Hz|Hnz'];
      [by right; left|].
    right; right.
    destruct (ancestor_below v c3 info_v info_a Hloop3 Hv Hinfo_v Hinfo_a Hnz')
      as (rv' & ra' & raa' & Hrv' & _ & Hraa' & Hlt1' & Hlt2').
    exists rv', raa'. repeat split; try done; lia.
Qed.

(** [Eval] returns a slot, with fuel for the longest chain of links. *)
Lemma Eval_Loop (fuel : nat) (v : Z) (c : DominatorCalculator.t) :
  Loop total c1 c -> slot total (nodes c1) v ->
  (Z.to_nat total <= fuel)%nat ->
  exists u c', DominatorCalculator.Eval fuel v c = Ok (u, c') /\
               Loop total c1 c' /\ slot total (nodes c1) u.
Proof.
  intros Hloop Hslot Hfuel. pose proof (proj1 Hslot) as Hv.
  unfold DominatorCalculator.Eval, DominatorCalculator.Ancestor,
    DominatorCalculator.Label.
  destruct (rd_Loop NodeInfo.ancestor v c Hloop Hv)
    as (info_v & Hinfo_v & Hty_v & ->). simpl.
  destruct (NodeInfo.ancestor info_v =? 0); [by exists v, c|].
  destruct (rank_of v c Hloop Hv) as (rv & Hrv & Hbound).
  destruct (Compress_Loop fuel v c rv Hloop Hv Hrv) as (c2 & -> & Hloop2);
    [lia|]. simpl.
  destruct (rd_Loop NodeInfo.label v c2 Hloop2 Hv)
    as (info_v' & _ & Hty_v' & ->). simpl.
  exists (NodeInfo.label info_v'), c2. split; [done|]. split; [done|].
  apply (it_label _ _ _ Hty_v').
Qed.

Hypothesis Hn1 : 0 <= DominatorCalculator.n_ c1 < total.
Hypothesis Hparent : forall (i w pw : Z),
    1 <= i <= DominatorCalculator.n_ c1 ->
    DominatorCalculator.ordering_ c1 !! Z.to_nat i = Some w ->
    parents c1 !! Z.to_nat w = Some pw ->
    pw <> 0 ->
    exists rw rp, semis c1 !! Z.to_nat w = Some rw /\
                  semis c1 !! Z.to_nat pw = Some rp /\ 0 <= rp < rw.

Lemma semi_step_Loop (fuel : nat) (i : Z) (c : DominatorCalculator.t) :
  Loop total c1 c -> 1 <= i <= DominatorCalculator.n_ c1 ->
  (Z.to_nat total <= fuel)%nat ->
  exists c', DominatorCalculator.semi_step fuel i c = Ok c' /\
             Loop total c1 c'.
Proof.
  intros Hloop Hi Hfuel.
  unfold DominatorCalculator.semi_step, DominatorCalculator.Pred,
    DominatorCalculator.Semi, DominatorCalculator.Bucket,
    DominatorCalculator.Parent, DominatorCalculator.Link.
  destruct (Vertex_Loop i c Hloop) as (w & -> & Hw & Hord); [lia|]. simpl.
  pose proof (proj1 Hw) as Hw_ix.
  destruct (rd_Loop NodeInfo.pred w c Hloop Hw_ix)
    as (info_w & _ & Hty_w & ->). simpl.
  match goal with
  | |- context [foldM ?b (NodeInfo.pred info_w) c] =>
      assert (forall ps c2,
                 Forall (slot total (nodes c1)) ps -> Loop total c1 c2 ->
                 exists c3, foldM b ps c2 = Ok c3 /\ Loop total c1 c3)
        as Hloop1
  end.
  { induction ps as [|v ps IHps]; intros c2 Hps Hloop2.
    - by exists c2.
    - apply list.Forall_cons in Hps as [Hv Hps]. cbn [foldM].
      destruct (Eval_Loop fuel v c2 Hloop2 Hv Hfuel)
        as (u & c3 & -> & Hloop3 & Hu). simpl.
      destruct (rd_Loop NodeInfo.semi u c3 Hloop3 (proj1 Hu))
        as (info_u & _ & Hty_u & ->). simpl.
      destruct (rd_Loop NodeInfo.semi w c3 Hloop3 Hw_ix)
        as (info_w3 & _ & _ & ->). simpl.
      assert (exists c4,
                 (if NodeInfo.semi info_u <? NodeInfo.semi info_w3
                  then DominatorCalculator.wr
                         (NodeInfo.set_semi (NodeInfo.semi info_u)) w c3
                  else Ok c3) = Ok c4 /\ Loop total c1 c4)
        as (c4 & -> & Hloop4).
      { destruct (_ <? _); [|by exists c3].
        apply wr_Loop_plain; try done.
        intros info [Hp Han Hl Hs Hd Hpr Hb]. split; try done.
        apply (it_semi _ _ _ Hty_u). }
      simpl. by apply IHps. }
  destruct (Hloop1 _ c (it_pred _ _ _ Hty_w) Hloop) as (c2 & -> & Hloop2).
  simpl. clear Hloop1 Hloop Hty_w info_w.
  destruct (rd_Loop NodeInfo.semi w c2 Hloop2 Hw_ix)
    as (info_w & _ & Hty_w & ->). simpl.
  destruct (Vertex_Loop (NodeInfo.semi info_w) c2 Hloop2
              (it_semi _ _ _ Hty_w)) as (vs & -> & Hvs & _). simpl.
  destruct (rd_Loop NodeInfo.bucket vs c2 Hloop2 (proj1 Hvs))
    as (info_vs & _ & Hty_vs & ->). simpl.
  destruct (wr_Loop_plain
              (NodeInfo.set_bucket (set_insert w (NodeInfo.bucket info_vs)))
              vs c2 Hloop2 (proj1 Hvs)) as (c3 & -> & Hloop3).
  { intros info [Hp Han Hl Hs Hd Hpr Hb]. split; try done. simpl.
    apply slot_set_insert; [done|]. apply (it_bucket _ _ _ Hty_vs). }
  { done. }
  simpl. clear Hloop2 Hty_w info_w Hty_vs info_vs.
  destruct (rd_Loop NodeInfo.parent w c3 Hloop3 Hw_ix)
    as (info_w & Hinfo_w & Hty_w & ->). simpl.
  destruct (wr_Loop (NodeInfo.set_ancestor (NodeInfo.parent info_w)) w c3
              Hloop3 Hw_ix) as (c4 & -> & Hloop4).
  { intros info Hinfo [Hp Han Hl Hs Hd Hpr Hb].
    rewrite Hinfo_w in Hinfo. injection Hinfo as <-.
    split; [by split|]. split; [done|]. split; [done|]. simpl.
    destruct (decide (NodeInfo.parent info_w = 0)) as [Hz|Hnz];
      [by right; left|].
    right; right. apply (Hparent i w); try done.
    rewrite <- (lp_parents _ _ _ Hloop3). unfold parents.
    by rewrite list_lookup_fmap, Hinfo_w. }
  simpl. clear Hloop3 Hinfo_w Hty_w info_w.
  destruct (rd_Loop NodeInfo.parent w c4 Hloop4 Hw_ix)
    as (info_w & _ & Hty_w & ->). simpl.
  destruct (rd_Loop NodeInfo.bucket _ c4 Hloop4
              (proj1 (it_parent _ _ _ Hty_w)))
    as (info_pw & _ & Hty_pw & ->). simpl.
  pose proof (it_bucket _ _ _ Hty_pw) as Hbs.
  revert Hbs Hloop4. generalize (NodeInfo.bucket info_pw) c4.
  clear Hty_pw info_pw Hty_w info_w.
  induction l as [|v bs IHbs]; intros c5 Hbs Hloop5.
  - by exists c5.
  - apply list.Forall_cons in Hbs as [Hv Hbs]. cbn [foldM].
    destruct (Eval_Loop fuel v c5 Hloop5 Hv Hfuel)
      as (u & c6 & -> & Hloop6 & Hu). simpl.
    destruct (rd_Loop NodeInfo.semi u c6 Hloop6 (proj1 Hu))
      as (info_u & _ & _ & ->). simpl.
    destruct (rd_Loop NodeInfo.semi v c6 Hloop6 (proj1 Hv))
      as (info_v & _ & _ & ->). simpl.
    destruct (rd_Loop NodeInfo.parent w c6 Hloop6 Hw_ix)
      as (info_w & _ & Hty_w & ->). simpl.
    destruct (wr_Loop_plain
                (NodeInfo.set_dom
                   (if NodeInfo.semi info_u <? NodeInfo.semi info_v
                    then u else NodeInfo.parent info_w))
                v c6 Hloop6 (proj1 Hv)) as (c7 & -> & Hloop7).
    { intros info [Hp Han Hl Hs Hd Hpr Hb]. split; try done. simpl.
      destruct (_ <? _); [done|apply (it_parent _ _ _ Hty_w)]. }
    { done. }
    simpl. by apply IHbs.
Qed.

Lemma semi_loop_Loop (fuel : nat) (i : nat) :
  forall c : DominatorCalculator.t,
    Loop total c1 c -> Z.of_nat i <= DominatorCalculator.n_ c1 ->
    (Z.to_nat total <= fuel)%nat ->
    exists c', DominatorCalculator.semi_loop fuel i c = Ok c' /\
               Loop total c1 c'.
Proof.
  induction i as [|i IH]; intros c Hloop Hi Hfuel.
  - by exists c.
  - cbn [DominatorCalculator.semi_loop].
    destruct (semi_step_Loop fuel (Z.of_nat (S i)) c Hloop)
      as (c2 & -> & Hloop2); [lia|done|].
    simpl. apply IH; [done|lia|done].
Qed.

Lemma dom_step_Loop (i : Z) (c : DominatorCalculator.t) :
  Loop total c1 c -> 0 <= i < total ->
  exists c', DominatorCalculator.dom_step i c = Ok c' /\ Loop total c1 c'.
Proof.
  intros Hloop Hi.
  unfold DominatorCalculator.dom_step, DominatorCalculator.Dom,
    DominatorCalculator.Semi.
  destruct (Vertex_Loop i c Hloop Hi) as (w & -> & Hw & _). simpl.
  destruct (rd_Loop NodeInfo.dom w c Hloop (proj1 Hw))
    as (info_w & Hinfo_w & Hty_w & ->). simpl.
  destruct (rd_Loop NodeInfo.semi w c Hloop (proj1 Hw))
    as (info_w' & Hinfo_w' & _ & ->). simpl.
  rewrite Hinfo_w in Hinfo_w'. injection Hinfo_w' as <-.
  destruct (Vertex_Loop (NodeInfo.semi info_w) c Hloop
              (it_semi _ _ _ Hty_w)) as (vs & -> & Hvs & _). simpl.
  destruct (_ =? _); [by exists c|].
  destruct (rd_Loop NodeInfo.dom _ c Hloop (proj1 (it_dom _ _ _ Hty_w)))
    as (info_d & _ & Hty_d & ->). simpl.
  apply wr_Loop_plain; [done|apply Hw| |done].
  intros info [Hp Han Hl Hs Hd Hpr Hb]. split; try done.
  apply (it_dom _ _ _ Hty_d).
Qed.

Lemma dom_loop_Loop (l : list Z) :
  forall c : DominatorCalculator.t,
    Loop total c1 c -> Forall (fun i => 0 <= i < total) l ->
    exists c', foldM DominatorCalculator.dom_step l c = Ok c' /\
               Loop total c1 c'.
Proof.
  induction l as [|i l IH]; intros c Hloop His.
  - by exists c.
  - apply list.Forall_cons in His as [Hi His]. cbn [foldM].
    destruct (dom_step_Loop i c Hloop Hi) as (c2 & -> & Hloop2).
    simpl. by apply IH.
Qed.

End LoopFacts.

(** ** What the numbering builds *)

Section BuildFacts.
Variable objects : gmap ptr Obj.t.
Variable total : Z.
Variable root : ptr.
Hypothesis Hclosed : closed objects.
Hypothesis Hids : ids_in_range total objects.

Lemma wr_at (upd : NodeInfo.t -> NodeInfo.t) (v : Z)
      (c : DominatorCalculator.t) (info : NodeInfo.t) :
  DominatorCalculator.node_info_ c !! Z.to_nat v = Some info ->
  DominatorCalculator.wr upd v c
  = Ok (DominatorCalculator.set_node_info_
          (<[Z.to_nat v := upd info]> (DominatorCalculator.node_info_ c)) c).
Proof. intros Hinfo. unfold DominatorCalculator.wr. by rewrite Hinfo. Qed.

Lemma slot_node_mono (ns : list (option ptr)) (k : nat) (p : ptr) (x : Z) :
  slot total ns x -> slot total (<[k := Some p]> ns) x.
Proof.
  intros [Hx [->|[q Hq]]]; (split; [done|]); [by left|]. right.
  destruct (decide (Z.to_nat x = k)) as [<-|Hne].
  - exists p. rewrite list_lookup_insert_eq; [done|].
    apply lookup_lt_is_Some. eauto.
  - exists q. by rewrite list_lookup_insert_ne.
Qed.

Lemma info_typed_node_mono (ns : list (option ptr)) (k : nat) (p : ptr)
      (info : NodeInfo.t) :
  info_typed total ns info -> info_typed total (<[k := Some p]> ns) info.
Proof.
  intros [Hp Han Hl Hs Hd Hpr Hb].
  split; try (by apply slot_node_mono); try done.
  - eapply list.Forall_impl; [exact Hpr|]. intros x. apply slot_node_mono.
  - eapply list.Forall_impl; [exact Hb|]. intros x. apply slot_node_mono.
Qed.

Lemma semis_insert (c : DominatorCalculator.t) (k : nat) (info : NodeInfo.t) :
  semis (DominatorCalculator.set_node_info_
           (<[k := info]> (DominatorCalculator.node_info_ c)) c)
  = <[k := NodeInfo.semi info]> (semis c).
Proof. unfold semis. simpl. by rewrite list_fmap_insert. Qed.

Lemma nodes_insert (c : DominatorCalculator.t) (k : nat) (info : NodeInfo.t) :
  nodes (DominatorCalculator.set_node_info_
           (<[k := info]> (DominatorCalculator.node_info_ c)) c)
  = <[k := NodeInfo.node info]> (nodes c).
Proof. unfold nodes. simpl. by rewrite list_fmap_insert. Qed.

Lemma semis_keep (c : DominatorCalculator.t) (k : nat)
      (info info' : NodeInfo.t) :
  DominatorCalculator.node_info_ c !! k = Some info ->
  NodeInfo.semi info' = NodeInfo.semi info ->
  semis (DominatorCalculator.set_node_info_
           (<[k := info']> (DominatorCalculator.node_info_ c)) c)
  = semis c.
Proof.
  intros Hinfo Hsemi. rewrite semis_insert, Hsemi.
  apply list_insert_id. unfold semis. by rewrite list_lookup_fmap, Hinfo.
Qed.

Lemma nodes_keep (c : DominatorCalculator.t) (k : nat)
      (info info' : NodeInfo.t) :
  DominatorCalculator.node_info_ c !! k = Some info ->
  NodeInfo.node info' = NodeInfo.node info ->
  nodes (DominatorCalculator.set_node_info_
           (<[k := info']> (DominatorCalculator.node_info_ c)) c)
  = nodes c.
Proof.
  intros Hinfo Hnode. rewrite nodes_insert, Hnode.
  apply list_insert_id. unfold nodes. by rewrite list_lookup_fmap, Hinfo.
Qed.

(** Recording the symbol of a slot. *)
Lemma build_node (pv : ptr) (o : Obj.t) (c : DominatorCalculator.t)
      (info : NodeInfo.t) :
  Build total objects root c ->
  objects !! pv = Some o ->
  reaches objects root pv ->
  DominatorCalculator.node_info_ c !! Z.to_nat (Obj.id o) = Some info ->
  Build total objects root
        (DominatorCalculator.set_node_info_
           (<[Z.to_nat (Obj.id o) := NodeInfo.set_node (Some pv) info]>
              (DominatorCalculator.node_info_ c)) c).
Proof.
  intros [Hinv [[Hlen Hordlen Hord Hinfos] Hsound Hranked Hquiet Hbelow Hnum]]
         Ho Hreach Hinfo.
  set (k := Z.to_nat (Obj.id o)) in *.
  set (c' := DominatorCalculator.set_node_info_ _ c).
  assert (semis c' = semis c) as Hsemis by (by apply semis_keep with info).
  assert (nodes c' = <[k := Some pv]> (nodes c)) as Hnodes
      by apply nodes_insert.
  split; [|split].
  - unfold Init_inv. by rewrite Hsemis.
  - split; simpl.
    + by rewrite length_insert.
    + done.
    + rewrite Hnodes. eapply list.Forall_impl; [exact Hord|].
      intros x. apply slot_node_mono.
    + rewrite Hnodes. apply Forall_insert.
      * eapply list.Forall_impl; [exact Hinfos|].
        intros x. apply info_typed_node_mono.
      * apply info_typed_node_mono.
        pose proof (Forall_lookup_1 _ _ _ _ Hinfos Hinfo) as [].
        by split.
  - intros i p. rewrite Hnodes. destruct (decide (i = k)) as [->|Hne].
    + rewrite list_lookup_insert_eq.
      * intros [= <-]. by exists o.
      * unfold nodes. rewrite length_fmap. apply lookup_lt_is_Some. eauto.
    + rewrite list_lookup_insert_ne by done. apply Hsound.
  - intros i info' Hlook. rewrite Hsemis. simpl in Hlook.
    destruct (decide (i = k)) as [->|Hne].
    + rewrite list_lookup_insert_eq in Hlook
        by (apply lookup_lt_is_Some; eauto).
      injection Hlook as <-. simpl. by apply (Hranked k).
    + rewrite list_lookup_insert_ne in Hlook by done. by apply (Hranked i).
  - simpl. apply Forall_insert; [done|].
    apply (Forall_lookup_1 _ _ _ _ Hquiet Hinfo).
  - by rewrite Hsemis.
  - intros i s. rewrite Hsemis, Hnodes. intros Hs Hnz.
    destruct (decide (i = k)) as [->|Hne].
    + exists pv. rewrite list_lookup_insert_eq; [done|].
      unfold nodes. rewrite length_fmap. apply lookup_lt_is_Some. eauto.
    + rewrite list_lookup_insert_ne by done. by apply (Hnum i s).
Qed.

(** A write that leaves [node] and [semi] alone. *)
Lemma build_plain (upd : NodeInfo.t -> NodeInfo.t) (k : nat)
      (c : DominatorCalculator.t) (info : NodeInfo.t) :
  Build total objects root c ->
  DominatorCalculator.node_info_ c !! k = Some info ->
  NodeInfo.node (upd info) = NodeInfo.node info ->
  NodeInfo.semi (upd info) = NodeInfo.semi info ->
  NodeInfo.ancestor (upd info) = 0 ->
  info_typed total (nodes c) (upd info) ->
  (NodeInfo.parent (upd info) = NodeInfo.parent info \/
   exists rp, semis c !! Z.to_nat (NodeInfo.parent (upd info)) = Some rp /\
              0 < rp /\ NodeInfo.semi info = 0) ->
  Build total objects root
        (DominatorCalculator.set_node_info_
           (<[k := upd info]> (DominatorCalculator.node_info_ c)) c).
Proof.
  intros [Hinv [[Hlen Hordlen Hord Hinfos] Hsound Hranked Hquiet Hbelow Hnum]]
         Hinfo Hnode Hsemi Hanc Hty Hparent.
  set (c' := DominatorCalculator.set_node_info_ _ c).
  assert (semis c' = semis c) as Hsemis by (by apply semis_keep with info).
  assert (nodes c' = nodes c) as Hnodes by (by apply nodes_keep with info).
  split; [|split].
  - unfold Init_inv. by rewrite Hsemis.
  - split; simpl.
    + by rewrite length_insert.
    + done.
    + by rewrite Hnodes.
    + rewrite Hnodes. by apply Forall_insert.
  - intros i p. rewrite Hnodes. apply Hsound.
  - intros i info' Hlook. rewrite Hsemis. simpl in Hlook.
    destruct (decide (i = k)) as [->|Hne].
    + rewrite list_lookup_insert_eq in Hlook
        by (apply lookup_lt_is_Some; eauto).
      injection Hlook as <-. rewrite Hsemi.
      destruct Hparent as [->|(rp & Hrp & Hpos & Hzero)].
      * by apply (Hranked k).
      * intros _. exists rp. split; [done|]. split; [done|]. lia.
    + rewrite list_lookup_insert_ne in Hlook by done. by apply (Hranked i).
  - simpl. by apply Forall_insert.
  - by rewrite Hsemis.
  - intros i s. rewrite Hsemis, Hnodes. apply Hnum.
Qed.

(** Numbering a slot: the three writes that follow [++n_]. *)
Lemma build_number (v : Z) (c : DominatorCalculator.t) (info : NodeInfo.t)
      (p : ptr) :
  Build total objects root c ->
  1 <= v < total ->
  DominatorCalculator.node_info_ c !! Z.to_nat v = Some info ->
  NodeInfo.semi info = 0 ->
  NodeInfo.node info = Some p ->
  DominatorCalculator.n_ c + 1 < total /\
  Build total objects root
        (DominatorCalculator.mk
           (DominatorCalculator.n_ c + 1)
           (<[Z.to_nat v :=
                NodeInfo.set_semi (DominatorCalculator.n_ c + 1) info]>
              (DominatorCalculator.node_info_ c))
           (<[Z.to_nat (DominatorCalculator.n_ c + 1) := v]>
              (DominatorCalculator.ordering_ c))) /\
  S (count0 (<[Z.to_nat v := DominatorCalculator.n_ c + 1]> (semis c)))
  = count0 (semis c).
Proof.
  intros [Hinv [[Hlen Hordlen Hord Hinfos] Hsound Hranked Hquiet Hbelow Hnum]]
         Hv Hinfo Hsemi Hnode.
  assert (semis c !! Z.to_nat v = Some 0) as Hsemi0.
  { unfold semis. by rewrite list_lookup_fmap, Hinfo, <- Hsemi. }
  destruct (numbering_mark total _ _ _ _ Hinv Hv Hsemi0)
    as (Hroom & Hinv' & Hcount).
  pose proof (num_n _ _ _ _ Hinv) as Hn0.
  set (n := DominatorCalculator.n_ c) in *.
  set (k := Z.to_nat v) in *.
  set (c' := DominatorCalculator.mk _ _ _).
  assert (semis c' = <[k := n + 1]> (semis c)) as Hsemis.
  { unfold semis, c'. simpl. by rewrite list_fmap_insert. }
  assert (nodes c' = nodes c) as Hnodes.
  { unfold nodes, c'. simpl. rewrite list_fmap_insert. simpl.
    apply list_insert_id. by rewrite list_lookup_fmap, Hinfo. }
  assert (slot total (nodes c) v) as Hslot.
  { split; [lia|]. right. exists p. unfold nodes. fold k.
    by rewrite list_lookup_fmap, Hinfo, <- Hnode. }
  assert (forall j rp, semis c !! j = Some rp -> 0 < rp ->
                       <[k := n + 1]> (semis c) !! j = Some rp) as Hkeep.
  { intros j rp Hj Hpos. rewrite list_lookup_insert_ne; [done|].
    intros <-. rewrite Hsemi0 in Hj. injection Hj as <-. lia. }
  split; [done|]. split; [|done]. split; [|split].
  - unfold Init_inv. rewrite Hsemis. exact Hinv'.
  - split; simpl.
    + by rewrite length_insert.
    + by rewrite length_insert.
    + rewrite Hnodes. by apply Forall_insert.
    + rewrite Hnodes. apply Forall_insert; [done|].
      pose proof (Forall_lookup_1 _ _ _ _ Hinfos Hinfo) as [].
      split; try done. simpl. lia.
  - intros i q. rewrite Hnodes. apply Hsound.
  - intros i info' Hlook. rewrite Hsemis. simpl in Hlook.
    destruct (decide (i = k)) as [->|Hne].
    + rewrite list_lookup_insert_eq in Hlook
        by (apply lookup_lt_is_Some; eauto).
      injection Hlook as <-. simpl. intros Hp.
      destruct (Hranked k info Hinfo Hp) as (rp & Hrp & Hpos & _).
      exists rp. split; [by apply Hkeep|]. split; [done|]. intros _.
      pose proof (Forall_lookup_1 _ _ _ _ Hbelow Hrp) as Hle. simpl in Hle.
      lia.
    + rewrite list_lookup_insert_ne in Hlook by done. intros Hp.
      destruct (Hranked i info' Hlook Hp) as (rp & Hrp & Hpos & Hlt).
      exists rp. split; [by apply Hkeep|]. done.
  - simpl. apply Forall_insert; [done|].
    apply (Forall_lookup_1 _ _ _ _ Hquiet Hinfo).
  - rewrite Hsemis. simpl. apply Forall_insert; [|lia].
    eapply list.Forall_impl; [exact Hbelow|]. simpl. intros s Hs. lia.
  - intros i s. rewrite Hsemis, Hnodes. intros Hs Hnz.
    destruct (decide (i = k)) as [->|Hne].
    + exists p. unfold nodes. by rewrite list_lookup_fmap, Hinfo, <- Hnode.
    + rewrite list_lookup_insert_ne in Hs by done. by apply (Hnum i s).
Qed.

(** The steps of [Initialize] as they act on what it builds. *)
Lemma node_build (pv : ptr) (o : Obj.t) (c : DominatorCalculator.t) :
  Build total objects root c ->
  objects !! pv = Some o ->
  reaches objects root pv ->
  exists c1,
    DominatorCalculator.wr (NodeInfo.set_node (Some pv)) (Obj.id o) c = Ok c1 /\
    Build total objects root c1 /\
    semis c1 = semis c /\
    DominatorCalculator.n_ c1 = DominatorCalculator.n_ c /\
    nodes c1 !! Z.to_nat (Obj.id o) = Some (Some pv).
Proof.
  intros Hbuild Ho Hreach. pose proof Hbuild as [Hinv Hext].
  destruct (id_in_range objects total Hids pv o c Ho Hinv) as [Hv Hlt].
  rewrite semis_length in Hlt.
  destruct (lookup_lt_is_Some_2 _ _ Hlt) as [info Hinfo].
  eexists. split; [by apply wr_at|]. split; [by apply build_node|].
  split; [by apply semis_keep with info|]. split; [done|].
  rewrite nodes_insert. apply list_lookup_insert_eq.
  unfold nodes. by rewrite length_fmap.
Qed.

Lemma number_build (v : Z) (c : DominatorCalculator.t) (p : ptr) :
  Build total objects root c ->
  1 <= v < total ->
  semis c !! Z.to_nat v = Some 0 ->
  nodes c !! Z.to_nat v = Some (Some p) ->
  exists c3 c4,
    DominatorCalculator.wr
      (NodeInfo.set_semi (DominatorCalculator.n_ c + 1)) v
      (DominatorCalculator.set_n_ (DominatorCalculator.n_ c + 1) c) = Ok c3 /\
    DominatorCalculator.set_Vertex (DominatorCalculator.n_ c3) v c3 = Ok c4 /\
    Build total objects root c4 /\
    S (count0 (semis c4)) = count0 (semis c) /\
    semis c4 = <[Z.to_nat v := DominatorCalculator.n_ c + 1]> (semis c) /\
    nodes c4 = nodes c /\
    DominatorCalculator.n_ c + 1 < total /\
    0 <= DominatorCalculator.n_ c.
Proof.
  intros Hbuild Hv Hsemi Hnode. pose proof Hbuild as [Hinv Hext].
  assert (Z.to_nat v < length (DominatorCalculator.node_info_ c))%nat as Hlt.
  { rewrite <- semis_length. apply lookup_lt_is_Some. eauto. }
  destruct (lookup_lt_is_Some_2 _ _ Hlt) as [info Hinfo].
  assert (NodeInfo.semi info = 0) as Hsemi0.
  { unfold semis in Hsemi. rewrite list_lookup_fmap, Hinfo in Hsemi.
    by injection Hsemi. }
  assert (NodeInfo.node info = Some p) as Hnode0.
  { unfold nodes in Hnode. rewrite list_lookup_fmap, Hinfo in Hnode.
    by injection Hnode. }
  destruct (build_number v c info p Hbuild Hv Hinfo Hsemi0 Hnode0)
    as (Hroom & Hbuild' & Hcount).
  pose proof (num_n _ _ _ _ Hinv) as Hn0.
  assert (is_Some (DominatorCalculator.ordering_ c
                   !! Z.to_nat (DominatorCalculator.n_ c + 1))) as [x Hx].
  { apply lookup_lt_is_Some_2. rewrite (num_ord_len _ _ _ _ Hinv). lia. }
  eexists. eexists. split; [by apply (wr_at _ _ _ info)|].
  split.
  { unfold DominatorCalculator.set_Vertex. simpl. rewrite Hx. reflexivity. }
  split; [exact Hbuild'|]. split; [|split; [|split; [|done]]].
  - unfold semis at 1. simpl. rewrite list_fmap_insert. exact Hcount.
  - unfold semis at 1. simpl. by rewrite list_fmap_insert.
  - unfold nodes at 1. simpl. rewrite list_fmap_insert. simpl.
    apply list_insert_id. by rewrite Hnode, Hnode0.
Qed.

Lemma wr_build (upd : NodeInfo.t -> NodeInfo.t) (v : Z)
      (c : DominatorCalculator.t) :
  Build total objects root c -> 0 <= v < total ->
  (forall info,
      DominatorCalculator.node_info_ c !! Z.to_nat v = Some info ->
      info_typed total (nodes c) info ->
      NodeInfo.ancestor info = 0 ->
      NodeInfo.node (upd info) = NodeInfo.node info /\
      NodeInfo.semi (upd info) = NodeInfo.semi info /\
      NodeInfo.ancestor (upd info) = 0 /\
      info_typed total (nodes c) (upd info) /\
      (NodeInfo.parent (upd info) = NodeInfo.parent info \/
       exists rp,
         semis c !! Z.to_nat (NodeInfo.parent (upd info)) = Some rp /\
         0 < rp /\ NodeInfo.semi info = 0)) ->
  exists c',
    DominatorCalculator.wr upd v c = Ok c' /\
    Build total objects root c' /\
    semis c' = semis c /\ nodes c' = nodes c /\
    DominatorCalculator.n_ c' = DominatorCalculator.n_ c.
Proof.
  intros Hbuild Hv Hupd. pose proof Hbuild as [Hinv Hext].
  assert (Z.to_nat v < length (DominatorCalculator.node_info_ c))%nat as Hlt.
  { rewrite (ty_info_len _ _ (ie_typed _ _ _ _ Hext)). lia. }
  destruct (lookup_lt_is_Some_2 _ _ Hlt) as [info Hinfo].
  destruct (Hupd info Hinfo) as (Hnode & Hsemi & Hanc & Hty & Hparent).
  { apply (Forall_lookup_1 _ _ _ _ (ty_info _ _ (ie_typed _ _ _ _ Hext))
             Hinfo). }
  { apply (Forall_lookup_1 _ _ _ _ (ie_quiet _ _ _ _ Hext) Hinfo). }
  eexists. split; [by apply wr_at|].
  split; [by apply build_plain|].
  split; [by apply semis_keep with info|].
  split; [by apply nodes_keep with info|done].
Qed.

(** With more fuel than unnumbered slots, [Initialize] returns; it keeps
    what has been built and the numbers given so far. *)
Lemma Initialize_builds (fuel : nat) :
  forall (pv : ptr) (o : Obj.t) (c : DominatorCalculator.t),
    Build total objects root c ->
    objects !! pv = Some o ->
    semis c !! Z.to_nat (Obj.id o) = Some 0 ->
    reaches objects root pv ->
    (count0 (semis c) < fuel)%nat ->
    exists c',
      DominatorCalculator.Initialize objects fuel pv c = Ok c' /\
      Build total objects root c' /\
      (count0 (semis c') < count0 (semis c))%nat /\
      (forall k s, semis c !! k = Some s -> s <> 0 ->
                   semis c' !! k = Some s) /\
      exists s, semis c' !! Z.to_nat (Obj.id o) = Some s /\ 0 < s.
Proof.
  induction fuel as [|fuel IH]; intros pv o c Hbuild Ho Hsemi Hreach Hfuel;
    [lia|].
  pose proof Hbuild as [Hinv _].
  destruct (id_in_range objects total Hids pv o c Ho Hinv) as [Hv _].
  pose proof (num_total _ _ _ _ Hinv) as Htotal.
  simpl. rewrite Ho. simpl.
  destruct (node_build pv o c Hbuild Ho Hreach)
    as (c1 & -> & Hbuild1 & Hs1 & Hn1 & Hnode1). simpl.
  destruct (number_build (Obj.id o) c1 pv Hbuild1 Hv) as
      (c3 & c4 & Hwr3 & Hsv4 & Hbuild4 & Hcount4 & Hs4 & Hnodes4 & Hroom & Hn0);
    [by rewrite Hs1|done|].
  assert (wrap32 (DominatorCalculator.n_ c1 + 1)
          = DominatorCalculator.n_ c1 + 1) as Hwrap.
  { unfold wrap32. apply Z.mod_small. lia. }
  rewrite !Hwrap, Hwr3. simpl. rewrite Hsv4. simpl.
  rewrite Hs1, Hn1 in Hs4. rewrite Hs1 in Hcount4. rewrite Hn1 in Hn0.
  assert (semis c4 !! Z.to_nat (Obj.id o)
          = Some (DominatorCalculator.n_ c + 1)) as Hnumbered4.
  { rewrite Hs4. apply list_lookup_insert_eq. apply lookup_lt_is_Some. eauto. }
  assert (forall k s, semis c !! k = Some s -> s <> 0 ->
                      semis c4 !! k = Some s) as Hkept4.
  { intros k s Hk Hnz. rewrite Hs4, list_lookup_insert_ne; [done|].
    intros <-. rewrite Hsemi in Hk. by injection Hk as <-. }
  assert (forall c5, Build total objects root c5 ->
                     (exists s, semis c5 !! Z.to_nat (Obj.id o) = Some s /\
                                0 < s) ->
                     slot total (nodes c5) (Obj.id o)) as Hslot.
  { intros c5 [_ Hext5] (s & Hs & Hpos). split; [lia|]. right.
    apply (ie_numbered _ _ _ _ Hext5 _ s); [done|lia]. }
  clear dependent c1. clear dependent c3.
  destruct (wr_build (NodeInfo.set_label (Obj.id o)) (Obj.id o) c4 Hbuild4)
    as (c5 & -> & Hbuild5 & Hs5 & Hnodes5 & Hn5); [lia| |].
  { intros info _ [Hp Han Hl Hs Hd Hpr Hb] Hquiet.
    split; [done|split; [done|split; [done|split; [|by left]]]].
    split; try done. simpl.
    apply (Hslot c4 Hbuild4). eexists. split; [done|lia]. }
  simpl.
  destruct (wr_build (NodeInfo.set_ancestor 0) (Obj.id o) c5 Hbuild5)
    as (c6 & -> & Hbuild6 & Hs6 & Hnodes6 & Hn6); [lia| |].
  { intros info _ [Hp Han Hl Hs Hd Hpr Hb] Hquiet.
    split; [done|split; [done|split; [done|split; [|by left]]]].
    split; try done. simpl. split; [lia|by left]. }
  simpl.
  assert (semis c6 = semis c4) as Hs64 by (by rewrite Hs6, Hs5).
  clear dependent c5.
  assert (forall children c7,
             (forall t, t ∈ children -> t ∈ Obj.refs o) ->
             Build total objects root c7 ->
             (count0 (semis c7) <= count0 (semis c6))%nat ->
             (forall k s, semis c6 !! k = Some s -> s <> 0 ->
                          semis c7 !! k = Some s) ->
             exists c',
               foldM (fun target c =>
                        t ← of_option (objects !! target);
                        let w := Obj.id t in
                        sw ← DominatorCalculator.Semi w c;
                        c ← (if sw =? 0
                             then c ← DominatorCalculator.wr
                                        (NodeInfo.set_parent (Obj.id o)) w c;
                                  DominatorCalculator.Initialize
                                    objects fuel target c
                             else Ok c);
                        pw ← DominatorCalculator.Pred w c;
                        DominatorCalculator.wr
                          (NodeInfo.set_pred (set_insert (Obj.id o) pw)) w c)
                     children c7 = Ok c' /\
               Build total objects root c' /\
               (count0 (semis c') <= count0 (semis c6))%nat /\
               (forall k s, semis c6 !! k = Some s -> s <> 0 ->
                            semis c' !! k = Some s)) as Hloop.
  { induction children as [|child children IHc];
      intros c7 Hch Hbuild7 Hle Hkept7.
    - exists c7. split; [reflexivity|done].
    - assert (child ∈ Obj.refs o) as Hchild by (apply Hch; set_solver).
      assert (is_Some (objects !! child)) as [t Ht].
      { apply elem_of_dom. apply Hclosed in Ho. simpl in Ho. set_solver. }
      pose proof Hbuild7 as [Hinv7 Hext7].
      destruct (id_in_range objects total Hids child t c7 Ht Hinv7)
        as [Hw Hwlt].
      destruct (lookup_lt_is_Some_2 _ _ Hwlt) as [sw Hsw].
      assert (forall c8, (forall k s, semis c6 !! k = Some s -> s <> 0 ->
                                      semis c8 !! k = Some s) ->
                         exists s, semis c8 !! Z.to_nat (Obj.id o) = Some s /\
                                   0 < s) as Hv8.
      { intros c8 Hkept8. exists (DominatorCalculator.n_ c + 1).
        split; [|lia]. apply Hkept8; [|lia]. by rewrite Hs64. }
      assert (exists c8,
                 (if sw =? 0
                  then c ← DominatorCalculator.wr
                             (NodeInfo.set_parent (Obj.id o)) (Obj.id t) c7;
                       DominatorCalculator.Initialize objects fuel child c
                  else Ok c7) = Ok c8 /\
                 Build total objects root c8 /\
                 (count0 (semis c8) <= count0 (semis c6))%nat /\
                 (forall k s, semis c6 !! k = Some s -> s <> 0 ->
                              semis c8 !! k = Some s))
        as (c8 & Hbody & Hbuild8 & Hle8 & Hkept8).
      { destruct (Z.eqb_spec sw 0) as [->|Hnz]; [|by exists c7].
        destruct (wr_build (NodeInfo.set_parent (Obj.id o)) (Obj.id t) c7
                    Hbuild7)
          as (c7' & -> & Hbuild7' & Hs7' & Hnodes7' & Hn7'); [lia| |].
        { intros info Hinfo [Hp Han Hl Hs Hd Hpr Hb] Hquiet.
          split; [done|split; [done|split; [done|split]]].
          - split; try done. simpl.
            apply (Hslot c7 Hbuild7 (Hv8 c7 Hkept7)).
          - right. destruct (Hv8 c7 Hkept7) as (s & Hs' & Hpos).
            exists s. split; [done|]. split; [done|].
            unfold semis in Hsw. rewrite list_lookup_fmap, Hinfo in Hsw.
            by injection Hsw. }
        simpl.
        destruct (IH child t c7' Hbuild7' Ht)
          as (c8 & Hrun & Hbuild8 & Hlt8 & Hkept8 & _).
        - by rewrite Hs7'.
        - eapply rtc_r; [exact Hreach|]. unfold ref_edge. by rewrite Ho.
        - rewrite Hs7'. rewrite Hs64 in Hle. lia.
        - exists c8. split; [done|]. split; [done|].
          rewrite Hs7' in Hlt8, Hkept8. split; [lia|].
          intros k s Hk Hnz. apply Hkept8; [|done]. by apply Hkept7. }
      cbn [foldM]. rewrite Ht. simpl. rewrite (rd_semi _ _ _ Hsw). simpl.
      rewrite Hbody. simpl.
      pose proof Hbuild8 as [Hinv8 Hext8].
      destruct (rd_in_range NodeInfo.pred (Obj.id t) c8) as [pw Hpw].
      { rewrite (num_semi_len _ _ _ _ Hinv8). lia. }
      unfold DominatorCalculator.Pred. rewrite Hpw. simpl.
      destruct (wr_build (NodeInfo.set_pred (set_insert (Obj.id o) pw))
                         (Obj.id t) c8 Hbuild8)
        as (c9 & -> & Hbuild9 & Hs9 & Hnodes9 & Hn9); [lia| |].
      { intros info Hinfo [Hp Han Hl Hs Hd Hpr Hb] Hquiet.
        split; [done|split; [done|split; [done|split; [|by left]]]].
        split; try done. simpl.
        apply slot_set_insert; [by apply (Hslot c8 Hbuild8 (Hv8 c8 Hkept8))|].
        unfold DominatorCalculator.rd in Hpw. rewrite Hinfo in Hpw.
        by injection Hpw as <-. }
      simpl. apply IHc.
      + intros x Hx. apply Hch. set_solver.
      + done.
      + by rewrite Hs9.
      + by rewrite Hs9. }
  destruct (Hloop (elements (Obj.refs o)) c6)
    as (c' & Hrun & Hbuild' & Hle' & Hkept').
  - intros x Hx. by apply elem_of_elements in Hx.
  - done.
  - done.
  - done.
  - exists c'. split; [exact Hrun|]. split; [done|].
    rewrite Hs64 in Hle', Hkept'. split; [lia|]. split.
    + intros k s Hk Hnz. apply Hkept'; [|done]. by apply Hkept4.
    + exists (DominatorCalculator.n_ c + 1). split; [|lia].
      apply Hkept'; [done|lia].
Qed.

End BuildFacts.

(** ** The dominator map *)

Lemma fresh_calculator_build (objects : gmap ptr Obj.t) (total : Z)
      (root : ptr) :
  0 < total <= 2 ^ 32 ->
  Build total objects root (fresh_calculator total).
Proof.
  intros Htotal. split; [by apply fresh_calculator_inv|].
  assert (slot total (nodes (fresh_calculator total)) 0) as Hzero
      by (split; [lia|by left]).
  unfold fresh_calculator. split; simpl.
  - split; simpl.
    + by rewrite length_replicate.
    + by rewrite length_replicate.
    + by apply Forall_replicate.
    + apply Forall_replicate. split; simpl; try done. lia.
  - intros i p. unfold nodes. simpl. rewrite fmap_replicate.
    intros [[=] _]%lookup_replicate_1.
  - intros i info [-> _]%lookup_replicate_1. done.
  - by apply Forall_replicate.
  - unfold semis. simpl. rewrite fmap_replicate. by apply Forall_replicate.
  - intros k s. unfold semis. simpl. rewrite fmap_replicate.
    intros [-> _]%lookup_replicate_1. done.
Qed.

Section CalculateFacts.
Variable objects : gmap ptr Obj.t.
Variable total : Z.
Variable root : ptr.
Hypothesis Hclosed : closed objects.
Hypothesis Hids : ids_in_range total objects.
Hypothesis Htotal : total <= 2 ^ 32.

(** [CalculateDominators] returns; the calculator it leaves has the symbols
    [Initialize] recorded and no dominator for the root. *)
Lemma CalculateDominators_returns (fuel : nat) (o : Obj.t) :
  objects !! root = Some o ->
  (Z.to_nat total < fuel)%nat ->
  exists c1 c,
    DominatorCalculator.CalculateDominators fuel objects (Some root) total
    = Ok c /\
    Build total objects root c1 /\
    Loop total c1 c /\
    exists info,
      DominatorCalculator.node_info_ c !! Z.to_nat (Obj.id o) = Some info /\
      NodeInfo.dom info = 0.
Proof.
  intros Ho Hfuel. pose proof (Hids _ _ Ho) as Hr. simpl in Hr.
  unfold DominatorCalculator.CalculateDominators. simpl. rewrite Ho. simpl.
  fold (fresh_calculator total).
  pose proof (fresh_calculator_build objects total root ltac:(lia)) as Hbuild0.
  destruct (Initialize_builds objects total root Hclosed Hids fuel root o
              (fresh_calculator total) Hbuild0 Ho)
    as (c1 & -> & Hbuild1 & Hcount & _ & _).
  { unfold fresh_calculator, semis. simpl. rewrite fmap_replicate.
    apply lookup_replicate_2. lia. }
  { apply rtc_refl. }
  { unfold fresh_calculator, semis. simpl.
    rewrite fmap_replicate, count0_replicate. lia. }
  simpl. pose proof Hbuild1 as [Hinv1 Hext1].
  pose proof (num_count _ _ _ _ Hinv1) as Hcount1.
  pose proof (num_n _ _ _ _ Hinv1) as Hn1.
  pose proof (count0_pos _ _ (num_slot0 _ _ _ _ Hinv1)) as Hpos1.
  assert (1 <= DominatorCalculator.n_ c1) as Hn1'.
  { pose proof (num_count _ _ _ _ (proj1 Hbuild0)) as Hcount0.
    change (DominatorCalculator.n_ (fresh_calculator total)) with 0
      in Hcount0. lia. }
  assert (Loop total c1 c1) as Hloop1.
  { split; try done; [apply (ie_typed _ _ _ _ Hext1)|].
    intros i info Hinfo Hne. destruct Hne.
    apply (Forall_lookup_1 _ _ _ _ (ie_quiet _ _ _ _ Hext1) Hinfo). }
  assert (forall i s, semis c1 !! i = Some s -> 0 <= s < total) as Hbound.
  { intros i s Hs. unfold semis in Hs. rewrite list_lookup_fmap in Hs.
    destruct (DominatorCalculator.node_info_ c1 !! i) as [info|] eqn:Hinfo;
      [|done].
    injection Hs as <-.
    apply (it_semi _ _ _
             (Forall_lookup_1 _ _ _ _
                (ty_info _ _ (ie_typed _ _ _ _ Hext1)) Hinfo)). }
  assert (forall i w pw : Z,
             1 <= i <= DominatorCalculator.n_ c1 ->
             DominatorCalculator.ordering_ c1 !! Z.to_nat i = Some w ->
             parents c1 !! Z.to_nat w = Some pw ->
             pw <> 0 ->
             exists rw rp, semis c1 !! Z.to_nat w = Some rw /\
                           semis c1 !! Z.to_nat pw = Some rp /\
                           0 <= rp < rw) as Hparent.
  { intros i w pw Hi Hw Hpw Hnz.
    destruct (num_vertex _ _ _ _ Hinv1 (Z.to_nat i)) as (v & Hv & _ & Hsv);
      [lia|lia|].
    rewrite Hw in Hv. injection Hv as <-.
    unfold parents in Hpw. rewrite list_lookup_fmap in Hpw.
    destruct (DominatorCalculator.node_info_ c1 !! Z.to_nat w) as [info|]
      eqn:Hinfo; [|done].
    injection Hpw as <-.
    destruct (ie_parent _ _ _ _ Hext1 _ _ Hinfo Hnz) as (rp & Hrp & Hpos & Hlt).
    unfold semis in Hsv. rewrite list_lookup_fmap, Hinfo in Hsv.
    injection Hsv as Hsv.
    exists (Z.of_nat (Z.to_nat i)), rp. split; [|split; [done|lia]].
    unfold semis. rewrite list_lookup_fmap, Hinfo. simpl. by rewrite Hsv. }
  assert (wrap32 (DominatorCalculator.n_ c1 - 1)
          = DominatorCalculator.n_ c1 - 1) as ->.
  { unfold wrap32. apply Z.mod_small. lia. }
  destruct (semi_loop_Loop total c1 (num_slot0 _ _ _ _ Hinv1) Hbound
              ltac:(lia) Hparent fuel
              (Z.to_nat (DominatorCalculator.n_ c1 - 1)) c1 Hloop1)
    as (c2 & -> & Hloop2); [lia|lia|].
  simpl.
  destruct (dom_loop_Loop total c1 (seqZ 1 (DominatorCalculator.n_ c2 - 1))
                          c2 Hloop2) as (c3 & -> & Hloop3).
  { apply Forall_seqZ. intros i Hi. rewrite (lp_n _ _ _ Hloop2) in Hi. lia. }
  simpl.
  destruct (rd_Loop total c1 NodeInfo.dom (Obj.id o) c3 Hloop3)
    as (info & Hinfo & Hty & _); [lia|].
  destruct (wr_Loop_plain total c1 (NodeInfo.set_dom 0) (Obj.id o) c3 Hloop3)
    as (c4 & Hwr & Hloop4); [lia| |done|].
  { intros i [Hp Han Hl Hs Hd Hpr Hb]. split; try done. simpl.
    split; [lia|by left]. }
  exists c1, c4. split; [done|]. split; [done|]. split; [done|].
  rewrite (wr_at _ _ _ _ Hinfo) in Hwr. injection Hwr as <-. simpl.
  exists (NodeInfo.set_dom 0 info). split; [|done].
  apply list_lookup_insert_eq. apply lookup_lt_is_Some. eauto.
Qed.

(** The loop of [Calculate] over the slots of a calculator that
    [CalculateDominators] leaves. *)
Lemma Calculate_collects (c1 c : DominatorCalculator.t) (o : Obj.t)
      (info_r : NodeInfo.t) :
  objects !! root = Some o ->
  Build total objects root c1 ->
  Loop total c1 c ->
  DominatorCalculator.node_info_ c !! Z.to_nat (Obj.id o) = Some info_r ->
  NodeInfo.dom info_r = 0 ->
  forall (infos : list NodeInfo.t) (dominators : gmap ptr (option ptr)),
    (forall info, info ∈ infos -> info ∈ DominatorCalculator.node_info_ c) ->
    sound_dominators objects root dominators ->
    exists dominators',
      foldM (fun info dominators =>
               match NodeInfo.node info with
               | None => Ok dominators
               | Some n =>
                   if NodeInfo.dom info =? 0 then Ok dominators
                   else
                     d ← DominatorCalculator.rd NodeInfo.node
                                                (NodeInfo.dom info) c;
                     Ok (<[n := d]> dominators)
               end)
            infos dominators = Ok dominators' /\
      sound_dominators objects root dominators'.
Proof.
  intros Ho [_ Hext1] Hloop Hinfo_r Hdom_r.
  pose proof (ie_nodes _ _ _ _ Hext1) as Hsound.
  unfold node_sound in Hsound. rewrite <- (lp_nodes _ _ _ Hloop) in Hsound.
  induction infos as [|info infos IH]; intros dominators Hin Hdoms.
  - by exists dominators.
  - cbn [foldM].
    assert (info ∈ DominatorCalculator.node_info_ c) as Hinfo
        by (apply Hin; set_solver).
    apply list_elem_of_lookup in Hinfo as [i Hinfo].
    assert (forall info', info' ∈ infos ->
                          info' ∈ DominatorCalculator.node_info_ c) as Hin'
        by (intros info' Hin''; apply Hin; set_solver).
    destruct (NodeInfo.node info) as [n|] eqn:Hnode; simpl;
      [|by apply IH].
    destruct (Z.eqb_spec (NodeInfo.dom info) 0) as [Hz|Hnz]; simpl;
      [by apply IH|].
    pose proof (Forall_lookup_1 _ _ _ _
                  (ty_info _ _ (lp_typed _ _ _ Hloop)) Hinfo) as Hty.
    destruct (it_dom _ _ _ Hty) as [Hd [Hd0|[q Hq]]]; [done|].
    destruct (rd_Loop total c1 NodeInfo.node _ c Hloop Hd)
      as (info_d & Hinfo_d & _ & ->). simpl.
    unfold nodes in Hq. rewrite list_lookup_fmap, Hinfo_d in Hq.
    injection Hq as Hq. rewrite Hq.
    destruct (Hsound i n) as (on & Hon & Hid & Hreach).
    { unfold nodes. by rewrite list_lookup_fmap, Hinfo, <- Hnode. }
    destruct (Hsound (Z.to_nat (NodeInfo.dom info)) q)
      as (oq & Hoq & _ & Hreachq).
    { unfold nodes. by rewrite list_lookup_fmap, Hinfo_d, <- Hq. }
    apply IH; [done|].
    intros s d. destruct (decide (s = n)) as [->|Hne].
    + rewrite lookup_insert_eq. intros [= <-]. split; [|split; [done|]].
      * intros ->. rewrite Ho in Hon. injection Hon as <-.
        rewrite Hid, Hinfo in Hinfo_r. injection Hinfo_r as <-. done.
      * exists q. split; [done|]. split; [|done]. by apply elem_of_dom_2 in Hoq.
    + rewrite lookup_insert_ne by done. apply Hdoms.
Qed.

(** With more fuel than id slots, [Calculate] returns a map whose entries
    are sound. *)
Lemma Calculate_returns (fuel : nat) :
  root ∈ dom objects ->
  (Z.to_nat total < fuel)%nat ->
  exists dominators,
    DominatorCalculator.Calculate fuel objects (Some root) total ∅
    = Ok dominators /\
    sound_dominators objects root dominators.
Proof.
  intros [o Ho]%elem_of_dom Hfuel.
  destruct (CalculateDominators_returns fuel o Ho Hfuel)
    as (c1 & c & Hrun & Hbuild1 & Hloop & info_r & Hinfo_r & Hdom_r).
  unfold DominatorCalculator.Calculate. rewrite Hrun. simpl.
  apply (Calculate_collects c1 c o info_r); try done.
Qed.

Lemma sound_dominators_valid (dominators : gmap ptr (option ptr)) :
  sound_dominators objects root dominators ->
  valid_dominators dominators objects.
Proof.
  intros Hsound s d Hd. destruct (Hsound s d Hd) as (_ & _ & q & -> & Hq & _).
  done.
Qed.

End CalculateFacts.

(** X19.  On a graph whose references all point at symbols and whose ids lie
    in [1, total) with [total <= 2^32], with more fuel than id slots,
    [Calculate] returns: no index is out of range and every chain of
    ancestor links ends.  The root is not a key of the map it returns, and
    every entry maps a symbol reachable from the root to a symbol reachable
    from the root. *)
Theorem Calculate_returns_sound_dominators
        (objects : gmap ptr Obj.t) (total : Z) (root : ptr) (fuel : nat) :
  closed objects ->
  ids_in_range total objects ->
  total <= 2 ^ 32 ->
  root ∈ dom objects ->
  (Z.to_nat total < fuel)%nat ->
  exists dominators,
    DominatorCalculator.Calculate fuel objects (Some root) total ∅
    = Ok dominators /\
    root ∉ dom dominators /\
    forall s d, dominators !! s = Some d ->
                reaches objects root s /\
                exists q, d = Some q /\ q ∈ dom objects /\
                          reaches objects root q.
Proof.
  intros Hclosed Hids Htotal Hroot Hfuel.
  destruct (Calculate_returns objects total root Hclosed Hids Htotal fuel
              Hroot Hfuel) as (dominators & Hrun & Hsound).
  exists dominators. split; [done|]. split.
  - intros [d Hd]%elem_of_dom. by destruct (Hsound root d Hd) as [Hne _].
  - intros s d Hd. by destruct (Hsound s d Hd) as (_ & Hs & Hq).
Qed.

Lemma Calculate_returns_sound_dominators_witness :
  exists dominators,
    DominatorCalculator.Calculate 5 (objects_ cycle) (Some "A"%string) 4 ∅
    = Ok dominators /\
    "A"%string ∉ dom dominators /\
    forall s d, dominators !! s = Some d ->
                reaches (objects_ cycle) "A" s /\
                exists q, d = Some q /\ q ∈ dom (objects_ cycle) /\
                          reaches (objects_ cycle) "A" q.
Proof.
  apply (Calculate_returns_sound_dominators (objects_ cycle) 4 "A" 5).
  - by_computation.
  - by_computation.
  - lia.
  - by_computation.
  - lia.
Defined.

(** ** The transitive-weight report *)

(** X20.  For a program with an entry point whose references all point at
    symbols and whose ids lie in [1, next_id_) with [next_id_ <= 2^32],
    given more fuel than id slots and than symbols,
    [PrintSymbolsByTransitiveWeight] writes nothing to the error stream and
    returns.  It has changed nothing but the weights of the symbols and
    [max_weight_], and [max_weight_] is the largest size among the symbols
    reachable from the entry point. *)
Theorem PrintSymbolsByTransitiveWeight_returns (fuel : nat) (p : Program)
        (entry : ptr) :
  closed (objects_ p) ->
  ids_in_range (next_id_ p) (objects_ p) ->
  next_id_ p <= 2 ^ 32 ->
  entry_ p = Some entry ->
  entry ∈ dom (objects_ p) ->
  (Z.to_nat (next_id_ p) < fuel)%nat ->
  (size (objects_ p) < fuel)%nat ->
  exists p',
    PrintSymbolsByTransitiveWeight fuel p = ([], Ok p') /\
    (forall s, shape <$> objects_ p' !! s = shape <$> objects_ p !! s) /\
    (next_id_ p', total_size_ p', files_ p', stripped_pretty_names_ p',
     objects_by_addr_ p', file_offsets_ p', entry_ p')
    = (next_id_ p, total_size_ p, files_ p, stripped_pretty_names_ p,
       objects_by_addr_ p, file_offsets_ p, entry_ p) /\
    (forall s, reaches (objects_ p) entry s ->
               size_of (objects_ p) s <= max_weight_ p') /\
    exists s, reaches (objects_ p) entry s /\
              max_weight_ p' = size_of (objects_ p) s.
Proof.
  intros Hclosed Hids Htotal Hentry Hin Hslots Hsymbols.
  unfold PrintSymbolsByTransitiveWeight. rewrite Hentry.
  destruct (Calculate_returns (objects_ p) (next_id_ p) entry Hclosed Hids
              Htotal fuel Hin Hslots) as (dominators & -> & Hsound).
  simpl.
  destruct (run_terminates plus64 dominators fuel entry
              (Weights.mk (objects_ p) ∅ [])) as (st & Hrun & _); try done.
  { by apply (sound_dominators_valid (objects_ p) entry). }
  { simpl. rewrite difference_empty_L. by rewrite size_dom. }
  unfold CalculateWeights. rewrite Hrun. simpl.
  destruct (run_from_entry plus64 dominators (objects_ p) entry fuel st Hrun)
    as (Hshape & _ & m & Hm & Hle & Hs).
  unfold max_weight_of in Hm.
  destruct (Weights.objs st !! entry) as [e|]; [|done].
  injection Hm as Hm. simpl.
  eexists. split; [reflexivity|]. simpl. rewrite Hm, Hentry. done.
Qed.

Lemma PrintSymbolsByTransitiveWeight_returns_witness :
  exists p',
    PrintSymbolsByTransitiveWeight 5 cycle = ([], Ok p') /\
    (forall s, shape <$> objects_ p' !! s = shape <$> objects_ cycle !! s) /\
    (next_id_ p', total_size_ p', files_ p', stripped_pretty_names_ p',
     objects_by_addr_ p', file_offsets_ p', entry_ p')
    = (next_id_ cycle, total_size_ cycle, files_ cycle,
       stripped_pretty_names_ cycle, objects_by_addr_ cycle,
       file_offsets_ cycle, entry_ cycle) /\
    (forall s, reaches (objects_ cycle) "A" s ->
               size_of (objects_ cycle) s <= max_weight_ p') /\
    exists s, reaches (objects_ cycle) "A" s /\
              max_weight_ p' = size_of (objects_ cycle) s.
Proof.
  apply (PrintSymbolsByTransitiveWeight_returns 5 cycle "A").
  - by_computation.
  - by_computation.
  - vm_compute. discriminate.
  - reflexivity.
  - by_computation.
  - vm_compute. lia.
  - by_computation.
Defined.

(** ** Files *)

(** X21.  [GetFile] gets or creates: it returns the record of [filename],
    which is the one the table held or else a fresh one, and leaves every
    other record alone; afterwards [HasFiles] holds, and asking again
    returns the same record and changes nothing. *)
Theorem GetFile_get_or_create (filename : string) (p : Program) :
  fst (GetFile filename p) = filename /\
  files_ (snd (GetFile filename p)) !! filename
  = Some (default (File.new filename) (files_ p !! filename)) /\
  (forall g, g <> filename ->
             files_ (snd (GetFile filename p)) !! g = files_ p !! g) /\
  HasFiles (snd (GetFile filename p)) = true /\
  GetFile filename (snd (GetFile filename p))
  = (filename, snd (GetFile filename p)).
Proof.
  assert (forall (m : gmap string File.t) f,
             m !! filename = Some f -> (0 < size m)%nat) as Hsize.
  { intros m f Hf. assert (size m <> 0%nat); [|lia].
    intros ->%map_size_empty_iff. by rewrite lookup_empty in Hf. }
  unfold GetFile, HasFiles.
  destruct (files_ p !! filename) as [f|] eqn:Hf; simpl.
  - rewrite Hf. repeat split; try done.
    apply bool_decide_eq_true. by apply (Hsize _ f).
  - rewrite lookup_insert_eq. repeat split; try done.
    + intros g Hne. by rewrite lookup_insert_ne.
    + apply bool_decide_eq_true.
      apply (Hsize _ (File.new filename)). by rewrite lookup_insert_eq.
Qed.
